(** * simpy-markdown: the rule-dispatch parser and its renderers

    A shallow embedding of [src/main.py].  A Python [str] is a list of
    characters; a character is a code point below 256, classified the way
    CPython's Unicode tables classify that range.  Regular expressions are
    kept as syntax trees and run by a backtracking matcher with the
    priorities of CPython's [re] module (leftmost alternative first, greedy
    and lazy repetition, capture groups, back-references, lookahead). *)

From Stdlib Require Import String Ascii List Arith Lia ZArith QArith Bool.
From stdpp Require Import gmap strings list.

Set Default Proof Using "Type".
Local Open Scope nat_scope.

(** ** Characters and strings *)

Abbreviation str := (list ascii).

Definition str_of_string (x : string) : str := list_ascii_of_string x.
Coercion str_of_string : string >-> list.

Definition code (c : ascii) : N := N_of_ascii c.

Definition between (lo hi n : N) : bool := (N.leb lo n && N.leb n hi)%bool.

(** [str.isspace] and the class [\s] on code points below 256. *)
Definition is_space (c : ascii) : bool :=
  let n := code c in
  (between 9 13 n || between 28 32 n || N.eqb n 133 || N.eqb n 160)%bool.

(** The class [\d]: decimal digits. *)
Definition is_digit (c : ascii) : bool := between 48 57 (code c).

(** The class [\w]: alphanumeric code points and the underscore. *)
Definition is_word (c : ascii) : bool :=
  let n := code c in
  (between 48 57 n || between 65 90 n || between 97 122 n || N.eqb n 95
   || N.eqb n 170 || N.eqb n 178 || N.eqb n 179 || N.eqb n 181
   || N.eqb n 185 || N.eqb n 186 || between 188 190 n
   || between 192 214 n || between 216 246 n || between 248 255 n)%bool.

(** [str.lower] on one character. *)
Definition lower_char (c : ascii) : ascii :=
  let n := code c in
  if (between 65 90 n || (between 192 222 n && negb (N.eqb n 215)))%bool
  then ascii_of_N (n + 32) else c.

Definition lower (s : str) : str := map lower_char s.

Definition ch_nl : ascii := ascii_of_nat 10.
Definition ch_cr : ascii := ascii_of_nat 13.
Definition ch_tab : ascii := ascii_of_nat 9.
Definition ch_ff : ascii := ascii_of_nat 12.
Definition ch_dq : ascii := ascii_of_nat 34.
Definition ch_sp : ascii := " "%char.

Definition ascii_eqb (a b : ascii) : bool := Ascii.eqb a b.

Definition str_eqb (a b : str) : bool := bool_decide (a = b).

(** [s[b:e]] *)
Definition substr (b e : nat) (s : str) : str := take (e - b) (drop b s).

(** [str.strip()] *)
Fixpoint lstrip (s : str) : str :=
  match s with
  | c :: s' => if is_space c then lstrip s' else s
  | [] => []
  end.

Definition rstrip (s : str) : str := rev (lstrip (rev s)).

Definition strip (s : str) : str := rstrip (lstrip s).

(** [s.split(sep)] for a one-character separator. *)
Fixpoint split_on (sep : ascii) (s : str) : list str :=
  match s with
  | [] => [[]]
  | c :: s' =>
      if ascii_eqb c sep then [] :: split_on sep s'
      else match split_on sep s' with
           | w :: ws => (c :: w) :: ws
           | [] => [[c]]
           end
  end.

(** [sub in s] *)
Fixpoint contains (sub s : str) : bool :=
  match s with
  | [] => bool_decide (sub = [])
  | _ :: s' => (bool_decide (take (length sub) s = sub) || contains sub s')%bool
  end.

Definition starts_with (pre s : str) : bool :=
  bool_decide (take (length pre) s = pre).

(** ** Regular expressions *)

Inductive citem : Type :=
| CChar (c : ascii)
| CRange (lo hi : ascii)
| CSpace
| CNotSpace
| CDigit
| CWord.

Inductive regex : Type :=
| Emp
| Lit (c : ascii)
| Cls (neg : bool) (items : list citem)
| Any
| Cat (a b : regex)
| Or (a b : regex)
| Rep (lazy : bool) (lo : nat) (hi : option nat) (a : regex)
| Grp (i : nat) (a : regex)
| Back (i : nat)
| Ahead (neg : bool) (a : regex)
| Bol
| Eol
| Wordb.

Arguments CChar c%_char.
Arguments CRange (lo hi)%_char.
Arguments Lit c%_char.

Record flags := { multiline : bool; ignorecase : bool }.

Definition no_flags : flags := {| multiline := false; ignorecase := false |}.
Definition fl_multiline : flags := {| multiline := true; ignorecase := false |}.
Definition fl_ignorecase : flags := {| multiline := false; ignorecase := true |}.

Definition span := (nat * nat)%type.

(** Capture groups: the most recent binding of an index comes first. *)
Definition groups := list (nat * span).

Fixpoint gget (i : nat) (g : groups) : option span :=
  match g with
  | [] => None
  | (j, sp) :: g' => if Nat.eqb i j then Some sp else gget i g'
  end.

Definition gset (i : nat) (sp : span) (g : groups) : groups := (i, sp) :: g.

Definition mres := (nat * groups)%type.
Definition cont := nat -> groups -> option mres.

Definition item_has (it : citem) (c : ascii) : bool :=
  match it with
  | CChar x => ascii_eqb x c
  | CRange lo hi => between (code lo) (code hi) (code c)
  | CSpace => is_space c
  | CNotSpace => negb (is_space c)
  | CDigit => is_digit c
  | CWord => is_word c
  end.

Definition class_has (items : list citem) (c : ascii) : bool :=
  existsb (fun it => item_has it c) items.

(** A literal of the pattern against a character of the subject.  Under
    [re.IGNORECASE] both are lowered, which is what CPython does on the
    code points below 256.  Beyond them the letters i, k and s of a pattern
    match further characters (U+0130 and U+0131, U+212A, U+017F): a
    statement about a pattern under this flag holds of the strings of this
    model, and of every string only where the letters leave no doubt. *)
Definition lit_eq (fl : flags) (x c : ascii) : bool :=
  if ignorecase fl then ascii_eqb (lower_char x) (lower_char c)
  else ascii_eqb x c.

(** Whether one character is accepted by a one-character pattern. *)
Definition at_bol (fl : flags) (s : str) (p : nat) : bool :=
  match p with
  | 0 => true
  | S q => if multiline fl
           then match s !! q with Some c => ascii_eqb c ch_nl | None => false end
           else false
  end.

Definition at_eol (fl : flags) (s : str) (p : nat) : bool :=
  match s !! p with
  | None => Nat.eqb p (length s)
  | Some c => (ascii_eqb c ch_nl && (multiline fl || Nat.eqb (S p) (length s)))%bool
  end.

Definition word_at (s : str) (p : nat) : bool :=
  match s !! p with Some c => is_word c | None => false end.

Definition at_wordb (s : str) (p : nat) : bool :=
  xorb (match p with 0 => false | S q => word_at s q end) (word_at s p).

(** Repetition: [cnt] iterations done so far.  An iteration has to consume
    at least one character (CPython ends a repetition whose body matched the
    empty string; every repeated body of this program consumes one). *)
Fixpoint rep (body : nat -> groups -> cont -> option mres)
    (lazy : bool) (lo : nat) (hi : option nat)
    (fuel cnt p : nat) (g : groups) (k : cont) : option mres :=
  match fuel with
  | 0 => None
  | S fuel' =>
      if lazy then
        match (if Nat.leb lo cnt then k p g else None) with
        | Some x => Some x
        | None =>
            if match hi with Some h => Nat.ltb cnt h | None => true end
            then body p g (fun p' g' =>
                   if Nat.ltb p p' then rep body lazy lo hi fuel' (S cnt) p' g' k
                   else None)
            else None
        end
      else
        match (if match hi with Some h => Nat.ltb cnt h | None => true end
               then body p g (fun p' g' =>
                      if Nat.ltb p p' then rep body lazy lo hi fuel' (S cnt) p' g' k
                      else None)
               else None) with
        | Some x => Some x
        | None => if Nat.leb lo cnt then k p g else None
        end
  end.

(** The backtracking matcher, in continuation-passing style: [m fl s r p g k]
    tries [r] at position [p] of [s] and hands every way of matching it, in
    priority order, to [k] until [k] accepts one. *)
Fixpoint m (fl : flags) (s : str) (r : regex) (p : nat) (g : groups) (k : cont)
    {struct r} : option mres :=
  match r with
  | Emp => k p g
  | Lit x =>
      match s !! p with
      | Some c => if lit_eq fl x c then k (S p) g else None
      | None => None
      end
  | Cls neg items =>
      match s !! p with
      | Some c => if xorb neg (class_has items c) then k (S p) g else None
      | None => None
      end
  | Any =>
      match s !! p with
      | Some c => if ascii_eqb c ch_nl then None else k (S p) g
      | None => None
      end
  | Cat a b => m fl s a p g (fun p' g' => m fl s b p' g' k)
  | Or a b =>
      match m fl s a p g k with
      | Some x => Some x
      | None => m fl s b p g k
      end
  | Rep lazy lo hi a =>
      rep (m fl s a) lazy lo hi (S (length s - p)) 0 p g k
  | Grp i a => m fl s a p g (fun p' g' => k p' (gset i (p, p') g'))
  | Back i =>
      match gget i g with
      | Some (b, e) =>
          if str_eqb (substr p (p + (e - b)) s) (substr b e s)
             && Nat.leb (p + (e - b)) (length s)
          then k (p + (e - b)) g else None
      | None => None
      end
  | Ahead neg a =>
      match m fl s a p g (fun p' g' => Some (p', g')) with
      | Some (_, g') => if neg then None else k p g'
      | None => if neg then k p g else None
      end
  | Bol => if at_bol fl s p then k p g else None
  | Eol => if at_eol fl s p then k p g else None
  | Wordb => if at_wordb s p then k p g else None
  end.

(** A match object: the subject string, the span of the whole match and the
    groups. *)
Record capture := { c_subject : str; c_start : nat; c_end : nat; c_groups : groups }.

(** [capture[0]] *)
Definition whole (c : capture) : str := substr (c_start c) (c_end c) (c_subject c).

(** [capture[i]] for a group: [None] when the group took no part. *)
Definition group (c : capture) (i : nat) : option str :=
  match gget i (c_groups c) with
  | Some (b, e) => Some (substr b e (c_subject c))
  | None => None
  end.

Definition match_at (fl : flags) (r : regex) (s : str) (p : nat) : option capture :=
  match m fl s r p [] (fun p' g' => Some (p', g')) with
  | Some (e, g) => Some {| c_subject := s; c_start := p; c_end := e; c_groups := g |}
  | None => None
  end.

(** [re.match(r, s)]: a match starting at index 0. *)
Definition re_match (fl : flags) (r : regex) (s : str) : option capture :=
  match_at fl r s 0.

(** The leftmost match starting at [p], [p+1], ..., [p+n]. *)
Fixpoint search_from (fl : flags) (r : regex) (s : str) (n p : nat) : option capture :=
  match match_at fl r s p with
  | Some c => Some c
  | None => match n with
            | 0 => None
            | S n' => search_from fl r s n' (S p)
            end
  end.

(** [re.search(r, s)] *)
Definition re_search (fl : flags) (r : regex) (s : str) : option capture :=
  search_from fl r s (length s) 0.

(** [re.finditer(r, s)]: successive non-overlapping matches; after an empty
    match the scan moves one character on. *)
Fixpoint finditer_from (fl : flags) (r : regex) (s : str) (fuel p : nat) : list capture :=
  match fuel with
  | 0 => []
  | S fuel' =>
      match search_from fl r s (length s - p) p with
      | Some c =>
          c :: (if Nat.ltb (c_start c) (c_end c)
                then finditer_from fl r s fuel' (c_end c)
                else if Nat.ltb (c_end c) (length s)
                     then finditer_from fl r s fuel' (S (c_end c))
                     else [])
      | None => []
      end
  end.

Definition re_finditer (fl : flags) (r : regex) (s : str) : list capture :=
  finditer_from fl r s (S (length s)) 0.

(** [re.sub(r, repl, s, count)]: [repl] is computed from the match;
    [count = 0] replaces every match. *)
Fixpoint sub_from (fl : flags) (r : regex) (repl : capture -> str) (s : str)
    (count : nat) (fuel p done : nat) : str :=
  match fuel with
  | 0 => drop p s
  | S fuel' =>
      if (negb (Nat.eqb count 0) && Nat.leb count done)%bool then drop p s
      else
        match search_from fl r s (length s - p) p with
        | Some c =>
            substr p (c_start c) s ++ repl c ++
            (if Nat.ltb (c_start c) (c_end c)
             then sub_from fl r repl s count fuel' (c_end c) (S done)
             else if Nat.ltb (c_end c) (length s)
                  then substr (c_end c) (S (c_end c)) s ++
                       sub_from fl r repl s count fuel' (S (c_end c)) (S done)
                  else [])
        | None => drop p s
        end
  end.

Definition re_sub (fl : flags) (r : regex) (repl : capture -> str) (s : str)
    (count : nat) : str :=
  sub_from fl r repl s count (S (length s)) 0 0.

(** ** Regex building blocks *)

Definition star (a : regex) : regex := Rep false 0 None a.
Definition plus (a : regex) : regex := Rep false 1 None a.
Definition opt (a : regex) : regex := Rep false 0 (Some 1) a.
Definition star_lazy (a : regex) : regex := Rep true 0 None a.
Definition plus_lazy (a : regex) : regex := Rep true 1 None a.
Definition at_least (n : nat) (a : regex) : regex := Rep false n None a.

Fixpoint cats (rs : list regex) : regex :=
  match rs with
  | [] => Emp
  | [r] => r
  | r :: rs' => Cat r (cats rs')
  end.

Fixpoint ors (rs : list regex) : regex :=
  match rs with
  | [] => Emp
  | [r] => r
  | r :: rs' => Or r (ors rs')
  end.

Definition lits (x : string) : regex := cats (map Lit (str_of_string x)).

Definition NL : regex := Lit ch_nl.
Definition SP : regex := Lit ch_sp.
Definition not_nl : regex := Cls true [CChar ch_nl].
Definition any_char : regex := Cls false [CSpace; CNotSpace].
Definition space_cls : regex := Cls false [CSpace].
Definition nonspace_cls : regex := Cls true [CSpace].
Definition one_of (x : string) : regex := Cls false (map CChar (str_of_string x)).
Definition none_of (x : string) : regex := Cls true (map CChar (str_of_string x)).

(** ** Preprocessing *)

(** [CR_NEWLINE_R = \r\n?], [TAB_R = \t], [FORMFEED_R = \f] *)
Definition CR_NEWLINE_R : regex := Cat (Lit ch_cr) (opt NL).
Definition TAB_R : regex := Lit ch_tab.
Definition FORMFEED_R : regex := Lit ch_ff.

Definition preprocess (source : str) : str :=
  re_sub no_flags TAB_R (fun _ => [ch_nl])
    (re_sub no_flags FORMFEED_R (fun _ => [])
       (re_sub no_flags CR_NEWLINE_R (fun _ => str_of_string "    ") source 0) 0) 0.


(** ** The regular expressions of the rule table *)

Definition blank_lines : regex := Cat (plus (Cat NL (star SP))) NL.

(** The pattern of [Heading.match]. *)
Definition HEADING_R : regex :=
  cats [Bol; star SP; Grp 1 (Rep false 1 (Some 6) (Lit "#")); Grp 2 (plus_lazy not_nl);
        star (Lit "#"); star SP; blank_lines].

(** The pattern of [NPTABLE_REGEX in TABLES]. *)
Definition NPTABLE_REGEX : regex :=
  cats [Bol; star SP; Grp 1 (cats [nonspace_cls; star Any; Lit "|"; star Any]); NL;
        star SP; Grp 2 (cats [plus (one_of "-:"); star SP; Lit "|"; star (one_of "-| :")]); NL;
        Grp 3 (star (cats [star Any; Lit "|"; star Any; Or NL Eol])); star NL].

(** The pattern of [TABLE_REGEX in TABLES]. *)
Definition TABLE_REGEX : regex :=
  cats [Bol; star SP; Grp 1 (Cat (Lit "|") (plus Any)); NL;
        star SP; Lit "|"; Grp 2 (cats [star SP; plus (one_of "-:"); star (one_of "-| :")]); NL;
        Grp 3 (star (cats [star SP; Lit "|"; star Any; Or NL Eol])); star NL].

(** The pattern of [LHeading.match]. *)
Definition LHEADING_R : regex :=
  cats [Bol; Grp 1 (plus not_nl); NL; star SP;
        at_least 3 (Grp 2 (Or (Lit "=") (Lit "-"))); star SP; blank_lines].

(** The pattern of [HR.match]. *)
Definition HR_R : regex :=
  cats [Bol; at_least 3 (Grp 1 (Cat (star SP) (one_of "-*_"))); star SP; blank_lines].

(** The pattern of [CodeBlock.match]. *)
Definition CODEBLOCK_R : regex :=
  cats [Bol; plus (cats [lits "    "; plus not_nl; star NL]); blank_lines].

(** The pattern of [Fence.match]. *)
Definition FENCE_R : regex :=
  cats [Bol; star SP; Grp 1 (Or (at_least 3 (Lit "`")) (at_least 3 (Lit "~"))); star SP;
        opt (Cat (Grp 2 (plus nonspace_cls)) (star SP)); NL;
        Grp 3 (plus_lazy any_char); opt NL; Back 1; star SP; blank_lines].

(** The pattern of [BlockQuote.match]. *)
Definition BLOCKQUOTE_R : regex :=
  cats [Bol;
        plus (Grp 1 (cats [star SP; Lit ">"; plus not_nl;
                           star (Grp 2 (Cat NL (plus not_nl))); star NL]));
        at_least 2 NL].

(** [^ *> ?] *)
Definition BLOCKQUOTE_MARK_R : regex := cats [Bol; star SP; Lit ">"; opt SP].

(** [LIST_BULLET = (?:[*+-]|\d+\.)] *)
Definition LIST_BULLET : regex :=
  Or (one_of "*+-") (Cat (plus (Cls false [CDigit])) (Lit ".")).

(** The pattern [LIST_ITEM_PREFIX] of the source. *)
Definition LIST_ITEM_PREFIX : regex :=
  cats [Grp 1 (star SP); Grp 2 LIST_BULLET; plus SP].

Definition LIST_ITEM_PREFIX_R : regex := Cat Bol LIST_ITEM_PREFIX.

(** The pattern [LIST_ITEM_R] of the source. *)
Definition LIST_ITEM_R : regex :=
  cats [LIST_ITEM_PREFIX; star not_nl;
        star (cats [NL; Ahead true (cats [Back 1; LIST_BULLET; SP]); star not_nl]);
        Grp 3 (Or NL Eol)].

(** [\n{2,}$] *)
Definition BLOCK_END_R : regex := Cat (at_least 2 NL) Eol.
Definition LIST_BLOCK_END_R : regex := BLOCK_END_R.

(** The pattern [INLINE_CODE_ESCAPE_BACKTICKS_R] of the source. *)
Definition INLINE_CODE_ESCAPE_BACKTICKS_R : regex :=
  Or (cats [Bol; SP; Ahead false (Cat (star SP) (Lit "`"))])
     (cats [Grp 1 (Cat (Lit "`") (star SP)); SP; Eol]).

(** [ *\n+$] *)
Definition LIST_ITEM_END_R : regex := cats [star SP; plus NL; Eol].

(** The pattern [LIST_R] of the source. *)
Definition LIST_R : regex :=
  cats [Bol; Grp 1 (star SP); Grp 2 LIST_BULLET; SP; plus_lazy any_char;
        Or (cats [at_least 2 NL; Ahead true SP;
                  Ahead true (cats [Back 1; LIST_BULLET; SP]); star NL])
           (cats [star space_cls; star NL; Eol])].

(** The pattern [LIST_LOOKBEHIND_R] of the source. *)
Definition LIST_LOOKBEHIND_R : regex := cats [Or Bol NL; Grp 1 (star SP); Eol].

(** [^ {1,space}]: built at run time in [List.parse] *)
Definition space_regex (space : nat) : regex := Cat Bol (Rep false 1 (Some space) SP).

(** [[^\d]+?] *)
Definition NON_DIGITS_R : regex := plus_lazy (Cls true [CDigit]).

(** The pattern of [Def.match]. *)
Definition DEF_R : regex :=
  cats [Bol; star SP; Lit "["; Grp 1 (plus (none_of "]")); Lit "]"; Lit ":"; star SP;
        opt (Lit "<"); Grp 2 (star (Cls true [CSpace; CChar ">"])); opt (Lit ">");
        opt (cats [plus SP; Cls false [CChar ch_dq; CChar "("]; Grp 3 (plus not_nl);
                   Cls false [CChar ch_dq; CChar ")"]]);
        star SP; NL; star (Cat (star SP) NL)].

(** The pattern of [NewLine.match]. *)
Definition NEWLINE_R : regex := cats [Bol; star (Cat NL (star SP)); NL].

(** The pattern of [Paragraph.match]. *)
Definition PARAGRAPH_R : regex :=
  cats [Bol; Grp 1 (plus (Or not_nl (Cat NL (Ahead true (Cat (star SP) NL)))));
        blank_lines].

Definition alnum_space : list citem :=
  [CRange "0" "9"; CRange "A" "Z"; CRange "a" "z"; CSpace].

(** [^\\([^0-9A-Za-z\s])] *)
Definition ESCAPE_R : regex := cats [Bol; Lit "\"; Grp 1 (Cls true alnum_space)].

(** [\\([^0-9A-Za-z\s])] *)
Definition UNESCAPE_URL_R : regex := Cat (Lit "\") (Grp 1 (Cls true alnum_space)).

(** [^ *\| *] *)
Definition TABLE_SEPARATOR_R : regex := cats [Bol; star SP; Lit "|"; star SP].

(** [^<([^: >]+:\/[^ >]+)>] *)
Definition AUTOLINK_R : regex :=
  cats [Bol; Lit "<";
        Grp 1 (cats [plus (none_of ": >"); Lit ":"; Lit "/"; plus (none_of " >")]);
        Lit ">"].

(** [^<([^ >]+@[^ >]+)>] *)
Definition MAILTO_R : regex :=
  cats [Bol; Lit "<"; Grp 1 (cats [plus (none_of " >"); Lit "@"; plus (none_of " >")]);
        Lit ">"].

(** [mailto:], ignoring case *)
Definition AUTOLINK_MAILTO_CHECK_R : regex := lits "mailto:".

(** The pattern of [URL.match]. *)
Definition URL_R : regex :=
  cats [Bol;
        Grp 1 (cats [lits "http"; opt (Lit "s"); lits "://";
                     plus (Cls true [CSpace; CChar "<"]);
                     Cls true [CChar "<"; CChar "."; CChar ","; CChar ":"; CChar ";";
                               CChar ch_dq; CChar "'"; CChar ")"; CChar "]"; CSpace]])].

(** [LINK_INSIDE = (?:\[[^\]]*\]|[^\[\]]|\](?=[^\[]*\]))*] *)
Definition LINK_INSIDE : regex :=
  star (ors [cats [Lit "["; star (none_of "]"); Lit "]"];
             none_of "[]";
             Cat (Lit "]") (Ahead false (Cat (star (none_of "[")) (Lit "]")))]).

Definition quote_cls : regex := Cls false [CChar "'"; CChar ch_dq].

(** The pattern [LINK_HREF_AND_TITLE] of the source. *)
Definition LINK_HREF_AND_TITLE : regex :=
  cats [star space_cls; opt (Lit "<");
        Grp 2 (star_lazy (ors [cats [Lit "("; star (none_of ")"); Lit ")"];
                               Cls true [CSpace; CChar "\"];
                               Cat (Lit "\") Any]));
        opt (Lit ">");
        opt (cats [plus space_cls; quote_cls; Grp 3 (star_lazy any_char); quote_cls]);
        star space_cls].

(** [^\[(LINK_INSIDE)\]\(LINK_HREF_AND_TITLE\)] *)
Definition LINK_R : regex :=
  cats [Bol; Lit "["; Grp 1 LINK_INSIDE; Lit "]"; Lit "("; LINK_HREF_AND_TITLE; Lit ")"].

(** [^!\[(LINK_INSIDE)\]\(LINK_HREF_AND_TITLE\)] *)
Definition IMAGE_R : regex :=
  cats [Bol; Lit "!"; Lit "["; Grp 1 LINK_INSIDE; Lit "]"; Lit "("; LINK_HREF_AND_TITLE;
        Lit ")"].

(** The pattern of [RefLink.match]. *)
Definition REFLINK_R : regex :=
  cats [Bol; Lit "["; Grp 1 LINK_INSIDE; Lit "]"; star space_cls;
        Lit "["; Grp 2 (star (none_of "]")); Lit "]"].

(** The pattern of [RefImage.match]. *)
Definition REFIMAGE_R : regex :=
  cats [Bol; Lit "!"; Lit "["; Grp 1 LINK_INSIDE; Lit "]"; star space_cls;
        Lit "["; Grp 2 (star (none_of "]")); Lit "]"].

Definition escaped : regex := Cat (Lit "\") any_char.

(** The pattern of [Em.match]. *)
Definition EM_R : regex :=
  Or (cats [Bol; Wordb; Lit "_";
            Grp 1 (plus_lazy (ors [lits "__"; escaped; none_of "\_"]));
            Lit "_"; Wordb])
     (cats [Bol; Lit "*"; Ahead false nonspace_cls;
            Grp 2 (plus_lazy
                     (ors [lits "**"; escaped;
                           Cat (plus space_cls)
                               (ors [escaped; Cls true [CSpace; CChar "*"; CChar "\"];
                                     lits "**"]);
                           Cls true [CSpace; CChar "*"; CChar "\"]]));
            Lit "*"; Ahead true (Lit "*")]).

(** The pattern of [Strong.match]. *)
Definition STRONG_R : regex :=
  cats [Bol; lits "**"; Grp 1 (plus_lazy (Or escaped (none_of "\"))); lits "**";
        Ahead true (Lit "*")].

(** [^__((?:\\[\s\S]|[^\\])+?)__(?!_)] *)
Definition U_R : regex :=
  cats [Bol; lits "__"; Grp 1 (plus_lazy (Or escaped (none_of "\"))); lits "__";
        Ahead true (Lit "_")].

(** [^~~(?=\S)((?:\\[\s\S]|~(?!~)|[^\s~]|\s(?!~~))+?)~~] *)
Definition DEL_R : regex :=
  cats [Bol; lits "~~"; Ahead false nonspace_cls;
        Grp 1 (plus_lazy (ors [escaped; Cat (Lit "~") (Ahead true (Lit "~"));
                               Cls true [CSpace; CChar "~"];
                               Cat space_cls (Ahead true (lits "~~"))]));
        lits "~~"].

(** [^(`+)([\s\S]*?[^`])\1(?!`)] *)
Definition INLINECODE_R : regex :=
  cats [Bol; Grp 1 (plus (Lit "`")); Grp 2 (Cat (star_lazy any_char) (none_of "`"));
        Back 1; Ahead true (Lit "`")].

(** [^ {2,}\n] *)
Definition BR_R : regex := cats [Bol; at_least 2 SP; NL].

(** [^[\s\S]+?(?=[^0-9A-Za-z\sÀ-￿]|\n\n| {2,}\n|\w+:\S|$)] *)
Definition TEXT_R : regex :=
  cats [Bol; plus_lazy any_char;
        Ahead false
          (ors [Cls true (alnum_space ++ [CRange (ascii_of_nat 192) (ascii_of_nat 255)]);
                Cat NL NL;
                Cat (at_least 2 SP) NL;
                cats [plus (Cls false [CWord]); Lit ":"; nonspace_cls];
                Eol])].

(** Table helpers: [^ *\| *| *\| *$], [ *$], [^ *-+: *$], [^ *:-+: *$],
    [^ *:-+ *$] *)
Definition TABLE_ROW_SEPARATOR_TRIM : regex :=
  Or (cats [Bol; star SP; Lit "|"; star SP]) (cats [star SP; Lit "|"; star SP; Eol]).
Definition TABLE_CELL_END_TRIM : regex := Cat (star SP) Eol.
Definition TABLE_RIGHT_ALIGN : regex :=
  cats [Bol; star SP; plus (Lit "-"); Lit ":"; star SP; Eol].
Definition TABLE_CENTER_ALIGN : regex :=
  cats [Bol; star SP; Lit ":"; plus (Lit "-"); Lit ":"; star SP; Eol].
Definition TABLE_LEFT_ALIGN : regex :=
  cats [Bol; star SP; Lit ":"; plus (Lit "-"); star SP; Eol].

(** The pattern [SPACES_R] of the source. *)
Definition SPACES_R : regex := plus space_cls.
Definition TRAILING_NL_R : regex := Cat (plus NL) Eol.
Definition INDENT_R : regex := Cat Bol (lits "    ").
Definition SANITIZE_TEXT_R : regex :=
  Cls false [CChar "<"; CChar ">"; CChar "&"; CChar ch_dq; CChar "'"].

(** ** Syntax tree *)

(** The fields of a node, by the shape of the dictionary the rule builds.
    A reference link or image is a node that [Def.parse] may still update
    after it was placed in the tree: its [target] and [title] live in the
    heap cell [loc] of the parse state, the node holds the address. *)
Inductive payload (N : Type) : Type :=
| PEmpty
| PContent (content : list N)
| PText (content : str)
| PHeading (level : nat) (content : list N)
| PCode (lang : option str) (content : str)
| PList (ordered : bool) (start : option Z) (items : list (list N))
| PDef (def : str) (target : str) (title : option str)
| PTable (header : list (list N)) (align : list (option string))
         (cells : list (list (list N)))
| PLink (content : list N) (target : str) (title : option (option str))
| PImage (alt : str) (target : str) (title : option str)
| PRefLink (loc : nat) (content : list N)
| PRefImage (loc : nat) (alt : str).

Arguments PEmpty {N}.
Arguments PContent {N} content.
Arguments PText {N} content.
Arguments PHeading {N} level content.
Arguments PCode {N} lang content.
Arguments PList {N} ordered start items.
Arguments PDef {N} def target title.
Arguments PTable {N} header align cells.
Arguments PLink {N} content target title.
Arguments PImage {N} alt target title.
Arguments PRefLink {N} loc content.
Arguments PRefImage {N} loc alt.

#[warnings="-register-all"]
Inductive node : Type :=
| Node (type : string) (fields : payload node).

Definition node_type (n : node) : string := match n with Node t _ => t end.
Definition node_fields (n : node) : payload node := match n with Node _ f => f end.

(** What [rule.parse] returns: a dictionary that may lack the [type] key. *)
Record rdict := { d_type : option string; d_fields : payload node }.

Definition untyped (f : payload node) : rdict := {| d_type := None; d_fields := f |}.
Definition typed (t : string) (f : payload node) : rdict :=
  {| d_type := Some t; d_fields := f |}.

(** ** Parse state *)

(** The state dictionary.  The flags are kept by truthiness, a missing
    [_defs] or [_refs] is the empty map.  [heap] holds the [target] and
    [title] of the reference nodes made so far ([None]: keys not set). *)
Record state := {
  inline : bool;
  _list : bool;
  in_table : bool;
  previous_capture : option capture;
  _defs : gmap str (str * option str);
  _refs : gmap str (list nat);
  heap : list (option (str * option str));
  disable_auto_block_newlines : bool
}.

Definition empty_state : state :=
  {| inline := false; _list := false; in_table := false; previous_capture := None;
     _defs := ∅; _refs := ∅; heap := []; disable_auto_block_newlines := false |}.

Definition set_inline (b : bool) (st : state) : state :=
  {| inline := b; _list := _list st; in_table := in_table st;
     previous_capture := previous_capture st; _defs := _defs st; _refs := _refs st;
     heap := heap st; disable_auto_block_newlines := disable_auto_block_newlines st |}.

Definition set_list (b : bool) (st : state) : state :=
  {| inline := inline st; _list := b; in_table := in_table st;
     previous_capture := previous_capture st; _defs := _defs st; _refs := _refs st;
     heap := heap st; disable_auto_block_newlines := disable_auto_block_newlines st |}.

Definition set_in_table (b : bool) (st : state) : state :=
  {| inline := inline st; _list := _list st; in_table := b;
     previous_capture := previous_capture st; _defs := _defs st; _refs := _refs st;
     heap := heap st; disable_auto_block_newlines := disable_auto_block_newlines st |}.

Definition set_previous_capture (c : option capture) (st : state) : state :=
  {| inline := inline st; _list := _list st; in_table := in_table st;
     previous_capture := c; _defs := _defs st; _refs := _refs st;
     heap := heap st; disable_auto_block_newlines := disable_auto_block_newlines st |}.

Definition set_defs (d : gmap str (str * option str)) (st : state) : state :=
  {| inline := inline st; _list := _list st; in_table := in_table st;
     previous_capture := previous_capture st; _defs := d; _refs := _refs st;
     heap := heap st; disable_auto_block_newlines := disable_auto_block_newlines st |}.

Definition set_refs (r : gmap str (list nat)) (st : state) : state :=
  {| inline := inline st; _list := _list st; in_table := in_table st;
     previous_capture := previous_capture st; _defs := _defs st; _refs := r;
     heap := heap st; disable_auto_block_newlines := disable_auto_block_newlines st |}.

Definition set_heap (h : list (option (str * option str))) (st : state) : state :=
  {| inline := inline st; _list := _list st; in_table := in_table st;
     previous_capture := previous_capture st; _defs := _defs st; _refs := _refs st;
     heap := h; disable_auto_block_newlines := disable_auto_block_newlines st |}.

(** [state['previous_capture'][0]], or the empty string *)
Definition previous_capture_string (st : state) : str :=
  match previous_capture st with
  | Some c => whole c
  | None => []
  end.

(** ** Computations over the state *)

Inductive outcome (A : Type) : Type :=
| Ok (a : A) (st : state)
| Raise (msg : string)
| Timeout.

Arguments Ok {A} a st.
Arguments Raise {A} msg.
Arguments Timeout {A}.

Definition M (A : Type) : Type := state -> outcome A.

Definition ret {A} (a : A) : M A := fun st => Ok a st.

Definition bind {A B} (c : M A) (f : A -> M B) : M B :=
  fun st =>
    match c st with
    | Ok a st' => f a st'
    | Raise e => Raise e
    | Timeout => Timeout
    end.

Definition raise {A} (msg : string) : M A := fun _ => Raise msg.
Definition get_state : M state := fun st => Ok st st.
Definition update (f : state -> state) : M unit := fun st => Ok tt (f st).

Notation "x <- c ;; k" := (bind c (fun x => k))
  (at level 100, c at next level, right associativity).
Notation "c ;;; k" := (bind c (fun _ => k))
  (at level 100, k at level 100, right associativity).

(** A group used as a string.  Python's [capture[i]] is [None] for a group
    that took no part and the error only comes at the use; every use below
    needs a string. *)
Definition group_str (c : capture) (i : nat) : M str :=
  match group c i with
  | Some s => ret s
  | None => raise "TypeError: group did not participate"
  end.

Fixpoint mapM {A B} (f : A -> M B) (l : list A) : M (list B) :=
  match l with
  | [] => ret []
  | x :: l' => y <- f x ;; ys <- mapM f l' ;; ret (y :: ys)
  end.

(** ** Rules *)

(** A rule's [order]: a number, or something that is not one. *)
Inductive order_t : Type :=
| OrdNum (z : Z)
| OrdStr (s : string)
| OrdNone.

Definition parse_fn := option str -> M (list node).

(** What the output engine renders: a node or a list of siblings. *)
Inductive ast : Type :=
| ANode (n : node)
| AList (l : list node).

(** The result of rendering to HTML. *)
Inductive hres : Type :=
| HOk (html : str)
| HErr (msg : string)
| HTimeout.

Definition hbind (c : hres) (f : str -> hres) : hres :=
  match c with
  | HOk s => f s
  | HErr e => HErr e
  | HTimeout => HTimeout
  end.

Definition cell := option (str * option str).

(** A rule: [order], [match] and [quality] when the object has them,
    [parse], and the [html] renderer, which reads the reference nodes
    through the heap. *)
Record rule := {
  r_order : order_t;
  r_match : option (str -> state -> str -> option capture);
  r_quality : option (capture -> state -> str -> Q);
  r_parse : capture -> parse_fn -> M rdict;
  r_html : list cell -> node -> (ast -> hres) -> hres
}.

Definition rules_t := list (string * rule).

Fixpoint rules_get (rules : rules_t) (name : string) : option rule :=
  match rules with
  | [] => None
  | (n, r) :: rules' => if String.eqb n name then Some r else rules_get rules' name
  end.

Definition rules_keys (rules : rules_t) : list string := map fst rules.

(** ** The parse engine, [parser_for] *)

Definition is_number (o : order_t) : bool :=
  match o with OrdNum _ => true | _ => false end.

Definition show_order (o : order_t) : string :=
  match o with
  | OrdNum z => pretty.pretty z
  | OrdStr s => s
  | OrdNone => "None"
  end.

(** [filter_rules]: the verdict, and what it prints. *)
Definition filter_rules (rules : rules_t) (rule_type : string) : bool * list string :=
  match rules_get rules rule_type with
  | None => (false, [])
  | Some rule =>
      match r_match rule with
      | None => (false, [])
      | Some _ =>
          (true,
           if is_number (r_order rule) then []
           else [("Invalid order for rule `" ++ rule_type ++ "`: "
                  ++ show_order (r_order rule))%string])
      end
  end.

(** [list(filter(filter_rules, rules.keys()))], with the lines printed. *)
Fixpoint filter_keys (rules : rules_t) (keys : list string) : list string * list string :=
  match keys with
  | [] => ([], [])
  | k :: keys' =>
      let '(keep, out) := filter_rules rules k in
      let '(rest, outs) := filter_keys rules keys' in
      (if keep then k :: rest else rest, out ++ outs)
  end.

Definition order_eqb (a b : order_t) : bool :=
  match a, b with
  | OrdNum x, OrdNum y => Z.eqb x y
  | OrdStr x, OrdStr y => String.eqb x y
  | OrdNone, OrdNone => true
  | _, _ => false
  end.

Definition has_quality (r : rule) : bool :=
  match r_quality r with Some _ => true | None => false end.

(** [sort_rules]: the comparison; subtracting orders that are not numbers is
    a [TypeError]. *)
Definition sort_rules (rules : rules_t) (a b : string) : option Z :=
  match rules_get rules a, rules_get rules b with
  | Some rule_a, Some rule_b =>
      if negb (order_eqb (r_order rule_a) (r_order rule_b)) then
        match r_order rule_a, r_order rule_b with
        | OrdNum x, OrdNum y => Some (x - y)%Z
        | _, _ => None
        end
      else
        let secondary_order_a := if has_quality rule_a then 0%Z else 1%Z in
        let secondary_order_b := if has_quality rule_b then 0%Z else 1%Z in
        if negb (Z.eqb secondary_order_a secondary_order_b)
        then Some (secondary_order_a - secondary_order_b)%Z
        else if String.ltb a b then Some (-1)%Z
        else if String.ltb b a then Some 1%Z
        else Some 0%Z
  | _, _ => None
  end.

(** [rule_list.sort(key=cmp_to_key(sort_rules))]: a stable sort, written as
    insertion of each key behind the keys that do not come after it. *)
Fixpoint insert_sorted (cmp : string -> string -> option Z) (x : string)
    (l : list string) : option (list string) :=
  match l with
  | [] => Some [x]
  | y :: l' =>
      match cmp y x with
      | None => None
      | Some c =>
          if (0 <? c)%Z then Some (x :: l)
          else match insert_sorted cmp x l' with
               | Some r => Some (y :: r)
               | None => None
               end
      end
  end.

Definition sort_keys (cmp : string -> string -> option Z) (l : list string)
  : option (list string) :=
  fold_left (fun acc x => match acc with
                          | Some sorted => insert_sorted cmp x sorted
                          | None => None
                          end) l (Some []).

(** The rule list of [parser_for(rules)]: [None] when sorting raises. *)
Definition rule_list_of (rules : rules_t) : option (list string) :=
  sort_keys (sort_rules rules) (fst (filter_keys rules (rules_keys rules))).

Definition selection := (string * rule * capture)%type.

Definition rule_match (r : rule) (source : str) (st : state) (prev : str)
  : option capture :=
  match r_match r with
  | Some f => f source st prev
  | None => None
  end.

(** The inner loop of [nested_parse]: [rl] starts at the current rule;
    [first] is the test [not i]; [cur] is the global [current_order], which
    the loop assigns before it ever reads it. *)
Fixpoint scan (rules : rules_t) (source : str) (st : state) (rl : list string)
    (first : bool) (best : option selection) (quality : Q) (cur : order_t)
  : option selection :=
  match rl with
  | [] => best
  | current_rule_type :: rl' =>
      match rules_get rules current_rule_type with
      | None => best
      | Some current_rule =>
          if (first
              || match best with None => true | Some _ => false end
              || (order_eqb (r_order current_rule) cur && has_quality current_rule))%bool
          then
            let previous_capture_string := previous_capture_string st in
            match rule_match current_rule source st previous_capture_string with
            | Some current_capture =>
                let current_quality :=
                  match r_quality current_rule with
                  | Some q => q current_capture st previous_capture_string
                  | None => 0%Q
                  end in
                if negb (Qle_bool current_quality quality)
                then scan rules source st rl' false
                       (Some (current_rule_type, current_rule, current_capture))
                       current_quality (r_order current_rule)
                else scan rules source st rl' false best quality (r_order current_rule)
            | None => scan rules source st rl' false best quality (r_order current_rule)
            end
          else best
      end
  end.

Definition select (rules : rules_t) (rule_list : list string) (source : str) (st : state)
  : option selection :=
  scan rules source st rule_list true None (-1)%Q OrdNone.

(** [nested_parse]: one unit of [fuel] per loop iteration and per level of
    nesting.  A falsy source ([None] or the empty string) ends the loop.
    The depth of the recursion is not bounded here; the interpreter bounds
    it and raises [RecursionError] on a source that nests some hundred
    levels, where this function goes on to a tree. *)
Fixpoint nested_parse (rules : rules_t) (rule_list : list string) (fuel : nat)
    (source : option str) : M (list node) :=
  match source with
  | None | Some [] => ret []
  | Some src =>
      match fuel with
      | 0 => fun _ => Timeout
      | S fuel' =>
          st <- get_state ;;
          match rule_list with
          | [] => raise "IndexError: list index out of range"
          | _ :: _ =>
              match select rules rule_list src st with
              | None => raise "Could not find a matching rule for the below content."
              | Some (rule_type, rule, capture) =>
                  parsed <- r_parse rule capture (nested_parse rules rule_list fuel') ;;
                  update (set_previous_capture (Some capture)) ;;;
                  rest <- nested_parse rules rule_list fuel'
                            (Some (drop (length (whole capture)) src)) ;;
                  ret (Node (match d_type parsed with Some t => t | None => rule_type end)
                            (d_fields parsed) :: rest)
              end
          end
      end
  end.

(** [outer_parse], for an empty [default_state]. *)
Definition outer_parse (rules : rules_t) (rule_list : list string) (fuel : nat)
    (source : str) : M (list node) :=
  st <- get_state ;;
  let source :=
    if (negb (inline st) && negb (disable_auto_block_newlines st))%bool
    then source ++ [ch_nl; ch_nl] else source in
  update (set_previous_capture None) ;;;
  nested_parse rules rule_list fuel (Some (preprocess source)).

(** ** Helpers of the rule table *)

Definition inline_regex (regex : regex) (source : str) (st : state) (prev : str)
  : option capture :=
  if inline st then re_match no_flags regex source else None.

Definition block_regex (regex : regex) (source : str) (st : state) (prev : str)
  : option capture :=
  if inline st then None else re_match no_flags regex source.

Definition any_scope_regex (regex : regex) (source : str) (st : state) (prev : str)
  : option capture :=
  re_match no_flags regex source.

Definition sanitize_code (c : ascii) : str :=
  if ascii_eqb c "<" then str_of_string "&lt;"
  else if ascii_eqb c ">" then str_of_string "&gt;"
  else if ascii_eqb c "&" then str_of_string "&amp;"
  else if ascii_eqb c ch_dq then str_of_string "&quot;"
  else if ascii_eqb c "'" then str_of_string "&#x27;"
  else if ascii_eqb c "/" then str_of_string "&#x2F;"
  else if ascii_eqb c "`" then str_of_string "&#96;"
  else [c].

(** [SANITIZE_TEXT_R.sub(lambda m: SANITIZE_TEXT_CODES[m.group()], str(text))] *)
Definition sanitize_text (text : str) : str :=
  re_sub no_flags SANITIZE_TEXT_R
    (fun c => match whole c with [x] => sanitize_code x | w => w end) text 0.

Definition unescape_url (raw_url_string : str) : str :=
  re_sub no_flags UNESCAPE_URL_R
    (fun c => match group c 1 with Some s => s | None => [] end) raw_url_string 0.

(** [urllib.parse.unquote]: every [%XX] whose two characters are hexadecimal
    digits becomes the byte they name.  Python then decodes the bytes as
    UTF-8; here a byte stands for itself, so a byte above 127 stands for
    the character outside ASCII it decodes to, and [sanitize_url] deletes
    the one like the other before it looks at the protocol. *)
Definition hex_value (c : ascii) : option N :=
  let n := code c in
  if between 48 57 n then Some (n - 48)%N
  else if between 65 70 n then Some (n - 55)%N
  else if between 97 102 n then Some (n - 87)%N
  else None.

Fixpoint unquote (s : str) : str :=
  match s with
  | [] => []
  | c :: t =>
      if ascii_eqb c "%"
      then match t with
           | a :: b :: s' =>
               match hex_value a, hex_value b with
               | Some x, Some y => ascii_of_N (16 * x + y) :: unquote s'
               | _, _ => c :: unquote t
               end
           | _ => c :: unquote t
           end
      else c :: unquote t
  end.

(** The pattern of the [re.sub] in [sanitize_url]: a character that is not
    a letter, a digit, a slash or a colon. *)
Definition PROTOCOL_STRIP_R : regex :=
  Cls true [CRange "A" "Z"; CRange "a" "z"; CRange "0" "9"; CChar "/"; CChar ":"].

(** [sanitize_url]: [None] for no URL, the empty URL, and the protocols
    [javascript:], [vbscript:] and [data:]. *)
Definition sanitize_url (url : option str) : option str :=
  match url with
  | None | Some [] => None
  | Some u =>
      let prot := lower (re_sub no_flags PROTOCOL_STRIP_R (fun _ => []) (unquote u) 0) in
      if (starts_with (str_of_string "javascript:") prot
          || starts_with (str_of_string "vbscript:") prot
          || starts_with (str_of_string "data:") prot)%bool
      then None
      else Some u
  end.

Definition parse_inline (parse : parse_fn) (content : option str) : M (list node) :=
  st <- get_state ;;
  let is_currently_inline := inline st in
  update (set_inline true) ;;;
  result <- parse content ;;
  update (set_inline is_currently_inline) ;;;
  ret result.

Definition parse_block (parse : parse_fn) (content : str) : M (list node) :=
  st <- get_state ;;
  let is_currently_inline := inline st in
  update (set_inline false) ;;;
  result <- parse (Some (content ++ [ch_nl; ch_nl])) ;;
  update (set_inline is_currently_inline) ;;;
  ret result.

Definition parse_capture_inline (capture : capture) (parse : parse_fn) : M rdict :=
  content <- parse_inline parse (group capture 1) ;;
  ret (untyped (PContent content)).

Definition ignore_capture : rdict := untyped PEmpty.

(** Python's [a or b] on optional strings *)
Definition py_or (a b : option str) : option str :=
  match a with
  | Some (_ :: _) => a
  | _ => b
  end.

(** ** Tables *)

Definition is_some {A} (o : option A) : bool :=
  match o with Some _ => true | None => false end.

Definition parse_table_align_capture (align_capture : str) : option string :=
  if is_some (re_match no_flags TABLE_RIGHT_ALIGN align_capture) then Some "right"%string
  else if is_some (re_match no_flags TABLE_CENTER_ALIGN align_capture) then Some "center"%string
  else if is_some (re_match no_flags TABLE_LEFT_ALIGN align_capture) then Some "left"%string
  else None.

Definition parse_table_align (source : str) (trim_end_separators : bool)
  : list (option string) :=
  let source :=
    if trim_end_separators
    then re_sub no_flags TABLE_ROW_SEPARATOR_TRIM (fun _ => []) source 0
    else source in
  map parse_table_align_capture (split_on "|" (strip source)).

(** [cells[len(cells) - 1].append(node)] *)
Fixpoint append_last (cells : list (list node)) (n : node) : list (list node) :=
  match cells with
  | [] => []
  | [c] => [c ++ [n]]
  | c :: cells' => c :: append_last cells' n
  end.

Definition is_type (t : string) (n : node) : bool := String.eqb (node_type n) t.

(** The loop of [parse_table_row] over [enumerate(table_row)], from [index]. *)
Fixpoint table_row_cells (trim_end_separators : bool) (table_row : list node)
    (index : nat) (rest : list node) (cells : list (list node)) : M (list (list node)) :=
  match rest with
  | [] => ret cells
  | node :: rest' =>
      if is_type "table_separator" node then
        if (negb trim_end_separators
            || (negb (Nat.eqb index 0) && negb (Nat.eqb index (length table_row - 1))))%bool
        then table_row_cells trim_end_separators table_row (S index) rest' (cells ++ [[]])
        else table_row_cells trim_end_separators table_row (S index) rest' cells
      else
        node' <-
          (if (Nat.ltb (index + 1) (length table_row)
               && (is_type "text" node
                   && match table_row !! (index + 1) with
                      | Some next => is_type "table_separator" next
                      | None => false
                      end))%bool
           then match node_fields node with
                | PText content =>
                    ret (Node (node_type node)
                           (PText (re_sub no_flags TABLE_CELL_END_TRIM (fun _ => []) content 1)))
                | _ => raise "TypeError: content is not a string"
                end
           else ret node) ;;
        table_row_cells trim_end_separators table_row (S index) rest' (append_last cells node')
  end.

Definition parse_table_row (source : str) (parse : parse_fn) (trim_end_separators : bool)
  : M (list (list node)) :=
  st <- get_state ;;
  let prev_in_table := in_table st in
  update (set_in_table true) ;;;
  table_row <- parse (Some (strip source)) ;;
  update (set_in_table prev_in_table) ;;;
  table_row_cells trim_end_separators table_row 0 table_row [[]].

Definition parse_table_cells (source : str) (parse : parse_fn) (trim_end_separators : bool)
  : M (list (list (list node))) :=
  let rows_text := split_on ch_nl (strip source) in
  mapM (fun row_text => parse_table_row row_text parse trim_end_separators) rows_text.

Definition parse_table (trim_end_separators : bool) (capture : capture) (parse : parse_fn)
  : M rdict :=
  update (set_inline true) ;;;
  c1 <- group_str capture 1 ;;
  header <- parse_table_row c1 parse trim_end_separators ;;
  c2 <- group_str capture 2 ;;
  let align := parse_table_align c2 trim_end_separators in
  c3 <- group_str capture 3 ;;
  cells <- parse_table_cells c3 parse trim_end_separators ;;
  update (set_inline false) ;;;
  ret (typed "table" (PTable header align cells)).

(** ** Reference links *)

Definition normalize_ref (name : str) : str :=
  lower (re_sub no_flags SPACES_R (fun _ => [ch_sp]) name 0).

(** What [parse_ref] does to the state: the new node is the heap cell
    [length (heap st)]; it takes the target and title of a definition that
    is already there and is appended to [_refs[ref]]. *)
Definition register_ref (ref : str) (st : state) : state :=
  set_refs (<[ref := default [] (_refs st !! ref) ++ [length (heap st)]]> (_refs st))
    (set_heap (heap st ++ [_defs st !! ref]) st).

(** [parse_ref]; [mk] builds the node around its address. *)
Definition parse_ref (capture : capture) (mk : nat -> rdict) : M rdict :=
  match py_or (group capture 2) (group capture 1) with
  | None => raise "TypeError: expected string"
  | Some name =>
      let ref := normalize_ref name in
      st <- get_state ;;
      let loc := length (heap st) in
      update (register_ref ref) ;;;
      ret (mk loc)
  end.

(** The loop of [Def.parse] over [state['_refs'][_def]]. *)
Definition patch_refs (locs : list nat) (target : str) (title : option str)
    (h : list cell) : list cell :=
  fold_left (fun h loc => <[loc := Some (target, title)]> h) locs h.

(** ** Lists *)

Fixpoint digits_value (s : str) (acc : Z) : option Z :=
  match s with
  | [] => Some acc
  | c :: s' =>
      if is_digit c
      then digits_value s' (10 * acc + Z.of_N (code c) - 48)%Z
      else None
  end.

(** The [ValueError] of [int] on more than [sys.get_int_max_str_digits()]
    digits; the limit is CPython's default. *)
Definition int_max_str_digits : nat := 4300.

Definition int_limit_error : string :=
  "ValueError: Exceeds the limit (4300 digits) for integer string conversion".

(** [int(s)] on a string of decimal digits; leading zeros count towards
    the limit. *)
Definition int_of (s : str) : M Z :=
  match s with
  | [] => raise "ValueError: invalid literal for int()"
  | _ => match digits_value s 0 with
         | Some z =>
             if Nat.ltb int_max_str_digits (length s) then raise int_limit_error
             else ret z
         | None => raise "ValueError: invalid literal for int()"
         end
  end.

(** [content_map] over [enumerate(items)], from index [i];
    [last_item_was_a_paragraph] is the variable it shares between calls. *)
Fixpoint list_items (parse : parse_fn) (n_items : nat) (i : nat) (items : list capture)
    (last_item_was_a_paragraph : bool) : M (list (list node)) :=
  match items with
  | [] => ret []
  | item_match :: items' =>
      let item := whole item_match in
      let prefix_capture := re_match no_flags LIST_ITEM_PREFIX_R item in
      let space := match prefix_capture with Some c => length (whole c) | None => 0 end in
      if Nat.eqb space 0 then raise "re.error: min repeat greater than max repeat"
      else
        let content :=
          re_sub no_flags LIST_ITEM_PREFIX_R (fun _ => [])
            (re_sub no_flags (space_regex space) (fun _ => []) item 8) 1 in
        let is_last_item := Nat.eqb i (n_items - 1) in
        let contains_blocks := contains [ch_nl; ch_nl] content in
        let this_item_is_a_paragraph :=
          (contains_blocks || (is_last_item && last_item_was_a_paragraph))%bool in
        st <- get_state ;;
        let old_state_inline := inline st in
        let old_state_list := _list st in
        update (set_list true) ;;;
        update (set_inline (negb this_item_is_a_paragraph)) ;;;
        let adjusted_content :=
          if this_item_is_a_paragraph
          then re_sub no_flags LIST_ITEM_END_R (fun _ => [ch_nl; ch_nl]) content 1
          else re_sub no_flags LIST_ITEM_END_R (fun _ => []) content 1 in
        result <- parse (Some adjusted_content) ;;
        update (set_inline old_state_inline) ;;;
        update (set_list old_state_list) ;;;
        rest <- list_items parse n_items (S i) items' this_item_is_a_paragraph ;;
        ret (result :: rest)
  end.

(** ** HTML output helpers *)

Definition show_Z (z : Z) : str := str_of_string (pretty.pretty z).
Definition show_nat (n : nat) : str := str_of_string (pretty.pretty n).

(** [html_tag]: an attribute whose value is falsy ([None], the empty string,
    the number 0) is left out; the values arrive here as strings. *)
Definition html_tag (tag_name : string) (content : str)
    (attributes : list (string * option str)) (is_closed : bool) : str :=
  let attribute_string :=
    flat_map (fun '(attr, v) =>
                match v with
                | Some (c :: v') =>
                    [ch_sp] ++ sanitize_text (str_of_string attr) ++ str_of_string "=" ++ [ch_dq]
                    ++ sanitize_text (c :: v') ++ [ch_dq]
                | _ => []
                end) attributes in
  let unclosed_tag := str_of_string "<" ++ str_of_string tag_name ++ attribute_string
                      ++ str_of_string ">" in
  if is_closed
  then unclosed_tag ++ content ++ str_of_string "</" ++ str_of_string tag_name
       ++ str_of_string ">"
  else unclosed_tag.

Definition key_error : hres := HErr "KeyError".

(** [Rule.html], the method of the rules that define no [html]: it
    returns [None].  [Array.html] is the caller of it that the default
    output has: it adds the result to a string, which raises [TypeError]
    on [None] before the next node is rendered.  The [TypeError] stands
    here for that; a caller that renders every node before it joins them
    ([html_for]) raises it after the exceptions of the later nodes, which
    a result of this type does not tell apart. *)
Definition base_html (h : list cell) (n : node) (output : ast -> hres) : hres :=
  HErr "TypeError: renderer returned None".

Fixpoint hconcat (l : list hres) : hres :=
  match l with
  | [] => HOk []
  | x :: l' => hbind x (fun s => hbind (hconcat l') (fun r => HOk (s ++ r)))
  end.

(** The inner loop of the [Array] joiners: while the next sibling is a text
    node, append its content and step on.  [None]: a sibling of type [text]
    without a string [content]. *)
Fixpoint merge_text (arr : list node) (i : nat) (content : str) (fuel : nat)
  : option (nat * str) :=
  match fuel with
  | 0 => Some (i, content)
  | S fuel' =>
      match arr !! (i + 1) with
      | Some next =>
          if is_type "text" next
          then match node_fields next with
               | PText c => merge_text arr (i + 1) (content ++ c) fuel'
               | _ => None
               end
          else Some (i, content)
      | None => Some (i, content)
      end
  end.

(** The first half of an iteration of the joiners: the node to render at
    index [i] and the index of the last sibling it covers. *)
Definition joined_node (arr : list node) (i : nat) (nd : node) : option (nat * node) :=
  if is_type "text" nd
  then match node_fields nd with
       | PText c =>
           match merge_text arr i c (length arr) with
           | Some (j, content) => Some (j, Node "text" (PText content))
           | None => None
           end
       | _ => None
       end
  else Some (i, nd).

(** The loop of [Array.html] from index [i]. *)
Fixpoint array_html_loop (output : ast -> hres) (arr : list node) (fuel i : nat)
    (result : str) : hres :=
  match fuel with
  | 0 => HTimeout
  | S fuel' =>
      match arr !! i with
      | None => HOk result
      | Some node =>
          match joined_node arr i node with
          | Some (i', node') =>
              hbind (output (ANode node'))
                (fun s => array_html_loop output arr fuel' (i' + 1) (result ++ s))
          | None => key_error
          end
      end
  end.

Definition Array_html (arr : list node) (output : ast -> hres) : hres :=
  array_html_loop output arr (S (length arr)) 0 [].

(** ** The rule classes *)

Definition mk_rule (m : str -> state -> str -> option capture)
    (p : capture -> parse_fn -> M rdict)
    (h : list cell -> node -> (ast -> hres) -> hres) (order : order_t) : rule :=
  {| r_order := order; r_match := Some m; r_quality := None; r_parse := p; r_html := h |}.

Definition mk_rule_q (m : str -> state -> str -> option capture)
    (q : capture -> state -> str -> Q)
    (p : capture -> parse_fn -> M rdict)
    (h : list cell -> node -> (ast -> hres) -> hres) (order : order_t) : rule :=
  {| r_order := order; r_match := Some m; r_quality := Some q; r_parse := p; r_html := h |}.

Definition base_match (source : str) (st : state) (prev : str) : option capture := None.
Definition base_parse (capture : capture) (parse : parse_fn) : M rdict :=
  raise "AttributeError: 'NoneType' object has no attribute 'get'".

(** Renders the [content] list of a node between the tags of [tag]. *)
Definition content_html (tag : string) (attributes : list (string * option str))
    (h : list cell) (n : node) (output : ast -> hres) : hres :=
  match node_fields n with
  | PContent content | PHeading _ content | PLink content _ _ | PRefLink _ content =>
      hbind (output (AList content)) (fun s => HOk (html_tag tag s attributes true))
  | _ => key_error
  end.

(** [Array.html] reached through the rule table, on a node of type
    [Array]: the node is a dictionary, and [arr[0]] on it is a [KeyError]. *)
Definition Array_node_html (h : list cell) (n : node) (output : ast -> hres) : hres :=
  HErr "KeyError: 0".

Definition Array : order_t -> rule := mk_rule base_match base_parse Array_node_html.

Definition Heading_parse (capture : capture) (parse : parse_fn) : M rdict :=
  c1 <- group_str capture 1 ;;
  c2 <- group_str capture 2 ;;
  content <- parse_inline parse (Some (strip c2)) ;;
  ret (untyped (PHeading (length c1) content)).

Definition Heading_html (h : list cell) (n : node) (output : ast -> hres) : hres :=
  match node_fields n with
  | PHeading level content =>
      hbind (output (AList content))
        (fun s => HOk (html_tag ("h" ++ pretty.pretty level) s [] true))
  | _ => key_error
  end.

Definition Heading : order_t -> rule :=
  mk_rule (block_regex HEADING_R) Heading_parse Heading_html.

Definition NpTable : order_t -> rule :=
  mk_rule (block_regex NPTABLE_REGEX) (parse_table false) base_html.

Definition LHeading_parse (capture : capture) (parse : parse_fn) : M rdict :=
  let level := if bool_decide (group capture 2 = Some (str_of_string "=")) then 1 else 2 in
  content <- parse_inline parse (group capture 1) ;;
  ret (typed "heading" (PHeading level content)).

Definition LHeading : order_t -> rule :=
  mk_rule (block_regex LHEADING_R) LHeading_parse base_html.

Definition HR : order_t -> rule :=
  mk_rule (block_regex HR_R) (fun _ _ => ret ignore_capture)
    (fun _ _ _ => HOk (str_of_string "<hr>")).

Definition CodeBlock_parse (capture : capture) (parse : parse_fn) : M rdict :=
  let content :=
    re_sub no_flags TRAILING_NL_R (fun _ => [])
      (re_sub no_flags INDENT_R (fun _ => []) (whole capture) 0) 0 in
  ret (untyped (PCode None content)).

Definition CodeBlock_html (h : list cell) (n : node) (output : ast -> hres) : hres :=
  match node_fields n with
  | PCode lang content =>
      let class_name :=
        match lang with
        | Some (c :: l) => Some (str_of_string "markdown-code-" ++ c :: l)
        | _ => None
        end in
      let code_block := html_tag "code" (sanitize_text content) [("class"%string, class_name)] true in
      HOk (html_tag "pre" code_block [] true)
  | _ => key_error
  end.

Definition CodeBlock : order_t -> rule :=
  mk_rule (block_regex CODEBLOCK_R) CodeBlock_parse CodeBlock_html.

Definition Fence_parse (capture : capture) (parse : parse_fn) : M rdict :=
  c3 <- group_str capture 3 ;;
  ret (typed "codeBlock" (PCode (py_or (group capture 2) None) c3)).

Definition Fence : order_t -> rule :=
  mk_rule (block_regex FENCE_R) Fence_parse base_html.

Definition BlockQuote_parse (capture : capture) (parse : parse_fn) : M rdict :=
  let content := re_sub no_flags BLOCKQUOTE_MARK_R (fun _ => []) (whole capture) 0 in
  nodes <- parse (Some content) ;;
  ret (untyped (PContent nodes)).

Definition BlockQuote : order_t -> rule :=
  mk_rule (block_regex BLOCKQUOTE_R) BlockQuote_parse (content_html "blockquote" []).

Definition List_match (source : str) (st : state) (prev : str) : option capture :=
  let previous_capture_string := previous_capture_string st in
  let is_start_of_line_capture := re_match no_flags LIST_LOOKBEHIND_R previous_capture_string in
  let is_list_block := (_list st || negb (inline st))%bool in
  match is_start_of_line_capture with
  | Some lookbehind =>
      if is_list_block
      then match group lookbehind 1 with
           | Some indent => re_match no_flags LIST_R (indent ++ source)
           | None => None
           end
      else None
  | None => None
  end.

Definition List_parse (capture : capture) (parse : parse_fn) : M rdict :=
  bullet <- group_str capture 2 ;;
  let ordered := Nat.ltb 1 (length bullet) in
  start <- (if ordered
            then z <- int_of (re_sub no_flags NON_DIGITS_R (fun _ => []) bullet 0) ;; ret (Some z)
            else ret None) ;;
  let items :=
    re_finditer fl_multiline LIST_ITEM_R
      (re_sub no_flags LIST_BLOCK_END_R (fun _ => [ch_nl]) (whole capture) 1) in
  item_content <- list_items parse (length items) 0 items false ;;
  ret (untyped (PList ordered start item_content)).

Definition List_html (h : list cell) (n : node) (output : ast -> hres) : hres :=
  match node_fields n with
  | PList ordered start items =>
      hbind (hconcat (map (fun item =>
                             hbind (output (AList item))
                               (fun s => HOk (html_tag "li" s [] true))) items))
        (fun list_items =>
           let list_tag := if ordered then "ol"%string else "ul"%string in
           let attributes :=
             [("start"%string,
               match start with
               | Some z => if Z.eqb z 0 then None else Some (show_Z z)
               | None => None
               end)] in
           HOk (html_tag list_tag list_items attributes true))
  | _ => key_error
  end.

Definition List : order_t -> rule := mk_rule List_match List_parse List_html.

(** What [Def.parse] does to the state: every node waiting in
    [_refs[_def]] gets the target and title, then the definition is
    recorded. *)
Definition record_def (_def target : str) (title : option str) (st : state) : state :=
  set_defs (<[_def := (target, title)]> (_defs st))
    (match _refs st !! _def with
     | Some locs => set_heap (patch_refs locs target title (heap st)) st
     | None => st
     end).

Definition Def_parse (capture : capture) (parse : parse_fn) : M rdict :=
  c1 <- group_str capture 1 ;;
  let _def := normalize_ref c1 in
  target <- group_str capture 2 ;;
  let title := group capture 3 in
  update (record_def _def target title) ;;;
  ret (untyped (PDef _def target title)).

Definition Def : order_t -> rule :=
  mk_rule (block_regex DEF_R) Def_parse (fun _ _ _ => HOk []).

Definition get_style (align : list (option string)) (column_index : nat) : option (option str) :=
  match align !! column_index with
  | None => None
  | Some None => Some None
  | Some (Some a) => Some (Some (str_of_string "text-align:" ++ str_of_string a ++ str_of_string ";"))
  end.

(** The cells of one table row; [extra] are the attributes behind [style]. *)
Fixpoint row_html (output : ast -> hres) (align : list (option string)) (tag : string)
    (extra : list (string * option str)) (index : nat) (row : list (list node)) : hres :=
  match row with
  | [] => HOk []
  | content :: row' =>
      hbind (output (AList content))
        (fun s =>
           match get_style align index with
           | None => HErr "IndexError: list index out of range"
           | Some style =>
               hbind (row_html output align tag extra (S index) row')
                 (fun r => HOk (html_tag tag s (("style"%string, style) :: extra) true ++ r))
           end)
  end.

Definition Table_html (h : list cell) (n : node) (output : ast -> hres) : hres :=
  match node_fields n with
  | PTable header align cells =>
      hbind (row_html output align "th" [("scope"%string, Some (str_of_string "col"))] 0 header)
        (fun headers =>
           hbind (hconcat (map (fun row =>
                                  hbind (row_html output align "td" [] 0 row)
                                    (fun tds => HOk (html_tag "tr" tds [] true))) cells))
             (fun rows =>
                let thead := html_tag "thead" (html_tag "tr" headers [] true) [] true in
                let tbody := html_tag "tbody" rows [] true in
                HOk (html_tag "table" (thead ++ tbody) [] true)))
  | _ => key_error
  end.

Definition Table : order_t -> rule :=
  mk_rule (block_regex TABLE_REGEX) (parse_table true) Table_html.

Definition NewLine : order_t -> rule :=
  mk_rule (block_regex NEWLINE_R) (fun _ _ => ret ignore_capture) (fun _ _ _ => HOk [ch_nl]).

Definition Paragraph : order_t -> rule :=
  mk_rule (block_regex PARAGRAPH_R) parse_capture_inline
    (content_html "div" [("class"%string, Some (str_of_string "paragraph"))]).

Definition Escape_parse (capture : capture) (parse : parse_fn) : M rdict :=
  c1 <- group_str capture 1 ;;
  ret (typed "text" (PText c1)).

Definition Escape : order_t -> rule :=
  mk_rule (inline_regex ESCAPE_R) Escape_parse base_html.

Definition TableSeparator_match (source : str) (st : state) (prev : str) : option capture :=
  if negb (in_table st) then None else re_match no_flags TABLE_SEPARATOR_R source.

Definition TableSeparator : order_t -> rule :=
  mk_rule TableSeparator_match (fun _ _ => ret (typed "table_separator" PEmpty))
    (fun _ _ _ => HOk (str_of_string " &vert; ")).

Definition AutoLink_parse (capture : capture) (parse : parse_fn) : M rdict :=
  c1 <- group_str capture 1 ;;
  ret (typed "link" (PLink [Node "text" (PText c1)] c1 None)).

Definition AutoLink : order_t -> rule :=
  mk_rule (inline_regex AUTOLINK_R) AutoLink_parse base_html.

Definition MailTo_parse (capture : capture) (parse : parse_fn) : M rdict :=
  address <- group_str capture 1 ;;
  let target :=
    if is_some (re_match fl_ignorecase AUTOLINK_MAILTO_CHECK_R address) then address
    else str_of_string "mailto:" ++ address in
  ret (typed "link" (PLink [Node "text" (PText address)] target None)).

Definition MailTo : order_t -> rule :=
  mk_rule (inline_regex MAILTO_R) MailTo_parse base_html.

Definition URL_parse (capture : capture) (parse : parse_fn) : M rdict :=
  c1 <- group_str capture 1 ;;
  ret (typed "link" (PLink [Node "text" (PText c1)] c1 (Some None))).

Definition URL : order_t -> rule :=
  mk_rule (inline_regex URL_R) URL_parse base_html.

Definition Link_parse (capture : capture) (parse : parse_fn) : M rdict :=
  content <- parse (group capture 1) ;;
  c2 <- group_str capture 2 ;;
  ret (untyped (PLink content (unescape_url c2) (Some (group capture 3)))).

(** [Link.html]: [href] is [sanitize_text(node['target'])], [title] is
    [node.get('title')]. *)
Definition Link_html (h : list cell) (n : node) (output : ast -> hres) : hres :=
  match node_fields n with
  | PLink content target title =>
      let attributes :=
        [("href"%string, Some (sanitize_text target));
         ("title"%string, match title with Some t => t | None => None end)] in
      hbind (output (AList content)) (fun s => HOk (html_tag "a" s attributes true))
  | PRefLink loc content =>
      match h !! loc with
      | Some (Some (target, title)) =>
          let attributes :=
            [("href"%string, Some (sanitize_text target)); ("title"%string, title)] in
          hbind (output (AList content)) (fun s => HOk (html_tag "a" s attributes true))
      | _ => HErr "KeyError: 'target'"
      end
  | _ => key_error
  end.

Definition Link : order_t -> rule :=
  mk_rule (inline_regex LINK_R) Link_parse Link_html.

Definition Image_parse (capture : capture) (parse : parse_fn) : M rdict :=
  alt <- group_str capture 1 ;;
  c2 <- group_str capture 2 ;;
  ret (untyped (PImage alt (unescape_url c2) (group capture 3))).

Definition Image_html (h : list cell) (n : node) (output : ast -> hres) : hres :=
  match node_fields n with
  | PImage alt target title =>
      HOk (html_tag "img" []
             [("src"%string, Some (sanitize_text target)); ("alt"%string, Some alt);
              ("title"%string, title)] false)
  | PRefImage loc alt =>
      match h !! loc with
      | Some (Some (target, title)) =>
          HOk (html_tag "img" []
                 [("src"%string, Some (sanitize_text target)); ("alt"%string, Some alt);
                  ("title"%string, title)] false)
      | _ => HErr "KeyError: 'target'"
      end
  | _ => key_error
  end.

Definition Image : order_t -> rule :=
  mk_rule (inline_regex IMAGE_R) Image_parse Image_html.

Definition RefLink_parse (capture : capture) (parse : parse_fn) : M rdict :=
  content <- parse (group capture 1) ;;
  parse_ref capture (fun loc => typed "link" (PRefLink loc content)).

Definition RefLink : order_t -> rule :=
  mk_rule (inline_regex REFLINK_R) RefLink_parse base_html.

Definition RefImage_parse (capture : capture) (parse : parse_fn) : M rdict :=
  alt <- group_str capture 1 ;;
  parse_ref capture (fun loc => typed "image" (PRefImage loc alt)).

Definition RefImage : order_t -> rule :=
  mk_rule (inline_regex REFIMAGE_R) RefImage_parse base_html.

Definition len_Q (s : str) : Q := inject_Z (Z.of_nat (length s)).

Definition Em_parse (capture : capture) (parse : parse_fn) : M rdict :=
  content <- parse (py_or (group capture 2) (group capture 1)) ;;
  ret (untyped (PContent content)).

Definition Em : order_t -> rule :=
  mk_rule_q (inline_regex EM_R) (fun capture _ _ => len_Q (whole capture) + (2 # 10))%Q
    Em_parse (content_html "em" []).

Definition Strong : order_t -> rule :=
  mk_rule_q (inline_regex STRONG_R) (fun capture _ _ => len_Q (whole capture) + (1 # 10))%Q
    parse_capture_inline (content_html "strong" []).

Definition U : order_t -> rule :=
  mk_rule_q (inline_regex U_R) (fun capture _ _ => len_Q (whole capture))
    parse_capture_inline (content_html "u" []).

Definition Del : order_t -> rule :=
  mk_rule (inline_regex DEL_R) parse_capture_inline (content_html "del" []).

Definition InlineCode_parse (capture : capture) (parse : parse_fn) : M rdict :=
  c2 <- group_str capture 2 ;;
  ret (untyped (PText (re_sub no_flags INLINE_CODE_ESCAPE_BACKTICKS_R
                         (fun c => match group c 1 with Some s => s | None => [] end) c2 0))).

Definition InlineCode_html (h : list cell) (n : node) (output : ast -> hres) : hres :=
  match node_fields n with
  | PText content => HOk (html_tag "code" (sanitize_text content) [] true)
  | _ => key_error
  end.

Definition InlineCode : order_t -> rule :=
  mk_rule (inline_regex INLINECODE_R) InlineCode_parse InlineCode_html.

Definition Br : order_t -> rule :=
  mk_rule (any_scope_regex BR_R) (fun _ _ => ret ignore_capture)
    (fun _ _ _ => HOk (str_of_string "<br>")).

Definition Text_parse (capture : capture) (parse : parse_fn) : M rdict :=
  ret (untyped (PText (whole capture))).

Definition Text_html (h : list cell) (n : node) (output : ast -> hres) : hres :=
  match node_fields n with
  | PText content => HOk (sanitize_text content)
  | _ => key_error
  end.

Definition Text : order_t -> rule :=
  mk_rule (any_scope_regex TEXT_R) Text_parse Text_html.

(** ** The default rule table *)

(** How an entry of [default_rules] takes its order from the global counter:
    [current_order] as it is, or [(current_order := current_order + 1) - 1]. *)
Inductive order_arg : Type :=
| Current
| PostIncrement.

Fixpoint build_rules (current_order : Z)
    (entries : list (string * (order_t -> rule) * order_arg)) : rules_t :=
  match entries with
  | [] => []
  | (name, cls, Current) :: entries' =>
      (name, cls (OrdNum current_order)) :: build_rules current_order entries'
  | (name, cls, PostIncrement) :: entries' =>
      (name, cls (OrdNum current_order)) :: build_rules (current_order + 1) entries'
  end.

Definition default_rules : rules_t :=
  build_rules 0
    [("Array", Array, Current);
     ("heading", Heading, PostIncrement);
     ("nptable", NpTable, PostIncrement);
     ("lheading", LHeading, PostIncrement);
     ("hr", HR, PostIncrement);
     ("codeBlock", CodeBlock, PostIncrement);
     ("fence", Fence, PostIncrement);
     ("blockQuote", BlockQuote, PostIncrement);
     ("list", List, PostIncrement);
     ("def", Def, PostIncrement);
     ("table", Table, PostIncrement);
     ("newline", NewLine, PostIncrement);
     ("paragraph", Paragraph, PostIncrement);
     ("escape", Escape, PostIncrement);
     ("tableSeparator", TableSeparator, PostIncrement);
     ("autolink", AutoLink, PostIncrement);
     ("mailto", MailTo, PostIncrement);
     ("url", URL, PostIncrement);
     ("link", Link, PostIncrement);
     ("image", Image, PostIncrement);
     ("reflink", RefLink, PostIncrement);
     ("refimage", RefImage, PostIncrement);
     ("em", Em, Current);
     ("strong", Strong, Current);
     ("u", U, PostIncrement);
     ("del", Del, PostIncrement);
     ("inlineCode", InlineCode, PostIncrement);
     ("br", Br, PostIncrement);
     ("text", Text, PostIncrement)]%string.

(** The sorted rule list of [parser_for(default_rules)]. *)
Definition default_rule_list : list string :=
  Eval vm_compute in default [] (rule_list_of default_rules).

(** [default_raw_parse = parser_for(default_rules)] *)
Definition default_raw_parse (fuel : nat) (source : str) : M (list node) :=
  outer_parse default_rules default_rule_list fuel source.

Definition default_block_parse (fuel : nat) (source : str) : M (list node) :=
  update (set_inline false) ;;;
  default_raw_parse fuel source.

Definition default_inline_parse (fuel : nat) (source : str) : M (list node) :=
  update (set_inline true) ;;;
  default_raw_parse fuel source.

(** [BLOCK_END_R.match(source)]: [re.match], anchored at index 0. *)
Definition implicit_is_block (source : str) : bool :=
  is_some (re_match no_flags BLOCK_END_R source).

Definition default_implicit_parse (fuel : nat) (source : str) : M (list node) :=
  let is_block := implicit_is_block source in
  update (set_inline (negb is_block)) ;;;
  default_raw_parse fuel source.

(** ** The output engine, [output_for(rules, 'html')] *)

Fixpoint nested_output (rules : rules_t) (h : list cell) (fuel : nat) (a : ast) : hres :=
  match fuel with
  | 0 => HTimeout
  | S fuel' =>
      match a with
      | AList arr => Array_html arr (nested_output rules h fuel')
      | ANode n =>
          match rules_get rules (node_type n) with
          | Some r => r_html r h n (nested_output rules h fuel')
          | None => key_error
          end
      end
  end.

Definition default_html_output (fuel : nat) (tree : list node) (h : list cell) : hres :=
  nested_output default_rules h fuel (AList tree).

(** [markdown_to_html(source, state)] *)
Definition markdown_to_html (fuel : nat) (source : str) (st : state) : hres :=
  match default_block_parse fuel source st with
  | Ok tree st' => default_html_output fuel tree (heap st')
  | Raise e => HErr e
  | Timeout => HTimeout
  end.


(** ** The matcher as a relation

    [matches fl s r p g p' g']: the pattern [r] can take [s] from position
    [p] with groups [g] to position [p'] with groups [g'].  The matcher [m]
    enumerates exactly these ways, in priority order. *)

Fixpoint nogroups (r : regex) : bool :=
  match r with
  | Cat a b | Or a b => nogroups a && nogroups b
  | Rep _ _ _ a | Ahead _ a => nogroups a
  | Grp _ _ => false
  | _ => true
  end.

(** Well-formed: no capture group inside a lookahead. *)
Fixpoint wf (r : regex) : bool :=
  match r with
  | Cat a b | Or a b => wf a && wf b
  | Rep _ _ _ a | Grp _ a => wf a
  | Ahead _ a => nogroups a && wf a
  | _ => true
  end.

Fixpoint iter (R : nat -> groups -> nat -> groups -> Prop) (n : nat)
    (p : nat) (g : groups) (p' : nat) (g' : groups) : Prop :=
  match n with
  | 0 => p' = p /\ g' = g
  | S n' => exists p1 g1, R p g p1 g1 /\ p < p1 /\ iter R n' p1 g1 p' g'
  end.

Definition within (hi : option nat) (n : nat) : Prop :=
  match hi with Some h => n <= h | None => True end.

Fixpoint matches (fl : flags) (s : str) (r : regex)
    (p : nat) (g : groups) (p' : nat) (g' : groups) : Prop :=
  match r with
  | Emp => p' = p /\ g' = g
  | Lit x => exists c, s !! p = Some c /\ lit_eq fl x c = true /\ p' = S p /\ g' = g
  | Cls neg items =>
      exists c, s !! p = Some c /\ xorb neg (class_has items c) = true /\ p' = S p /\ g' = g
  | Any => exists c, s !! p = Some c /\ ascii_eqb c ch_nl = false /\ p' = S p /\ g' = g
  | Cat a b => exists p1 g1, matches fl s a p g p1 g1 /\ matches fl s b p1 g1 p' g'
  | Or a b => matches fl s a p g p' g' \/ matches fl s b p g p' g'
  | Rep _ lo hi a =>
      exists n, iter (matches fl s a) n p g p' g' /\ lo <= n /\ within hi n
  | Grp i a => exists g1, matches fl s a p g p' g1 /\ g' = gset i (p, p') g1
  | Back i =>
      exists b e, gget i g = Some (b, e) /\ substr p (p + (e - b)) s = substr b e s
                  /\ p + (e - b) <= length s /\ p' = p + (e - b) /\ g' = g
  | Ahead false a => (exists p1 g1, matches fl s a p g p1 g1) /\ p' = p /\ g' = g
  | Ahead true a => (forall p1 g1, ~ matches fl s a p g p1 g1) /\ p' = p /\ g' = g
  | Bol => at_bol fl s p = true /\ p' = p /\ g' = g
  | Eol => at_eol fl s p = true /\ p' = p /\ g' = g
  | Wordb => at_wordb s p = true /\ p' = p /\ g' = g
  end.

(** ** Static bounds on a pattern *)

(** The least number of characters a match of [r] consumes. *)
Fixpoint minlen (r : regex) : nat :=
  match r with
  | Lit _ | Cls _ _ | Any => 1
  | Cat a b => minlen a + minlen b
  | Or a b => Nat.min (minlen a) (minlen b)
  | Rep _ lo _ a => lo * minlen a
  | Grp _ a => minlen a
  | _ => 0
  end.

Definition opt_min (a b : option nat) : option nat :=
  match a, b with
  | Some x, Some y => Some (Nat.min x y)
  | Some x, None => Some x
  | None, b => b
  end.

(** [slack i r = Some n]: whenever a match of [r] binds group [i], the
    match is at least [n] characters longer than the group; [None]: [r]
    never binds group [i]. *)
Fixpoint slack (i : nat) (r : regex) : option nat :=
  match r with
  | Cat a b =>
      opt_min (option_map (fun x => x + minlen b) (slack i a))
              (option_map (fun y => minlen a + y) (slack i b))
  | Or a b => opt_min (slack i a) (slack i b)
  | Rep _ _ _ a => slack i a
  | Grp j a => if Nat.eqb i j then Some 0 else slack i a
  | _ => None
  end.

(** [binds i r]: every match of [r] binds group [i]. *)
Fixpoint binds (i : nat) (r : regex) : bool :=
  match r with
  | Cat a b => binds i a || binds i b
  | Or a b => binds i a && binds i b
  | Rep _ lo _ a => Nat.ltb 0 lo && binds i a
  | Grp j a => Nat.eqb i j || binds i a
  | _ => false
  end.

(** A pattern that only looks at the characters it consumes: no anchor,
    lookahead or back-reference. *)
Fixpoint local (r : regex) : bool :=
  match r with
  | Emp | Lit _ | Cls _ _ | Any => true
  | Cat a b | Or a b => local a && local b
  | Rep _ _ _ a | Grp _ a => local a
  | _ => false
  end.

(** ** The element-format joiner, [Array.react] *)

(** The part of the state dictionary the element renderers use. *)
Record rstate := { key : option str }.

Inductive routcome (A : Type) : Type :=
| ROk (a : A) (st : rstate)
| RRaise (msg : string)
| RTimeout.

Arguments ROk {A} a st.
Arguments RRaise {A} msg.
Arguments RTimeout {A}.

Section ArrayReact.
Context {R : Type}.

(** The variables of the loop in [Array.react]. *)
Record react_loop_state := {
  l_i : nat;
  l_key : nat;
  l_result : list R;
  l_state : rstate
}.

(** The body of [while i < len(arr)]: note that [i] only moves inside the
    run of text nodes; the statement behind [result.append] is
    [key += 1]. *)
Definition react_body (output : node -> rstate -> routcome R) (arr : list node)
    (l : react_loop_state) : routcome react_loop_state :=
  let st := {| key := Some (show_nat (l_i l)) |} in
  match arr !! l_i l with
  | None => RRaise "IndexError"
  | Some node =>
      match joined_node arr (l_i l) node with
      | None => RRaise "KeyError"
      | Some (i', node') =>
          match output node' st with
          | ROk r st' =>
              ROk {| l_i := i'; l_key := l_key l + 1;
                     l_result := l_result l ++ [r]; l_state := st' |} st'
          | RRaise e => RRaise e
          | RTimeout => RTimeout
          end
      end
  end.

Fixpoint react_loop (output : node -> rstate -> routcome R) (arr : list node)
    (old_key : option str) (fuel : nat) (l : react_loop_state) : routcome (list R) :=
  match fuel with
  | 0 => RTimeout
  | S fuel' =>
      if Nat.ltb (l_i l) (length arr)
      then match react_body output arr l with
           | ROk l' _ => react_loop output arr old_key fuel' l'
           | RRaise e => RRaise e
           | RTimeout => RTimeout
           end
      else ROk (l_result l) {| key := old_key |}
  end.

(** [Array.react(arr, output, state)], run for [fuel] iterations. *)
Definition Array_react (fuel : nat) (arr : list node)
    (output : node -> rstate -> routcome R) (st : rstate) : routcome (list R) :=
  match key st with
  | None => RRaise "KeyError: 'key'"
  | Some old_key =>
      react_loop output arr (Some old_key) fuel
        {| l_i := 0; l_key := 0; l_result := []; l_state := st |}
  end.
End ArrayReact.

(** [Text.react]: the content itself. *)
Definition Text_react (n : node) (st : rstate) : routcome str :=
  match node_fields n with
  | PText content => ROk content st
  | _ => RRaise "KeyError: 'content'"
  end.

(** The keys of the rule table, as the output engine looks them up. *)
Definition is_rule_key (rules : rules_t) (t : string) : bool :=
  is_some (rules_get rules t).

(** The types of all nodes of a tree, at every depth. *)
Fixpoint node_types (n : node) : list string :=
  let lists := fix lists (l : list node) : list string :=
    match l with
    | [] => []
    | x :: l' => node_types x ++ lists l'
    end in
  let lists2 := fix lists2 (l : list (list node)) : list string :=
    match l with
    | [] => []
    | x :: l' => lists x ++ lists2 l'
    end in
  let lists3 := fix lists3 (l : list (list (list node))) : list string :=
    match l with
    | [] => []
    | x :: l' => lists2 x ++ lists3 l'
    end in
  match n with
  | Node t f =>
      t :: match f with
           | PContent c | PHeading _ c | PLink c _ _ | PRefLink _ c => lists c
           | PList _ _ items => lists2 items
           | PTable header _ cells => lists2 header ++ lists3 cells
           | _ => []
           end
  end.

Definition tree_types (tree : list node) : list string := flat_map node_types tree.

(** Whether a run of a renderer came back with a result. *)
Definition returns {A} (o : routcome A) : bool :=
  match o with
  | ROk _ _ => true
  | _ => false
  end.

(** ** Running the parser *)

Definition nl : string := String ch_nl EmptyString.

(** Fuel that is enough for any parse of [source]: one more than the length
    of the preprocessed source with its two added newlines. *)
Definition parse_fuel (source : str) : nat :=
  S (length (preprocess (source ++ [ch_nl; ch_nl]))).

Definition tree_of {A} (o : outcome A) : option A :=
  match o with
  | Ok a _ => Some a
  | _ => None
  end.

Definition state_of {A} (o : outcome A) : option state :=
  match o with
  | Ok _ st => Some st
  | _ => None
  end.

(** The state in which [nested_parse] runs the inline rules. *)
Definition inline_state : state := set_inline true empty_state.

Definition selected_rule (source : str) (st : state) : option string :=
  option_map (fun x => fst (fst x)) (select default_rules default_rule_list source st).

Definition selected_capture (source : str) (st : state) : option str :=
  option_map (fun x => whole (snd x)) (select default_rules default_rule_list source st).

Definition default_rule (name : string) : option rule := rules_get default_rules name.

Definition rule_matches (name : string) (source : str) (st : state) : option str :=
  match default_rule name with
  | Some r => option_map whole (rule_match r source st (previous_capture_string st))
  | None => None
  end.

Definition dq : string := String ch_dq EmptyString.

(** A rule map whose only rule has a string for its order, and one that
    also holds a rule with a number. *)
Definition string_order_rules : rules_t := [("x"%string, Text (OrdStr "high"))].

Definition mixed_order_rules : rules_t :=
  [("x"%string, Text (OrdStr "high")); ("br"%string, Br (OrdNum 0))].

(** * The predicates of the statements *)

(** ** Matching *)

(** The matcher [m] against the relation [matches]: every result of [m]
    is a match that the continuation accepts, and every such match makes
    [m] return. *)
Definition sound (fl : flags) (s : str) (r : regex) : Prop :=
  forall p g k res, p <= length s -> m fl s r p g k = Some res ->
    exists p' g', matches fl s r p g p' g' /\ k p' g' = Some res.

Definition complete (fl : flags) (s : str) (r : regex) : Prop :=
  forall p g p' g' k res, matches fl s r p g p' g' -> p <= length s ->
    k p' g' = Some res -> exists res', m fl s r p g k = Some res'.

(** Group [i] after a match from [p] to [p']: bound by this match, inside
    it and shorter than it by at least [slack i r]. *)
Definition fresh (fl : flags) (s : str) (i : nat) (r : regex) (p p' : nat) (g' : groups)
  : Prop :=
  exists b e n, gget i g' = Some (b, e) /\ slack i r = Some n /\
                p <= b /\ b <= e /\ e <= p' /\ (e - b) + n <= p' - p.

(** A match found in [s]: it lies inside [s] and the relation justifies it. *)
Definition valid (fl : flags) (r : regex) (s : str) (c : capture) : Prop :=
  c_subject c = s /\ c_start c <= length s /\
  matches fl s r (c_start c) [] (c_end c) (c_groups c).

(** Patterns that consume exactly one character, chosen by [P]. *)
Definition char_step (fl : flags) (s : str) (r : regex) (P : ascii -> bool) : Prop :=
  forall p g p' g',
    matches fl s r p g p' g' <->
    exists c, s !! p = Some c /\ P c = true /\ p' = S p /\ g' = g.

(** Every character in front of index [k] is a space. *)
Definition spaces_upto (k : nat) (x : str) : Prop :=
  forall j c, j < k -> x !! j = Some c -> c = ch_sp.

(** The characters [SANITIZE_TEXT_R] matches. *)
Definition needs_escape (c : ascii) : bool :=
  class_has [CChar "<"; CChar ">"; CChar "&"; CChar ch_dq; CChar "'"] c.

(** What a preprocessed source is free of. *)
Definition preprocessed (c : ascii) : Prop :=
  c <> ch_cr /\ c <> ch_ff /\ c <> ch_tab.

(** ** Runs of the parser *)

(** [wp E c st Q]: the computation [c] ends from [st].  It returns a result
    and a state that satisfy [Q], or it raises an exception that [E]
    allows; it does not run out of fuel. *)
Definition wp (E : string -> Prop) {A} (c : M A) (st : state) (Q : A -> state -> Prop)
  : Prop :=
  match c st with
  | Ok a st' => Q a st'
  | Raise msg => E msg
  | Timeout => False
  end.

(** A run that ends, by returning or by raising. *)
Definition ends {A} (o : outcome A) : bool :=
  match o with
  | Timeout => false
  | _ => true
  end.

Definition olen (o : option str) : nat :=
  match o with Some s => length s | None => 0 end.

(** A node of type [text] carries a string: the table parser relies on it
    when it trims the text in front of a separator. *)
Definition text_ok (n : node) : Prop :=
  node_type n = "text"%string -> exists c, node_fields n = PText c.

Definition typed_as (name : string) (d : rdict) : node :=
  Node (match d_type d with Some t => t | None => name end) (d_fields d).

(** The addresses of the reference nodes of a tree, at every depth. *)
Fixpoint node_locs (n : node) : list nat :=
  let lists := fix lists (l : list node) : list nat :=
    match l with
    | [] => []
    | x :: l' => node_locs x ++ lists l'
    end in
  let lists2 := fix lists2 (l : list (list node)) : list nat :=
    match l with
    | [] => []
    | x :: l' => lists x ++ lists2 l'
    end in
  let lists3 := fix lists3 (l : list (list (list node))) : list nat :=
    match l with
    | [] => []
    | x :: l' => lists2 x ++ lists3 l'
    end in
  match n with
  | Node _ f =>
      match f with
      | PRefLink loc c => loc :: lists c
      | PRefImage loc _ => [loc]
      | PContent c | PHeading _ c | PLink c _ _ => lists c
      | PList _ _ items => lists2 items
      | PTable header _ cells => lists2 header ++ lists3 cells
      | _ => []
      end
  end.

Arguments node_locs : simpl never.

Definition tree_locs (nodes : list node) : list nat := flat_map node_locs nodes.

(** Addresses of cells of the heap of [st]. *)
Definition below (st : state) (locs : list nat) : Prop :=
  Forall (fun loc => loc < length (heap st)) locs.

(** Every reference node of the tree has its cell in the heap of [st]. *)
Definition locs_ok (st : state) (nodes : list node) : Prop :=
  below st (tree_locs nodes).

(** What a parse that started in [st] leaves, under an invariant [I] of
    the state: the heap has kept its cells. *)
Definition post (I : state -> Prop) (st : state) (nodes : list node) (st' : state)
  : Prop :=
  Forall text_ok nodes /\ I st' /\ locs_ok st' nodes
  /\ length (heap st) <= length (heap st').

(** A callback that ends on every source shorter than [n]. *)
Definition callback_ok (E : string -> Prop) (I : state -> Prop) (n : nat)
    (parse : parse_fn) : Prop :=
  forall o st, olen o < n -> I st -> wp E (parse o) st (post I st).

(** A rule whose [parse] ends on whatever its [match] captured, given such
    a callback, and whose capture is not empty. *)
Definition rule_ok (E : string -> Prop) (I : state -> Prop) (name : string) (r : rule)
  : Prop :=
  forall source st cap parse,
    rule_match r source st (previous_capture_string st) = Some cap ->
    callback_ok E I (length source) parse -> I st ->
    wp E (r_parse r cap parse) st (fun d st' => post I st [typed_as name d] st')
    /\ 1 <= length (whole cap).

(** A selection that names a rule of the table and a capture of its match. *)
Definition sel_ok (rules : rules_t) (source : str) (st : state) (sel : selection) : Prop :=
  let '(name, rule, cap) := sel in
  rules_get rules name = Some rule
  /\ rule_match rule source st (previous_capture_string st) = Some cap.

(** Every quality of the table is above the initial -1. *)
Definition quality_ok (rules : rules_t) (st : state) : Prop :=
  forall name rule q cap,
    rules_get rules name = Some rule -> r_quality rule = Some q ->
    Qle_bool (q cap st (previous_capture_string st)) (-1) = false.

(** ** Reference nodes *)

(** The reference node at address [loc] waits under the name [ref]. *)
Definition registered (st : state) (ref : str) (loc : nat) : Prop :=
  exists locs, _refs st !! ref = Some locs /\ In loc locs.

(** Every reference node whose name has a definition carries the target
    and title of that definition. *)
Definition refs_resolved (st : state) : Prop :=
  forall ref loc d,
    registered st ref loc -> _defs st !! ref = Some d -> heap st !! loc = Some (Some d).

(** The invariant of the parse: the registered addresses are the cells of
    the heap, each under one name, and resolved. *)
Definition refs_inv (st : state) : Prop :=
  (forall ref loc, registered st ref loc -> loc < length (heap st))
  /\ (forall r1 r2 loc, registered st r1 loc -> registered st r2 loc -> r1 = r2)
  /\ (forall loc, loc < length (heap st) -> exists ref, registered st ref loc)
  /\ refs_resolved st.

(** * Further predicates and functions *)

(** The characters that open or close markup or an attribute value. *)
Definition markup_chars : list ascii := ["<"; ">"; ch_dq; "'"]%char.

(** An attribute that [html_tag] writes: its value is neither [None] nor
    the empty string. *)
Definition has_value (attribute : string * option str) : bool :=
  match snd attribute with
  | Some (_ :: _) => true
  | _ => false
  end.

(** The number of double quotes in a string. *)
Definition quotes (s : str) : nat := length (filter (fun c => ascii_eqb c ch_dq = true) s).

(** The protocols [sanitize_url] rejects. *)
Definition rejected_protocols : list str :=
  [str_of_string "javascript:"; str_of_string "vbscript:"; str_of_string "data:"].

(** A text node. *)
Definition text_node (content : str) : node := Node "text" (PText content).

(** The order of a rule of the map, when it is a number. *)
Definition order_number (rules : rules_t) (name : string) : option Z :=
  match rules_get rules name with
  | Some rule => match r_order rule with OrdNum z => Some z | _ => None end
  | None => None
  end.

(** The reference nodes whose name has no definition have no target. *)
Definition refs_pending (st : state) : Prop :=
  forall ref loc,
    registered st ref loc -> _defs st !! ref = None -> heap st !! loc = Some None.

(** The rules that [block_regex] and [inline_regex] guard in the default
    table. *)
Definition block_rule_names : list string :=
  ["heading"; "nptable"; "lheading"; "hr"; "codeBlock"; "fence"; "blockQuote"; "def";
   "table"; "newline"; "paragraph"]%string.

Definition inline_rule_names : list string :=
  ["escape"; "autolink"; "mailto"; "url"; "link"; "image"; "reflink"; "refimage";
   "em"; "strong"; "u"; "del"; "inlineCode"]%string.

(** A rule map with two numbered rules, the higher order first. *)
Definition two_rules : rules_t :=
  [("text"%string, Text (OrdNum 1)); ("br"%string, Br (OrdNum 0))].

(** ** The other HTML output, [html_for(rules_output(rules, 'html'))] *)

(** [rules_output(rules, 'html')]: the [html] of the rule of the node's
    type; [h] is the heap the renderers read the reference nodes through. *)
Definition rules_output (rules : rules_t) (h : list cell) (n : node)
    (output_func : ast -> hres) : hres :=
  match rules_get rules (node_type n) with
  | Some r => r_html r h n output_func
  | None => key_error
  end.

(** [html_for(output_func)]: a list is rendered node by node and joined; one
    unit of [fuel] per call.  The strings it returns are those of the
    code; of the exceptions it tells the first one only when no node of
    the list is rendered to [None] (see [base_html]). *)
Fixpoint html_for (output_func : node -> (ast -> hres) -> hres) (fuel : nat) (a : ast)
  : hres :=
  match fuel with
  | 0 => HTimeout
  | S fuel' =>
      match a with
      | AList l => hconcat (map (fun n => html_for output_func fuel' (ANode n)) l)
      | ANode n => output_func n (html_for output_func fuel')
      end
  end.

(** A tree in which every node of type [text], at every depth, has a string
    for its content. *)
Fixpoint tree_ok (n : node) : bool :=
  let lists := fix lists (l : list node) : bool :=
    match l with
    | [] => true
    | x :: l' => tree_ok x && lists l'
    end in
  let lists2 := fix lists2 (l : list (list node)) : bool :=
    match l with
    | [] => true
    | x :: l' => lists x && lists2 l'
    end in
  let lists3 := fix lists3 (l : list (list (list node))) : bool :=
    match l with
    | [] => true
    | x :: l' => lists2 x && lists3 l'
    end in
  match n with
  | Node t f =>
      (if String.eqb t "text" then match f with PText _ => true | _ => false end else true)
      && match f with
         | PContent c | PHeading _ c | PLink c _ _ | PRefLink _ c => lists c
         | PList _ _ items => lists2 items
         | PTable header _ cells => lists2 header && lists3 cells
         | _ => true
         end
  end.

Definition ast_ok (a : ast) : bool :=
  match a with
  | ANode n => tree_ok n
  | AList l => forallb tree_ok l
  end.

(** * Properties of the matcher *)

Section MatcherFacts.
Context (fl : flags) (s : str).

Local Abbreviation sound := (sound fl s).
Local Abbreviation complete := (complete fl s).
Local Abbreviation fresh := (fresh fl s).

Lemma iter_le R n p g p' g' : iter R n p g p' g' -> p <= p'.
Proof.
  revert p g. induction n as [|n IH]; simpl; intros p g.
  - intros [-> _]. lia.
  - intros (p1 & g1 & _ & Hlt & Hit). apply IH in Hit. lia.
Qed.

Lemma iter_count R n p g p' g' : iter R n p g p' g' -> p + n <= p'.
Proof.
  revert p g. induction n as [|n IH]; simpl; intros p g.
  - intros [-> _]. lia.
  - intros (p1 & g1 & _ & Hlt & Hit). apply IH in Hit. lia.
Qed.

Lemma iter_bound R n p g p' g' :
  (forall q h q' h', q <= length s -> R q h q' h' -> q' <= length s) ->
  p <= length s -> iter R n p g p' g' -> p' <= length s.
Proof.
  intros HR. revert p g. induction n as [|n IH]; simpl; intros p g Hp.
  - intros [-> _]. lia.
  - intros (p1 & g1 & H1 & Hlt & Hit). eapply IH; [|exact Hit]. eauto.
Qed.

Lemma lookup_Some_lt (p : nat) (c : ascii) : s !! p = Some c -> p < length s.
Proof. intros H. apply lookup_lt_Some in H. exact H. Qed.

(** A match moves forward by at least [minlen r] and stays inside [s]. *)
Lemma matches_bounds r : forall p g p' g',
  p <= length s -> matches fl s r p g p' g' -> p + minlen r <= p' /\ p' <= length s.
Proof.
  induction r as [| x | neg items | | a IHa b IHb | a IHa b IHb | lz lo hi a IHa
                 | i a IHa | i | neg a IHa | | | ]; simpl; intros p g p' g' Hp H.
  - destruct H as [-> ->]. lia.
  - destruct H as (c & Hc & _ & -> & ->). apply lookup_Some_lt in Hc. lia.
  - destruct H as (c & Hc & _ & -> & ->). apply lookup_Some_lt in Hc. lia.
  - destruct H as (c & Hc & _ & -> & ->). apply lookup_Some_lt in Hc. lia.
  - destruct H as (p1 & g1 & H1 & H2).
    apply IHa in H1 as [? ?]; [|lia]. apply IHb in H2 as [? ?]; lia.
  - destruct H as [H|H]; [apply IHa in H | apply IHb in H]; lia.
  - destruct H as (n & Hit & Hlo & _).
    assert (Hgen : forall n p g, p <= length s -> iter (matches fl s a) n p g p' g' ->
                                 p + n * minlen a <= p' /\ p' <= length s).
    { clear - IHa. induction n as [|n IH]; simpl; intros p g Hp.
      - intros [-> _]. lia.
      - intros (p1 & g1 & H1 & Hlt & Hit). apply IHa in H1 as [? ?]; [|lia].
        apply IH in Hit as [? ?]; lia. }
    apply Hgen in Hit as [? ?]; [|lia]. split; [|lia].
    assert (lo * minlen a <= n * minlen a) by (apply Nat.mul_le_mono_r; lia). lia.
  - destruct H as (g1 & H & ->). apply IHa in H; lia.
  - destruct H as (b & e & _ & _ & Hle & -> & ->). lia.
  - destruct neg; destruct H as (_ & -> & ->); lia.
  - destruct H as (_ & -> & ->). lia.
  - destruct H as (_ & -> & ->). lia.
  - destruct H as (_ & -> & ->). lia.
Qed.

Lemma matches_le r p g p' g' :
  p <= length s -> matches fl s r p g p' g' -> p <= p'.
Proof. intros Hp H. apply matches_bounds in H; lia. Qed.

Lemma matches_inside r p g p' g' :
  p <= length s -> matches fl s r p g p' g' -> p' <= length s.
Proof. intros Hp H. apply matches_bounds in H; lia. Qed.

Lemma iter_nogroups R n p g p' g' :
  (forall q h q' h', R q h q' h' -> h' = h) -> iter R n p g p' g' -> g' = g.
Proof.
  intros HR. revert p g. induction n as [|n IH]; simpl; intros p g.
  - intros [_ ->]. reflexivity.
  - intros (p1 & g1 & H1 & _ & Hit). apply IH in Hit. apply HR in H1. congruence.
Qed.

(** A pattern without groups leaves the groups alone. *)
Lemma matches_nogroups r : forall p g p' g',
  nogroups r = true -> matches fl s r p g p' g' -> g' = g.
Proof.
  induction r as [| x | neg items | | a IHa b IHb | a IHa b IHb | lz lo hi a IHa
                 | i a IHa | i | neg a IHa | | | ]; simpl; intros p g p' g' Hn H;
    try (apply andb_prop in Hn as [Hna Hnb]).
  - tauto.
  - destruct H as (c & _ & _ & _ & ->). reflexivity.
  - destruct H as (c & _ & _ & _ & ->). reflexivity.
  - destruct H as (c & _ & _ & _ & ->). reflexivity.
  - destruct H as (p1 & g1 & H1 & H2). apply IHa in H1; [|assumption].
    apply IHb in H2; [|assumption]. congruence.
  - destruct H as [H|H]; eauto.
  - destruct H as (n & Hit & _). eapply iter_nogroups; [|exact Hit]. eauto.
  - discriminate.
  - destruct H as (b & e & _ & _ & _ & _ & ->). reflexivity.
  - destruct neg; tauto.
  - tauto.
  - tauto.
  - tauto.
Qed.

Lemma rep_sound (body : nat -> groups -> cont -> option mres) R lz lo hi :
  (forall p g k res, p <= length s -> body p g k = Some res ->
     exists p' g', R p g p' g' /\ k p' g' = Some res) ->
  (forall p g p' g', p <= length s -> R p g p' g' -> p' <= length s) ->
  forall fuel cnt p g k res,
    p <= length s -> within hi cnt ->
    rep body lz lo hi fuel cnt p g k = Some res ->
    exists n p' g', iter R n p g p' g' /\ lo <= cnt + n /\ within hi (cnt + n)
                    /\ k p' g' = Some res.
Proof.
  intros Hbody Hin. induction fuel as [|fuel IH]; simpl; intros cnt p g k res Hp Hw H;
    [discriminate|].
  assert (Hstop : forall res, (if lo <=? cnt then k p g else None) = Some res ->
                  exists n p' g', iter R n p g p' g' /\ lo <= cnt + n
                                  /\ within hi (cnt + n) /\ k p' g' = Some res).
  { intros res0 Hs. destruct (Nat.leb_spec lo cnt); [|discriminate].
    exists 0, p, g. simpl. rewrite Nat.add_0_r. auto. }
  assert (Hmore : forall res, (if match hi with Some h => cnt <? h | None => true end
                   then body p g (fun p' g' =>
                          if p <? p' then rep body lz lo hi fuel (S cnt) p' g' k else None)
                   else None) = Some res ->
                  exists n p' g', iter R n p g p' g' /\ lo <= cnt + n
                                  /\ within hi (cnt + n) /\ k p' g' = Some res).
  { intros res0 Hm.
    destruct (match hi with Some h => cnt <? h | None => true end) eqn:Hhi;
      [|discriminate].
    apply Hbody in Hm as (p1 & g1 & HR & Hk); [|assumption].
    destruct (Nat.ltb_spec p p1); [|discriminate].
    apply IH in Hk as (n & p' & g' & Hit & Hlo & Hw' & Hk).
    - exists (S n), p', g'. simpl. replace (cnt + S n) with (S cnt + n) by lia.
      split; [|auto]. exists p1, g1. auto.
    - eauto.
    - destruct hi as [h|]; simpl; [apply Nat.ltb_lt in Hhi; lia|exact I]. }
  destruct lz.
  - destruct (if lo <=? cnt then k p g else None) eqn:Hs.
    + injection H as <-. apply (Hstop _ eq_refl).
    + apply Hmore. exact H.
  - match type of H with
    | match ?e with _ => _ end = _ => destruct e eqn:Hm
    end.
    + injection H as <-. apply (Hmore _ eq_refl).
    + apply Hstop. exact H.
Qed.

Lemma rep_complete (body : nat -> groups -> cont -> option mres)
    (R : nat -> groups -> nat -> groups -> Prop) lz lo hi :
  (forall p g p' g' k res, R p g p' g' -> p <= length s -> k p' g' = Some res ->
     exists res', body p g k = Some res') ->
  (forall p g p' g', p <= length s -> R p g p' g' -> p' <= length s) ->
  forall n fuel cnt p g p' g' k res,
    iter R n p g p' g' -> p <= length s -> length s - p < fuel ->
    lo <= cnt + n -> within hi (cnt + n) -> k p' g' = Some res ->
    exists res', rep body lz lo hi fuel cnt p g k = Some res'.
Proof.
  intros Hbody Hin. induction n as [|n IH]; intros fuel cnt p g p' g' k res Hit Hp Hf Hlo Hw Hk.
  - destruct Hit as [-> ->]. destruct fuel as [|fuel]; [lia|]. simpl.
    rewrite Nat.add_0_r in Hlo. apply Nat.leb_le in Hlo. rewrite Hlo, Hk.
    destruct lz; [eauto|].
    match goal with |- exists _, match ?e with _ => _ end = _ => destruct e end; eauto.
  - destruct Hit as (p1 & g1 & HR & Hlt & Hit).
    destruct fuel as [|fuel]; [lia|]. simpl.
    assert (Hp1 : p1 <= length s) by eauto.
    assert (Hhi : match hi with Some h => cnt <? h | None => true end = true).
    { destruct hi as [h|]; [|reflexivity]. simpl in Hw. apply Nat.ltb_lt. lia. }
    rewrite Hhi.
    assert (Hmore : exists res',
               body p g (fun p' g' =>
                 if p <? p' then rep body lz lo hi fuel (S cnt) p' g' k else None)
               = Some res').
    { destruct (IH fuel (S cnt) p1 g1 p' g' k res) as [r' Hr']; try assumption; try lia.
      - replace (S cnt + n) with (cnt + S n) by lia. assumption.
      - eapply Hbody; [exact HR|assumption|].
        apply Nat.ltb_lt in Hlt. rewrite Hlt. exact Hr'. }
    destruct Hmore as [r' Hr']. rewrite Hr'.
    destruct lz; [|eauto].
    destruct (if lo <=? cnt then k p g else None); eauto.
Qed.

(** The matcher and the relation agree: what [m] returns is a match the
    continuation accepted, and [m] finds a result whenever some match is
    accepted by the continuation. *)
Lemma m_sound_complete r : wf r = true -> sound r /\ complete r.
Proof.
  induction r as [| x | neg items | | a IHa b IHb | a IHa b IHb | lz lo hi a IHa
                 | i a IHa | i | neg a IHa | | | ]; simpl; intros Hwf;
    try (apply andb_prop in Hwf as [Hwa Hwb]).
  - split.
    + intros p g k res _ H. exists p, g. simpl. auto.
    + intros p g p' g' k res [-> ->] _ Hk. simpl. eauto.
  - split.
    + intros p g k res _ H. simpl in H. destruct (s !! p) as [c|] eqn:Hc; [|discriminate].
      destruct (lit_eq fl x c) eqn:He; [|discriminate]. exists (S p), g. simpl. eauto 10.
    + intros p g p' g' k res (c & Hc & He & -> & ->) _ Hk. simpl. rewrite Hc, He. eauto.
  - split.
    + intros p g k res _ H. simpl in H. destruct (s !! p) as [c|] eqn:Hc; [|discriminate].
      destruct (xorb neg (class_has items c)) eqn:He; [|discriminate].
      exists (S p), g. simpl. eauto 10.
    + intros p g p' g' k res (c & Hc & He & -> & ->) _ Hk. simpl. rewrite Hc, He. eauto.
  - split.
    + intros p g k res _ H. simpl in H. destruct (s !! p) as [c|] eqn:Hc; [|discriminate].
      destruct (ascii_eqb c ch_nl) eqn:He; [discriminate|].
      exists (S p), g. simpl. eauto 10.
    + intros p g p' g' k res (c & Hc & He & -> & ->) _ Hk. simpl. rewrite Hc, He. eauto.
  - destruct (IHa Hwa) as [Sa Ca]. destruct (IHb Hwb) as [Sb Cb]. split.
    + intros p g k res Hp H. simpl in H.
      apply Sa in H as (p1 & g1 & H1 & H); [|assumption].
      apply Sb in H as (p2 & g2 & H2 & H); [|eapply matches_inside; eauto].
      exists p2, g2. simpl. eauto.
    + intros p g p' g' k res (p1 & g1 & H1 & H2) Hp Hk. simpl.
      assert (Hp1 : p1 <= length s) by (eapply matches_inside; eauto).
      destruct (Cb _ _ _ _ _ _ H2 Hp1 Hk) as [r' Hr'].
      eapply Ca; [exact H1|assumption|exact Hr'].
  - destruct (IHa Hwa) as [Sa Ca]. destruct (IHb Hwb) as [Sb Cb]. split.
    + intros p g k res Hp H. simpl in H.
      destruct (m fl s a p g k) eqn:Ha.
      * injection H as <-. apply Sa in Ha as (p' & g' & ? & ?); [|assumption].
        exists p', g'. simpl. auto.
      * apply Sb in H as (p' & g' & ? & ?); [|assumption]. exists p', g'. simpl. auto.
    + intros p g p' g' k res [H|H] Hp Hk; simpl.
      * destruct (Ca _ _ _ _ _ _ H Hp Hk) as [r' Hr']. rewrite Hr'. eauto.
      * destruct (m fl s a p g k); [eauto|]. eapply Cb; eauto.
  - destruct (IHa Hwf) as [Sa Ca]. split.
    + intros p g k res Hp H. cbn [m] in H.
      eapply rep_sound in H as (n & p' & g' & Hit & Hlo & Hw & Hk);
        [|exact Sa| |assumption|].
      * exists p', g'. simpl. split; [|assumption]. exists n. auto.
      * intros q h q' h' Hq Hm. eapply matches_inside; eauto.
      * destruct hi; simpl; [lia|exact I].
    + intros p g p' g' k res (n & Hit & Hlo & Hw) Hp Hk. cbn [m].
      eapply rep_complete; try eassumption.
      * intros q h q' h' Hq Hm. eapply matches_inside; eauto.
      * lia.
  - destruct (IHa Hwf) as [Sa Ca]. split.
    + intros p g k res Hp H. simpl in H.
      apply Sa in H as (p' & g' & H1 & Hk); [|assumption].
      exists p', (gset i (p, p') g'). simpl. split; [|assumption]. exists g'. auto.
    + intros p g p' g' k res (g1 & H1 & ->) Hp Hk. simpl.
      eapply Ca; [exact H1|assumption|exact Hk].
  - split.
    + intros p g k res _ H. simpl in H. destruct (gget i g) as [[b e]|] eqn:Hg; [|discriminate].
      destruct (str_eqb _ _ && _)%bool eqn:He; [|discriminate].
      apply andb_prop in He as [He1 He2]. apply bool_decide_eq_true in He1.
      apply Nat.leb_le in He2. exists (p + (e - b)), g. simpl. split; [|assumption].
      exists b, e. auto.
    + intros p g p' g' k res (b & e & Hg & He & Hle & -> & ->) _ Hk. simpl.
      rewrite Hg. unfold str_eqb. rewrite bool_decide_true by assumption.
      apply Nat.leb_le in Hle. rewrite Hle. simpl. eauto.
  - destruct (IHa Hwb) as [Sa Ca]. split.
    + intros p g k res Hp H. simpl in H.
      destruct (m fl s a p g (fun p' g' => Some (p', g'))) as [[p1 g1]|] eqn:Ha.
      * destruct neg; [discriminate|].
        apply Sa in Ha as (p1' & g1' & Hm & Heq); [|assumption]. injection Heq as -> ->.
        assert (g1 = g) by (eapply matches_nogroups; eauto). subst g1.
        exists p, g. simpl. eauto 10.
      * destruct neg; [|discriminate]. exists p, g. simpl. split; [|assumption].
        split; [|auto]. intros p1 g1 Hm.
        destruct (Ca p g p1 g1 (fun p' g' => Some (p', g')) (p1, g1) Hm Hp eq_refl)
          as [r' Hr']. congruence.
    + intros p g p' g' k res H Hp Hk. simpl. destruct neg.
      * destruct H as (Hno & -> & ->).
        destruct (m fl s a p g (fun p' g' => Some (p', g'))) as [[p1 g1]|] eqn:Ha; [|eauto].
        apply Sa in Ha as (p1' & g1' & Hm & _); [|assumption]. exfalso. eapply Hno; eauto.
      * destruct H as ((p1 & g1 & Hm) & -> & ->).
        destruct (Ca p g p1 g1 (fun p' g' => Some (p', g')) (p1, g1) Hm Hp eq_refl)
          as [[p2 g2] Hr']. rewrite Hr'.
        apply Sa in Hr' as (p2' & g2' & Hm2 & Heq); [|assumption]. injection Heq as -> ->.
        assert (g2 = g) by (eapply matches_nogroups; eauto). subst g2. eauto.
  - split.
    + intros p g k res _ H. simpl in H. destruct (at_bol fl s p) eqn:He; [|discriminate].
      exists p, g. simpl. auto.
    + intros p g p' g' k res (He & -> & ->) _ Hk. simpl. rewrite He. eauto.
  - split.
    + intros p g k res _ H. simpl in H. destruct (at_eol fl s p) eqn:He; [|discriminate].
      exists p, g. simpl. auto.
    + intros p g p' g' k res (He & -> & ->) _ Hk. simpl. rewrite He. eauto.
  - split.
    + intros p g k res _ H. simpl in H. destruct (at_wordb s p) eqn:He; [|discriminate].
      exists p, g. simpl. auto.
    + intros p g p' g' k res (He & -> & ->) _ Hk. simpl. rewrite He. eauto.
Qed.

Lemma opt_min_l (a b : option nat) x :
  a = Some x -> exists n, opt_min a b = Some n /\ n <= x.
Proof. intros ->. destruct b as [y|]; simpl; eexists; split; eauto; lia. Qed.

Lemma opt_min_r (a b : option nat) y :
  b = Some y -> exists n, opt_min a b = Some n /\ n <= y.
Proof. intros ->. destruct a as [x|]; simpl; eexists; split; eauto; lia. Qed.

Lemma fresh_cat_l i a b p p1 p' g1 g' :
  fresh i a p p1 g1 -> gget i g' = gget i g1 -> p1 + minlen b <= p' ->
  fresh i (Cat a b) p p' g'.
Proof.
  intros (b0 & e0 & n & Hg & Hs & ?) Heq Hle.
  destruct (opt_min_l (option_map (fun x => x + minlen b) (slack i a))
              (option_map (fun y => minlen a + y) (slack i b)) (n + minlen b))
    as (n' & Hn' & Hle'); [rewrite Hs; reflexivity|].
  exists b0, e0, n'. simpl. rewrite Heq, Hg, Hn'. repeat split; try lia; auto.
Qed.

Lemma fresh_cat_r i a b p p1 p' g' :
  fresh i b p1 p' g' -> p + minlen a <= p1 -> fresh i (Cat a b) p p' g'.
Proof.
  intros (b0 & e0 & n & Hg & Hs & ?) Hle.
  destruct (opt_min_r (option_map (fun x => x + minlen b) (slack i a))
              (option_map (fun y => minlen a + y) (slack i b)) (minlen a + n))
    as (n' & Hn' & Hle'); [rewrite Hs; reflexivity|].
  exists b0, e0, n'. simpl. rewrite Hg, Hn'. repeat split; try lia; auto.
Qed.

Lemma fresh_or_l i a b p p' g' : fresh i a p p' g' -> fresh i (Or a b) p p' g'.
Proof.
  intros (b0 & e0 & n & Hg & Hs & ?).
  destruct (opt_min_l (slack i a) (slack i b) n Hs) as (n' & Hn' & Hle).
  exists b0, e0, n'. simpl. rewrite Hg, Hn'. repeat split; try lia; auto.
Qed.

Lemma fresh_or_r i a b p p' g' : fresh i b p p' g' -> fresh i (Or a b) p p' g'.
Proof.
  intros (b0 & e0 & n & Hg & Hs & ?).
  destruct (opt_min_r (slack i a) (slack i b) n Hs) as (n' & Hn' & Hle).
  exists b0, e0, n'. simpl. rewrite Hg, Hn'. repeat split; try lia; auto.
Qed.

Lemma fresh_widen i a lz lo hi p q q' p' g1 g' :
  fresh i a q q' g1 -> gget i g' = gget i g1 -> p <= q -> q' <= p' ->
  fresh i (Rep lz lo hi a) p p' g'.
Proof.
  intros (b0 & e0 & n & Hg & Hs & ?) Heq ? ?.
  exists b0, e0, n. simpl. rewrite Heq, Hg. repeat split; try lia; auto.
Qed.

Lemma iter_slack i a lz lo hi :
  (forall p g p' g', p <= length s -> matches fl s a p g p' g' ->
     gget i g' = gget i g \/ fresh i a p p' g') ->
  forall n p g p' g', p <= length s -> iter (matches fl s a) n p g p' g' ->
    gget i g' = gget i g \/ fresh i (Rep lz lo hi a) p p' g'.
Proof.
  intros IHa. induction n as [|n IH]; simpl; intros p g p' g' Hp Hit.
  - destruct Hit as [_ ->]. auto.
  - destruct Hit as (p1 & g1 & H1 & Hlt & Hit).
    pose proof (matches_bounds _ _ _ _ _ Hp H1) as [Ha1 Ha2].
    assert (Hp1 : p1 <= p') by (eapply iter_le; eauto).
    destruct (IH _ _ _ _ Ha2 Hit) as [Heq|(b0 & e0 & n0 & Hg & Hs & ?)].
    + rewrite Heq. destruct (IHa _ _ _ _ Hp H1) as [Heq'|Hf]; [auto|right].
      eapply fresh_widen; eauto.
    + right. exists b0, e0, n0. repeat split; try lia; auto.
Qed.

Lemma matches_slack i r : forall p g p' g',
  p <= length s -> matches fl s r p g p' g' ->
  gget i g' = gget i g \/ fresh i r p p' g'.
Proof.
  induction r as [| x | neg items | | a IHa b IHb | a IHa b IHb | lz lo hi a IHa
                 | j a IHa | j | neg a IHa | | | ]; simpl; intros p g p' g' Hp H.
  - destruct H as [_ ->]. auto.
  - destruct H as (c & _ & _ & _ & ->). auto.
  - destruct H as (c & _ & _ & _ & ->). auto.
  - destruct H as (c & _ & _ & _ & ->). auto.
  - destruct H as (p1 & g1 & H1 & H2).
    pose proof (matches_bounds _ _ _ _ _ Hp H1) as [Ha1 Ha2].
    pose proof (matches_bounds _ _ _ _ _ Ha2 H2) as [Hb1 Hb2].
    destruct (IHb _ _ _ _ Ha2 H2) as [Heq|Hf].
    + rewrite Heq. destruct (IHa _ _ _ _ Hp H1) as [Heq'|Hf]; [auto|right].
      eapply fresh_cat_l; eauto.
    + right. eapply fresh_cat_r; eauto.
  - destruct H as [H|H].
    + destruct (IHa _ _ _ _ Hp H) as [Heq|Hf]; [auto|right]. apply fresh_or_l; auto.
    + destruct (IHb _ _ _ _ Hp H) as [Heq|Hf]; [auto|right]. apply fresh_or_r; auto.
  - destruct H as (n & Hit & _). eapply iter_slack; eauto.
  - destruct H as (g1 & H & ->). simpl.
    pose proof (matches_bounds _ _ _ _ _ Hp H) as [Ha1 Ha2].
    destruct (Nat.eqb_spec i j) as [->|Hne].
    + right. exists p, p', 0. simpl. rewrite Nat.eqb_refl. repeat split; try lia; auto.
    + destruct (IHa _ _ _ _ Hp H) as [Heq|(b0 & e0 & n & Hg & Hs & ?)]; [auto|right].
      exists b0, e0, n. simpl. apply Nat.eqb_neq in Hne. rewrite Hne.
      repeat split; try lia; auto.
  - destruct H as (b & e & _ & _ & _ & _ & ->). auto.
  - destruct neg; destruct H as (_ & _ & ->); auto.
  - destruct H as (_ & _ & ->). auto.
  - destruct H as (_ & _ & ->). auto.
  - destruct H as (_ & _ & ->). auto.
Qed.

(** A group that every match binds is bound by this match. *)
Lemma matches_binds i r : forall p g p' g',
  p <= length s -> binds i r = true -> matches fl s r p g p' g' -> fresh i r p p' g'.
Proof.
  induction r as [| x | neg items | | a IHa b IHb | a IHa b IHb | lz lo hi a IHa
                 | j a IHa | j | neg a IHa | | | ]; simpl; intros p g p' g' Hp Hb H;
    try discriminate.
  - destruct H as (p1 & g1 & H1 & H2).
    pose proof (matches_bounds _ _ _ _ _ Hp H1) as [Ha1 Ha2].
    pose proof (matches_bounds _ _ _ _ _ Ha2 H2) as [Hb1 Hb2].
    apply orb_prop in Hb as [Hb|Hb].
    + destruct (matches_slack i b _ _ _ _ Ha2 H2) as [Heq|Hf].
      * eapply fresh_cat_l; eauto.
      * eapply fresh_cat_r; eauto.
    + eapply fresh_cat_r; eauto.
  - apply andb_prop in Hb as [Hba Hbb]. destruct H as [H|H].
    + apply fresh_or_l; eauto.
    + apply fresh_or_r; eauto.
  - apply andb_prop in Hb as [Hlo Hb]. apply Nat.ltb_lt in Hlo.
    destruct H as (n & Hit & Hn & _). destruct n as [|n]; [lia|].
    destruct Hit as (p1 & g1 & H1 & Hlt & Hit).
    pose proof (matches_bounds _ _ _ _ _ Hp H1) as [Ha1 Ha2].
    assert (Hp1 : p1 <= p') by (eapply iter_le; eauto).
    destruct (iter_slack i a lz lo hi (matches_slack i a) _ _ _ _ _ Ha2 Hit)
      as [Heq|(b0 & e0 & n0 & Hg & Hs & ?)].
    + eapply fresh_widen; eauto.
    + exists b0, e0, n0. repeat split; try lia; auto.
  - destruct H as (g1 & H & ->).
    pose proof (matches_bounds _ _ _ _ _ Hp H) as [Ha1 Ha2].
    destruct (Nat.eqb_spec i j) as [->|Hne].
    + exists p, p', 0. simpl. rewrite Nat.eqb_refl. repeat split; try lia; auto.
    + simpl in Hb. destruct (IHa _ _ _ _ Hp Hb H) as (b0 & e0 & n & Hg & Hs & ?).
      exists b0, e0, n. simpl. apply Nat.eqb_neq in Hne. rewrite Hne.
      repeat split; try lia; auto.
Qed.
End MatcherFacts.

(** * Properties of [re.match], [re.search], [re.sub] and [re.finditer] *)

Lemma length_substr (b e : nat) (s : str) :
  e <= length s -> length (substr b e s) = e - b.
Proof. intros H. unfold substr. rewrite length_take, length_drop. lia. Qed.

Lemma length_substr_le (b e : nat) (s : str) : length (substr b e s) <= e - b.
Proof. unfold substr. rewrite length_take. lia. Qed.

Lemma substr_0 (e : nat) (s : str) : substr 0 e s = take e s.
Proof. unfold substr. rewrite Nat.sub_0_r, drop_0. reflexivity. Qed.

Lemma substr_nil (b : nat) (s : str) : substr b b s = [].
Proof. unfold substr. rewrite Nat.sub_diag. reflexivity. Qed.

Lemma substr_app_drop (p q : nat) (s : str) :
  p <= q -> q <= length s -> substr p q s ++ drop q s = drop p s.
Proof.
  intros Hpq Hq. unfold substr.
  replace (drop q s) with (drop (q - p) (drop p s)).
  - apply take_drop.
  - rewrite drop_drop. f_equal. lia.
Qed.

Section Ops.
Context (fl : flags) (r : regex) (Hwf : wf r = true).

Lemma match_at_sound s p c :
  p <= length s -> match_at fl r s p = Some c -> valid fl r s c /\ c_start c = p.
Proof using Hwf.
  intros Hp H. unfold match_at in H.
  destruct (m fl s r p [] (fun p' g' => Some (p', g'))) as [[e g]|] eqn:Hm; [|discriminate].
  injection H as <-. simpl.
  destruct (m_sound_complete fl s r Hwf) as [Hs _].
  apply Hs in Hm as (p' & g' & Hmat & Heq); [|assumption]. injection Heq as -> ->.
  unfold valid. simpl. auto.
Qed.

Lemma match_at_complete s p p' g' :
  p <= length s -> matches fl s r p [] p' g' -> exists c, match_at fl r s p = Some c.
Proof using Hwf.
  intros Hp H. unfold match_at.
  destruct (m_sound_complete fl s r Hwf) as [_ Hc].
  destruct (Hc p [] p' g' (fun p' g' => Some (p', g')) (p', g') H Hp eq_refl) as [[e g] ->].
  eauto.
Qed.

Lemma valid_bounds s c :
  valid fl r s c -> c_start c + minlen r <= c_end c /\ c_end c <= length s.
Proof. intros (_ & Hp & H). eapply matches_bounds; eauto. Qed.

Lemma valid_whole_length s c :
  valid fl r s c -> length (whole c) = c_end c - c_start c.
Proof.
  intros Hv. pose proof (valid_bounds _ _ Hv) as [_ He].
  destruct Hv as (Hs & _ & _). unfold whole. rewrite Hs. apply length_substr. assumption.
Qed.

Lemma valid_minlen s c : valid fl r s c -> minlen r <= length (whole c).
Proof.
  intros Hv. rewrite (valid_whole_length _ _ Hv).
  pose proof (valid_bounds _ _ Hv). lia.
Qed.

(** A group of a match is no longer than the match, by the pattern's slack. *)
Lemma valid_group s c i x :
  valid fl r s c -> group c i = Some x ->
  exists n, slack i r = Some n /\ length x + n <= length (whole c).
Proof.
  intros Hv Hg. rewrite (valid_whole_length _ _ Hv).
  pose proof (valid_bounds _ _ Hv) as [_ He].
  destruct Hv as (Hs & Hp & Hm). unfold group in Hg.
  destruct (gget i (c_groups c)) as [[b e]|] eqn:Hgg; [|discriminate].
  injection Hg as <-.
  destruct (matches_slack fl s i r _ _ _ _ Hp Hm) as [Heq|(b0 & e0 & n & Hg0 & Hsl & ?)].
  - simpl in Heq. congruence.
  - rewrite Hgg in Hg0. injection Hg0 as -> ->. exists n. split; [assumption|].
    rewrite Hs. rewrite length_substr by lia. lia.
Qed.

Lemma valid_group_le s c i x :
  valid fl r s c -> group c i = Some x -> length x <= length (whole c).
Proof. intros Hv Hg. destruct (valid_group _ _ _ _ Hv Hg) as (n & _ & ?). lia. Qed.

(** A group that the pattern always binds is there. *)
Lemma valid_binds s c i :
  valid fl r s c -> binds i r = true -> exists x, group c i = Some x.
Proof.
  intros (Hs & Hp & Hm) Hb.
  destruct (matches_binds fl s i r _ _ _ _ Hp Hb Hm) as (b & e & n & Hg & _).
  unfold group. rewrite Hg. eauto.
Qed.

Lemma re_match_valid s c : re_match fl r s = Some c -> valid fl r s c /\ c_start c = 0.
Proof using Hwf. apply match_at_sound. lia. Qed.

Lemma re_match_whole s c : re_match fl r s = Some c -> whole c = take (c_end c) s.
Proof using Hwf.
  intros H. apply re_match_valid in H as [(Hs & _) H0].
  unfold whole. rewrite H0, Hs. apply substr_0.
Qed.

Lemma re_match_whole_le s c : re_match fl r s = Some c -> length (whole c) <= length s.
Proof using Hwf.
  intros H. rewrite (re_match_whole _ _ H), length_take. lia.
Qed.

Lemma search_from_sound s : forall n p c,
  p + n <= length s -> search_from fl r s n p = Some c ->
  valid fl r s c /\ p <= c_start c /\ c_start c <= p + n /\
  forall q, p <= q -> q < c_start c -> match_at fl r s q = None.
Proof using Hwf.
  induction n as [|n IH]; simpl; intros p c Hp H.
  - destruct (match_at fl r s p) eqn:Hm; [|discriminate]. injection H as ->.
    apply match_at_sound in Hm as [Hv Hst]; [|lia]. rewrite Hst.
    split; [exact Hv|]. split; [lia|]. split; [lia|]. intros q ? ?. lia.
  - destruct (match_at fl r s p) eqn:Hm.
    + injection H as ->. apply match_at_sound in Hm as [Hv Hst]; [|lia]. rewrite Hst.
      split; [exact Hv|]. split; [lia|]. split; [lia|]. intros q ? ?. lia.
    + apply IH in H as (Hv & H1 & H2 & H3); [|lia].
      split; [exact Hv|]. split; [lia|]. split; [lia|].
      intros q Hq1 Hq2. destruct (Nat.eq_dec q p) as [->|]; [assumption|].
      apply H3; lia.
Qed.

Lemma search_from_none s : forall n p,
  search_from fl r s n p = None -> forall q, p <= q -> q <= p + n -> match_at fl r s q = None.
Proof.
  induction n as [|n IH]; simpl; intros p H q Hq1 Hq2.
  - destruct (match_at fl r s p) eqn:Hm; [discriminate|].
    replace q with p by lia. assumption.
  - destruct (match_at fl r s p) eqn:Hm; [discriminate|].
    destruct (Nat.eq_dec q p) as [->|]; [assumption|]. eapply IH; eauto; lia.
Qed.

Lemma search_from_hit s n p c :
  match_at fl r s p = Some c -> search_from fl r s n p = Some c.
Proof. intros H. destruct n; simpl; rewrite H; reflexivity. Qed.

(** Replacing by a constant [t]; [d] bounds how much longer than a match
    [t] can be. *)
Lemma sub_from_length (t : str) (d : nat) s count :
  length t <= minlen r + d ->
  forall fuel p done, p <= length s ->
    length (sub_from fl r (fun _ => t) s count fuel p done)
    <= length s - p + d * (if Nat.eqb count 0 then fuel else count - done).
Proof using Hwf.
  intros Ht. induction fuel as [|fuel IH]; simpl; intros p done Hp.
  - rewrite length_drop. lia.
  - destruct (negb (count =? 0) && (count <=? done))%bool eqn:Hc.
    + rewrite length_drop. lia.
    + destruct (search_from fl r s (length s - p) p) as [c|] eqn:Hsr.
      * apply search_from_sound in Hsr as (Hv & H1 & H2 & _); [|lia].
        pose proof (valid_bounds _ _ Hv) as [Hb1 Hb2].
        assert (Hd : 1 + (if count =? 0 then fuel else count - S done)
                     <= (if count =? 0 then S fuel else count - done)).
        { destruct (Nat.eqb_spec count 0); [lia|]. simpl in Hc.
          apply Nat.leb_gt in Hc. lia. }
        rewrite !length_app.
        pose proof (length_substr_le p (c_start c) s).
        assert (Hrest : length
                  (if c_start c <? c_end c
                   then sub_from fl r (fun _ => t) s count fuel (c_end c) (S done)
                   else if c_end c <? length s
                        then substr (c_end c) (S (c_end c)) s ++
                             sub_from fl r (fun _ => t) s count fuel (S (c_end c)) (S done)
                        else [])
                  <= length s - c_end c
                     + d * (if count =? 0 then fuel else count - S done)).
        { destruct (Nat.ltb_spec (c_start c) (c_end c)).
          - apply IH. lia.
          - destruct (Nat.ltb_spec (c_end c) (length s)).
            + rewrite length_app. pose proof (length_substr_le (c_end c) (S (c_end c)) s).
              pose proof (IH (S (c_end c)) (S done)). lia.
            + simpl. lia. }
        nia.
      * rewrite length_drop. lia.
Qed.

(** A replacement no longer than the shortest match does not lengthen. *)
Lemma re_sub_le (t : str) s count :
  length t <= minlen r -> length (re_sub fl r (fun _ => t) s count) <= length s.
Proof using Hwf.
  intros Ht. unfold re_sub.
  pose proof (sub_from_length t 0 s count ltac:(lia) (S (length s)) 0 0 ltac:(lia)). lia.
Qed.

(** One replacement lengthens by at most the excess of [t]. *)
Lemma re_sub_once_le (t : str) (d : nat) s :
  length t <= minlen r + d -> length (re_sub fl r (fun _ => t) s 1) <= length s + d.
Proof using Hwf.
  intros Ht. unfold re_sub.
  pose proof (sub_from_length t d s 1 Ht (S (length s)) 0 0 ltac:(lia)). simpl in *. lia.
Qed.
End Ops.
(** * The parse engine: selection and termination *)

Lemma wp_ret {E A} (a : A) st (Q : A -> state -> Prop) : Q a st -> wp E (ret a) st Q.
Proof. intros H. exact H. Qed.

Lemma wp_bind {E A B} (c : M A) (f : A -> M B) st (Q : B -> state -> Prop) :
  wp E c st (fun a st1 => wp E (f a) st1 Q) -> wp E (bind c f) st Q.
Proof.
  unfold wp, bind. destruct (c st) as [a st1|msg|]; auto.
Qed.

Lemma wp_get {E} st (Q : state -> state -> Prop) : Q st st -> wp E get_state st Q.
Proof. intros H. exact H. Qed.

Lemma wp_update {E} f st (Q : unit -> state -> Prop) :
  Q tt (f st) -> wp E (update f) st Q.
Proof. intros H. exact H. Qed.

Lemma wp_raise {E A} msg st (Q : A -> state -> Prop) : E msg -> wp E (raise msg) st Q.
Proof. intros H. exact H. Qed.

Lemma wp_mono {E A} (c : M A) st (Q Q' : A -> state -> Prop) :
  wp E c st Q -> (forall a st', Q a st' -> Q' a st') -> wp E c st Q'.
Proof. unfold wp. intros Hc H. destruct (c st) as [a st'|msg|]; auto. Qed.

Lemma wp_group_str {E A} (c : capture) i x (f : str -> M A) st Q :
  group c i = Some x -> wp E (f x) st Q -> wp E (bind (group_str c i) f) st Q.
Proof.
  intros Hg H. apply wp_bind. unfold group_str. rewrite Hg. apply wp_ret. exact H.
Qed.

Lemma wp_outcome_ok {E A} (c : M A) st a st' (Q : A -> state -> Prop) :
  c st = Ok a st' -> Q a st' -> wp E c st Q.
Proof. unfold wp. intros -> H. exact H. Qed.

Lemma wp_outcome_raise {E A} (c : M A) st msg (Q : A -> state -> Prop) :
  c st = Raise msg -> E msg -> wp E c st Q.
Proof. unfold wp. intros -> H. exact H. Qed.

(** A run that ends under some [E] ends. *)
Lemma wp_ends {E A} (c : M A) st Q : wp E c st Q -> ends (c st) = true.
Proof. unfold wp. destruct (c st); intros H; [reflexivity|reflexivity|destruct H]. Qed.

(** A run that returns has what [wp] promises. *)
Lemma wp_returns {E A} (c : M A) st Q a st' : wp E c st Q -> c st = Ok a st' -> Q a st'.
Proof. unfold wp. intros H Hc. rewrite Hc in H. exact H. Qed.

(** A run that ends and cannot raise returns. *)
Lemma wp_total {A} (c : M A) st Q :
  wp (fun _ => False) c st Q -> exists a st', c st = Ok a st' /\ Q a st'.
Proof. unfold wp. destruct (c st) as [a st'|msg|]; intros H; [eauto|destruct H..]. Qed.

(** ** The addresses of a tree *)

Lemma node_locs_lists (l : list node) :
  (fix lists (l : list node) : list nat :=
     match l with
     | [] => []
     | x :: l' => node_locs x ++ lists l'
     end) l = tree_locs l.
Proof. induction l as [|x l IH]; simpl; [reflexivity|]. f_equal; try exact IH. Qed.

Lemma node_locs_lists2 (l : list (list node)) :
  (fix lists2 (l : list (list node)) : list nat :=
     match l with
     | [] => []
     | x :: l' =>
         (fix lists (l : list node) : list nat :=
            match l with
            | [] => []
            | x :: l' => node_locs x ++ lists l'
            end) x ++ lists2 l'
     end) l = flat_map tree_locs l.
Proof.
  induction l as [|x l IH]; simpl; [reflexivity|].
  rewrite node_locs_lists. f_equal; try exact IH.
Qed.

Lemma node_locs_lists3 (l : list (list (list node))) :
  (fix lists3 (l : list (list (list node))) : list nat :=
     match l with
     | [] => []
     | x :: l' =>
         (fix lists2 (l : list (list node)) : list nat :=
            match l with
            | [] => []
            | x :: l' =>
                (fix lists (l : list node) : list nat :=
                   match l with
                   | [] => []
                   | x :: l' => node_locs x ++ lists l'
                   end) x ++ lists2 l'
            end) x ++ lists3 l'
     end) l = flat_map (flat_map tree_locs) l.
Proof.
  induction l as [|x l IH]; simpl; [reflexivity|].
  rewrite node_locs_lists2. f_equal; try exact IH.
Qed.

(** The addresses of a node, by the shape of its fields. *)
Lemma node_locs_eq t f :
  node_locs (Node t f) =
  match f with
  | PRefLink loc c => loc :: tree_locs c
  | PRefImage loc _ => [loc]
  | PContent c | PHeading _ c | PLink c _ _ => tree_locs c
  | PList _ _ items => flat_map tree_locs items
  | PTable header _ cells => flat_map tree_locs header ++ flat_map (flat_map tree_locs) cells
  | _ => []
  end.
Proof.
  destruct f; cbn [node_locs];
    rewrite ?node_locs_lists, ?node_locs_lists2, ?node_locs_lists3; reflexivity.
Qed.

Lemma tree_locs_app (a b : list node) : tree_locs (a ++ b) = tree_locs a ++ tree_locs b.
Proof. unfold tree_locs. apply flat_map_app. Qed.

Lemma below_mono st st' locs :
  length (heap st) <= length (heap st') -> below st locs -> below st' locs.
Proof.
  intros Hle H. unfold below in *. eapply Forall_impl; [exact H|].
  simpl. intros loc Hloc. lia.
Qed.

Lemma below_app st a b : below st (a ++ b) <-> below st a /\ below st b.
Proof. unfold below. apply Forall_app. Qed.

Lemma locs_ok_nil st : locs_ok st [].
Proof. constructor. Qed.

Lemma locs_ok_cons st n nodes :
  locs_ok st (n :: nodes) <-> locs_ok st [n] /\ locs_ok st nodes.
Proof.
  unfold locs_ok, below, tree_locs. cbn [flat_map]. rewrite app_nil_r, Forall_app. reflexivity.
Qed.

Lemma locs_ok_app st a b : locs_ok st (a ++ b) <-> locs_ok st a /\ locs_ok st b.
Proof. unfold locs_ok, below. rewrite tree_locs_app, Forall_app. reflexivity. Qed.

Lemma locs_ok_mono st st' nodes :
  length (heap st) <= length (heap st') -> locs_ok st nodes -> locs_ok st' nodes.
Proof.
  intros Hle H. unfold locs_ok, below in *. eapply Forall_impl; [exact H|].
  simpl. intros loc Hloc. lia.
Qed.

(** A node without a reference of its own is as good as its children. *)
Lemma locs_ok_node st t f children :
  node_locs (Node t f) = tree_locs children -> locs_ok st children ->
  locs_ok st [Node t f].
Proof.
  intros Heq H. unfold locs_ok, below, tree_locs at 1. cbn [flat_map]. rewrite app_nil_r, Heq. exact H.
Qed.

Lemma locs_ok_leaf st t f : node_locs (Node t f) = [] -> locs_ok st [Node t f].
Proof. intros Heq. apply (locs_ok_node st t f []); [exact Heq|constructor]. Qed.

Lemma length_patch_refs locs target title : forall h,
  length (patch_refs locs target title h) = length h.
Proof.
  unfold patch_refs. induction locs as [|l locs IH]; intros h; simpl; [reflexivity|].
  rewrite IH. apply length_insert.
Qed.

Lemma length_heap_record_def name target title st :
  length (heap (record_def name target title st)) = length (heap st).
Proof.
  unfold record_def. destruct (_refs st !! name); simpl; [|reflexivity].
  apply length_patch_refs.
Qed.

Lemma length_heap_register_ref ref st :
  length (heap (register_ref ref st)) = S (length (heap st)).
Proof. unfold register_ref. simpl. rewrite length_app. simpl. lia. Qed.

Section Engine.
(** The exceptions a run may raise, and an invariant of the parse state
    that the flags do not touch. *)
Context (E : string -> Prop).
Context (I : state -> Prop).
Context (I_inline : forall b st, I st -> I (set_inline b st)).
Context (I_list : forall b st, I st -> I (set_list b st)).
Context (I_in_table : forall b st, I st -> I (set_in_table b st)).
Context (I_previous : forall c st, I st -> I (set_previous_capture c st)).

Local Abbreviation wp := (wp E).
Local Abbreviation post := (post I).
Local Abbreviation callback_ok := (callback_ok E I).
Local Abbreviation rule_ok := (rule_ok E I).

Lemma wp_callback {A} n parse o st (f : list node -> M A) Q :
  callback_ok n parse -> olen o < n -> I st ->
  (forall nodes st', post st nodes st' -> wp (f nodes) st' Q) ->
  wp (bind (parse o) f) st Q.
Proof.
  intros Hcb Ho HI Hf. apply wp_bind. eapply wp_mono; [apply Hcb; assumption|].
  intros nodes st' Hpost. auto.
Qed.

Lemma wp_parse_inline {A} n parse o st (f : list node -> M A) Q :
  callback_ok n parse -> olen o < n -> I st ->
  (forall nodes st', post st nodes st' -> wp (f nodes) st' Q) ->
  wp (bind (parse_inline parse o) f) st Q.
Proof using I_inline.
  intros Hcb Ho HI Hf. unfold parse_inline.
  apply wp_bind, wp_bind, wp_get. apply wp_bind, wp_update.
  eapply wp_callback; eauto.
  intros nodes st' (Ht & HI' & Hl & Hh). apply wp_bind, wp_update. apply wp_ret.
  apply Hf. repeat split; auto.
Qed.

(** The result of a rule that wraps the nodes of one callback. *)
Lemma post_wrap name d st nodes st' :
  post st nodes st' ->
  text_ok (typed_as name d) ->
  node_locs (typed_as name d) = tree_locs nodes ->
  post st [typed_as name d] st'.
Proof.
  intros (Ht & HI' & Hl & Hh) Hty Heq. repeat split; auto.
  unfold typed_as in *. eapply locs_ok_node; eauto.
Qed.

(** The result of a rule that parses nothing. *)
Lemma post_leaf name d st :
  I st -> text_ok (typed_as name d) -> node_locs (typed_as name d) = [] ->
  post st [typed_as name d] st.
Proof.
  intros HI Hty Heq. repeat split; auto.
  unfold typed_as in *. apply locs_ok_leaf. exact Heq.
Qed.

Lemma wp_parse_capture_inline name n parse cap st :
  callback_ok n parse -> olen (group cap 1) < n -> I st -> name <> "text"%string ->
  wp (parse_capture_inline cap parse) st (fun d st' => post st [typed_as name d] st').
Proof using I_inline.
  intros Hcb Ho HI Hname. unfold parse_capture_inline.
  eapply wp_parse_inline; eauto.
  intros nodes st' Hpost. apply wp_ret. eapply post_wrap; [exact Hpost| |].
  - intros Hty. simpl in Hty. congruence.
  - unfold typed_as. simpl. apply node_locs_eq.
Qed.

(** ** Selection *)

Section Scan.
Context (rules : rules_t) (source : str) (st : state).

Let prev := previous_capture_string st.

Local Abbreviation sel_ok := (sel_ok rules source st).
Local Abbreviation quality_ok := (quality_ok rules st).

Lemma scan_sound : forall rl first best quality cur sel,
  (forall b, best = Some b -> sel_ok b) ->
  scan rules source st rl first best quality cur = Some sel -> sel_ok sel.
Proof.
  induction rl as [|name rl IH]; simpl; intros first best quality cur sel Hb H.
  - apply Hb. assumption.
  - destruct (rules_get rules name) as [rule|] eqn:Hr; [|apply Hb; assumption].
    destruct (first || _ || _)%bool; [|apply Hb; assumption].
    fold prev in H.
    destruct (rule_match rule source st prev) as [cap|] eqn:Hm.
    + destruct (negb _).
      * eapply IH; [|exact H]. intros b Heq. injection Heq as <-. simpl. auto.
      * eapply IH; [|exact H]. assumption.
    + eapply IH; [|exact H]. assumption.
Qed.

Lemma select_sound rl sel : select rules rl source st = Some sel -> sel_ok sel.
Proof.
  unfold select. intros H. eapply scan_sound; [|exact H]. intros b Hb. discriminate.
Qed.

Lemma scan_keeps : forall rl first b quality cur,
  exists sel, scan rules source st rl first (Some b) quality cur = Some sel.
Proof.
  induction rl as [|name rl IH]; simpl; intros first b quality cur; [eauto|].
  destruct (rules_get rules name) as [rule|]; [|eauto].
  destruct (first || _ || _)%bool; [|eauto].
  destruct (rule_match rule source st _); [|apply IH].
  destruct (negb _); apply IH.
Qed.

Lemma scan_finds : quality_ok -> forall rl first cur,
  (forall name, In name rl -> rules_get rules name <> None) ->
  (exists name rule cap, In name rl /\ rules_get rules name = Some rule /\
                         rule_match rule source st prev = Some cap) ->
  exists sel, scan rules source st rl first None (-1) cur = Some sel.
Proof.
  intros Hq. induction rl as [|name rl IH]; simpl; intros first cur Hall Hex.
  - destruct Hex as (? & ? & ? & [] & _).
  - destruct (rules_get rules name) as [rule|] eqn:Hr;
      [|exfalso; eapply Hall; eauto].
    rewrite orb_true_r. simpl. fold prev.
    destruct (rule_match rule source st prev) as [cap|] eqn:Hm.
    + assert (Hadopt : negb (Qle_bool
                 match r_quality rule with
                 | Some q => q cap st prev
                 | None => 0%Q
                 end (-1)) = true).
      { destruct (r_quality rule) as [q|] eqn:Hrq.
        - pose proof (Hq _ _ _ cap Hr Hrq) as Hq'. fold prev in Hq'.
    rewrite Hq'. reflexivity.
        - reflexivity. }
      rewrite Hadopt. apply scan_keeps.
    + apply IH.
      * intros n Hn. apply Hall. auto.
      * destruct Hex as (n & rule' & cap' & [<-|Hin] & Hr' & Hm'); [congruence|].
        eauto 10.
Qed.
End Scan.

(** ** Termination of [nested_parse] *)

Section Total.
Context (rules : rules_t) (rule_list : list string).
Context (Hrules : forall name rule, rules_get rules name = Some rule -> rule_ok name rule).
Context (Hselect : forall c source st,
            exists sel, select rules rule_list (c :: source) st = Some sel).

Lemma nested_parse_None fuel : nested_parse rules rule_list fuel None = ret [].
Proof. destruct fuel; reflexivity. Qed.

Lemma nested_parse_nil fuel : nested_parse rules rule_list fuel (Some []) = ret [].
Proof. destruct fuel; reflexivity. Qed.

Lemma post_nil st : I st -> post st [] st.
Proof. intros HI. repeat split; auto. apply locs_ok_nil. Qed.

Lemma nested_parse_total : forall fuel source st,
  length source < fuel -> I st ->
  wp (nested_parse rules rule_list fuel (Some source)) st (post st).
Proof using I_previous Hrules Hselect.
  induction fuel as [|fuel IH]; intros source st Hlen HI; [lia|].
  destruct source as [|c source].
  { rewrite nested_parse_nil. apply wp_ret. apply post_nil. assumption. }
  cbn [nested_parse]. apply wp_bind, wp_get.
  destruct (Hselect c source st) as [[[rule_type rule] cap] Hsel].
  destruct rule_list as [|r0 rl] eqn:Hrl.
  { unfold select in Hsel. simpl in Hsel. discriminate. }
  rewrite Hsel.
  assert (Hok : sel_ok rules (c :: source) st (rule_type, rule, cap)).
  { unfold select in Hsel. eapply scan_sound; [|exact Hsel]. intros b Hb. discriminate. }
  destruct Hok as [Hget Hmatch].
  assert (Hcb : callback_ok (length (c :: source)) (nested_parse rules (r0 :: rl) fuel)).
  { intros o st' Ho HI'. destruct o as [s'|].
    - apply IH; [simpl in *; lia|assumption].
    - rewrite <- Hrl, nested_parse_None. apply wp_ret. apply post_nil. assumption. }
  destruct (Hrules _ _ Hget (c :: source) st cap _ Hmatch Hcb HI) as [Hparse Hcap].
  apply wp_bind. eapply wp_mono; [exact Hparse|].
  intros parsed st1 (Hty & HI1 & Hl1 & Hh1). simpl.
  apply wp_bind, wp_update. apply wp_bind.
  eapply wp_mono; [apply IH|].
  - rewrite length_drop. simpl in *. lia.
  - apply I_previous. exact HI1.
  - intros rest st2 (Hrest & HI2 & Hl2 & Hh2). simpl in Hh2. apply wp_ret.
    repeat split.
    + constructor; [|assumption]. inversion Hty; assumption.
    + exact HI2.
    + apply locs_ok_cons. split; [|exact Hl2].
      eapply locs_ok_mono; [|exact Hl1]. exact Hh2.
    + lia.
Qed.
End Total.
End Engine.

(** * The rules of the default table end *)

Lemma length_lstrip (s : str) : length (lstrip s) <= length s.
Proof.
  induction s as [|c s IH]; simpl; [lia|]. destruct (is_space c); simpl; lia.
Qed.

Lemma length_strip (s : str) : length (strip s) <= length s.
Proof.
  unfold strip, rstrip. rewrite length_rev.
  etransitivity; [apply length_lstrip|]. rewrite length_rev. apply length_lstrip.
Qed.

Lemma split_on_length (sep : ascii) (s : str) :
  Forall (fun w => length w <= length s) (split_on sep s).
Proof.
  induction s as [|c s IH]; simpl.
  - constructor; [simpl; lia|constructor].
  - destruct (ascii_eqb c sep).
    + constructor; [simpl; lia|]. eapply Forall_impl; [exact IH|]. simpl. intros; lia.
    + destruct (split_on sep s) as [|w ws].
      * constructor; [simpl; lia|constructor].
      * inversion IH as [|? ? Hw Hws]; subst. constructor; [simpl; lia|].
        eapply Forall_impl; [exact Hws|]. simpl. intros; lia.
Qed.

Lemma block_regex_match R source st prev cap :
  block_regex R source st prev = Some cap ->
  re_match no_flags R source = Some cap /\ inline st = false.
Proof. unfold block_regex. destruct (inline st); [discriminate|auto]. Qed.

Lemma inline_regex_match R source st prev cap :
  inline_regex R source st prev = Some cap ->
  re_match no_flags R source = Some cap /\ inline st = true.
Proof. unfold inline_regex. destruct (inline st); [auto|discriminate]. Qed.

Lemma re_match_len fl R source cap :
  wf R = true -> re_match fl R source = Some cap ->
  minlen R <= length (whole cap) /\ length (whole cap) <= length source.
Proof.
  intros Hwf H. split.
  - apply re_match_valid in H as [Hv _]; [|assumption]. eapply valid_minlen; eauto.
  - eapply re_match_whole_le; eauto.
Qed.

Lemma group_bound fl R source cap i n :
  wf R = true -> re_match fl R source = Some cap ->
  binds i R = true -> slack i R = Some n ->
  exists x, group cap i = Some x /\ length x + n <= length source.
Proof.
  intros Hwf H Hb Hs. pose proof (re_match_len _ _ _ _ Hwf H) as [_ Hle].
  apply re_match_valid in H as [Hv _]; [|assumption].
  destruct (valid_binds _ _ _ _ _ Hv Hb) as [x Hx]. exists x. split; [assumption|].
  destruct (valid_group _ _ _ _ _ _ Hv Hx) as (n' & Hn' & Hlen).
  rewrite Hs in Hn'. injection Hn' as <-. lia.
Qed.

Lemma group_olen fl R source cap i n :
  wf R = true -> re_match fl R source = Some cap ->
  slack i R = Some n -> 1 <= n -> 1 <= minlen R ->
  olen (group cap i) < length source.
Proof.
  intros Hwf H Hs Hn Hmin. pose proof (re_match_len _ _ _ _ Hwf H) as [Hge Hle].
  apply re_match_valid in H as [Hv _]; [|assumption].
  destruct (group cap i) as [x|] eqn:Hx; simpl; [|lia].
  destruct (valid_group _ _ _ _ _ _ Hv Hx) as (n' & Hn' & Hlen).
  rewrite Hs in Hn'. injection Hn' as <-. lia.
Qed.

Lemma olen_py_or (a b : option str) n : olen a < n -> olen b < n -> olen (py_or a b) < n.
Proof. intros Ha Hb. destruct a as [[|c a]|]; simpl in *; auto. Qed.

Section Rules.
Context (E : string -> Prop).
Context (I : state -> Prop).
Context (I_inline : forall b st, I st -> I (set_inline b st)).
Context (I_list : forall b st, I st -> I (set_list b st)).
Context (I_in_table : forall b st, I st -> I (set_in_table b st)).
Context (I_previous : forall c st, I st -> I (set_previous_capture c st)).
Context (I_ref : forall ref st, I st -> I (register_ref ref st)).
Context (I_def : forall d target title st, I st -> I (record_def d target title st)).

Local Abbreviation wp := (wp E).
Local Abbreviation post := (post I).
Local Abbreviation rule_ok := (rule_ok E I).
Local Abbreviation callback_ok := (callback_ok E I).

Ltac open_rule Hm :=
  match type of Hm with
  | rule_match (?f _) _ _ _ = _ =>
      unfold f, mk_rule, mk_rule_q, rule_match in Hm; cbn [r_match] in Hm
  end.

Ltac open_parse :=
  match goal with
  | |- wp (r_parse (?f _) _ _) _ _ => unfold f, mk_rule, mk_rule_q; cbn [r_parse]
  end.

Ltac start R :=
  intros source st cap parse Hm Hcb HI; open_rule Hm;
  first [apply block_regex_match in Hm as [Hm Hin]
        |apply inline_regex_match in Hm as [Hm Hin]
        |unfold any_scope_regex in Hm];
  pose proof (re_match_len no_flags R source cap eq_refl Hm) as [Hmin Hle];
  cbn in Hmin;
  split; [|lia]; open_parse.

Ltac grp R i x :=
  let Hx := fresh "Hg" in
  let Hl := fresh "Hl" in
  match goal with
  | Hm : re_match no_flags R ?source = Some ?cap |- _ =>
      destruct (group_bound no_flags R source cap i _ eq_refl Hm eq_refl eq_refl)
        as (x & Hx & Hl); cbn in Hl
  end.

Ltac ogrp R i :=
  match goal with
  | Hm : re_match no_flags R ?source = Some ?cap |- _ =>
      let H := fresh "Ho" in
      assert (H : olen (group cap i) < length source)
        by (eapply (group_olen no_flags R source cap i _ eq_refl Hm eq_refl); cbn; lia)
  end.

Ltac typed := intros Hty; simpl in Hty; first [discriminate|eauto].

Ltac locs := unfold typed_as; simpl; apply node_locs_eq.

(** A rule that parses nothing, and a rule around the nodes of a callback. *)
Ltac leaf := apply wp_ret; apply post_leaf; [assumption|typed|locs].

Ltac wrap := apply wp_ret; eapply post_wrap; [eassumption|typed|locs].

Lemma Array_ok o : rule_ok "Array" (Array o).
Proof. intros source st cap parse Hm. discriminate. Qed.

Lemma Heading_ok o : rule_ok "heading" (Heading o).
Proof using I_inline.
  start HEADING_R. unfold Heading_parse.
  grp HEADING_R 1 c1. grp HEADING_R 2 c2.
  eapply wp_group_str; [eassumption|]. eapply wp_group_str; [eassumption|].
  eapply wp_parse_inline; eauto.
  { simpl. pose proof (length_strip c2). lia. }
  intros nodes st' Hpost. wrap.
Qed.

Lemma LHeading_ok o : rule_ok "lheading" (LHeading o).
Proof using I_inline.
  start LHEADING_R. unfold LHeading_parse. ogrp LHEADING_R 1.
  eapply wp_parse_inline; eauto.
  intros nodes st' Hpost. wrap.
Qed.

Lemma HR_ok o : rule_ok "hr" (HR o).
Proof. start HR_R. leaf. Qed.

Lemma CodeBlock_ok o : rule_ok "codeBlock" (CodeBlock o).
Proof. start CODEBLOCK_R. unfold CodeBlock_parse. leaf. Qed.

Lemma Fence_ok o : rule_ok "fence" (Fence o).
Proof.
  start FENCE_R. unfold Fence_parse. grp FENCE_R 3 c3.
  eapply wp_group_str; [eassumption|]. leaf.
Qed.

Lemma Def_ok o : rule_ok "def" (Def o).
Proof using I_def.
  start DEF_R. unfold Def_parse. grp DEF_R 1 c1. grp DEF_R 2 c2.
  eapply wp_group_str; [eassumption|]. eapply wp_group_str; [eassumption|].
  apply wp_bind, wp_update. apply wp_ret. repeat split.
  - constructor; [typed|constructor].
  - apply I_def. assumption.
  - apply locs_ok_leaf. locs.
  - rewrite length_heap_record_def. lia.
Qed.

Lemma NewLine_ok o : rule_ok "newline" (NewLine o).
Proof. start NEWLINE_R. leaf. Qed.

Lemma Paragraph_ok o : rule_ok "paragraph" (Paragraph o).
Proof using I_inline.
  start PARAGRAPH_R. ogrp PARAGRAPH_R 1.
  eapply wp_parse_capture_inline; eauto; discriminate.
Qed.

Lemma Escape_ok o : rule_ok "escape" (Escape o).
Proof.
  start ESCAPE_R. unfold Escape_parse. grp ESCAPE_R 1 c1.
  eapply wp_group_str; [eassumption|]. leaf.
Qed.

Lemma TableSeparator_ok o : rule_ok "tableSeparator" (TableSeparator o).
Proof.
  intros source st cap parse Hm Hcb HI. open_rule Hm. unfold TableSeparator_match in Hm.
  destruct (negb (in_table st)); [discriminate|].
  pose proof (re_match_len no_flags TABLE_SEPARATOR_R source cap eq_refl Hm) as [Hmin Hle].
  cbn in Hmin. split; [|lia]. open_parse. leaf.
Qed.

Lemma AutoLink_ok o : rule_ok "autolink" (AutoLink o).
Proof.
  start AUTOLINK_R. unfold AutoLink_parse. grp AUTOLINK_R 1 c1.
  eapply wp_group_str; [eassumption|]. leaf.
Qed.

Lemma MailTo_ok o : rule_ok "mailto" (MailTo o).
Proof.
  start MAILTO_R. unfold MailTo_parse. grp MAILTO_R 1 c1.
  eapply wp_group_str; [eassumption|]. leaf.
Qed.

Lemma URL_ok o : rule_ok "url" (URL o).
Proof.
  start URL_R. unfold URL_parse. grp URL_R 1 c1.
  eapply wp_group_str; [eassumption|]. leaf.
Qed.

Lemma Link_ok o : rule_ok "link" (Link o).
Proof.
  start LINK_R. unfold Link_parse. ogrp LINK_R 1. grp LINK_R 2 c2.
  eapply wp_callback; eauto.
  intros nodes st' Hpost. eapply wp_group_str; [eassumption|]. wrap.
Qed.

Lemma Image_ok o : rule_ok "image" (Image o).
Proof.
  start IMAGE_R. unfold Image_parse. grp IMAGE_R 1 c1. grp IMAGE_R 2 c2.
  eapply wp_group_str; [eassumption|]. eapply wp_group_str; [eassumption|]. leaf.
Qed.

(** [parse_ref] puts the new node at a new cell of the heap. *)
Lemma wp_parse_ref name cap mk st0 st x2 x1 children :
  group cap 2 = Some x2 -> group cap 1 = Some x1 -> I st ->
  (forall loc, d_type (mk loc) = Some "link"%string \/ d_type (mk loc) = Some "image"%string) ->
  (forall loc, node_locs (typed_as name (mk loc)) = loc :: tree_locs children) ->
  locs_ok st children -> length (heap st0) <= length (heap st) ->
  wp (parse_ref cap mk) st (fun d st' => post st0 [typed_as name d] st').
Proof using I_ref.
  intros H2 H1 HI Hmk Hlocs Hch Hh. unfold parse_ref. rewrite H2, H1.
  assert (Hor : exists ref, py_or (Some x2) (Some x1) = Some ref).
  { destruct x2; simpl; eauto. }
  destruct Hor as [ref ->].
  apply wp_bind, wp_get. apply wp_bind, wp_update. apply wp_ret.
  repeat split.
  - constructor; [|constructor]. intros Hty. unfold typed_as in Hty. simpl in Hty.
    destruct (Hmk (length (heap st))) as [Hk|Hk]; rewrite Hk in Hty; discriminate.
  - apply I_ref. assumption.
  - unfold locs_ok, below, tree_locs. cbn [flat_map]. rewrite app_nil_r, Hlocs.
    rewrite length_heap_register_ref. constructor; [lia|].
    eapply Forall_impl; [exact Hch|]. simpl. intros loc Hloc. lia.
  - rewrite length_heap_register_ref. lia.
Qed.

Lemma RefLink_ok o : rule_ok "reflink" (RefLink o).
Proof using I_ref.
  start REFLINK_R. unfold RefLink_parse. ogrp REFLINK_R 1.
  grp REFLINK_R 1 c1. grp REFLINK_R 2 c2.
  eapply wp_callback; eauto.
  intros nodes st' (Ht & HI' & Hlo & Hh).
  eapply (wp_parse_ref _ _ _ _ _ _ _ nodes); eauto.
Qed.

Lemma RefImage_ok o : rule_ok "refimage" (RefImage o).
Proof using I_ref.
  start REFIMAGE_R. unfold RefImage_parse.
  grp REFIMAGE_R 1 c1. grp REFIMAGE_R 2 c2.
  eapply wp_group_str; [eassumption|].
  eapply (wp_parse_ref _ _ _ _ _ _ _ []); eauto.
  apply locs_ok_nil.
Qed.

Lemma Em_ok o : rule_ok "em" (Em o).
Proof.
  start EM_R. unfold Em_parse. ogrp EM_R 1. ogrp EM_R 2.
  eapply wp_callback; eauto using olen_py_or.
  intros nodes st' Hpost. wrap.
Qed.

Lemma Strong_ok o : rule_ok "strong" (Strong o).
Proof using I_inline.
  start STRONG_R. ogrp STRONG_R 1.
  eapply wp_parse_capture_inline; eauto; discriminate.
Qed.

Lemma U_ok o : rule_ok "u" (U o).
Proof using I_inline.
  start U_R. ogrp U_R 1.
  eapply wp_parse_capture_inline; eauto; discriminate.
Qed.

Lemma Del_ok o : rule_ok "del" (Del o).
Proof using I_inline.
  start DEL_R. ogrp DEL_R 1.
  eapply wp_parse_capture_inline; eauto; discriminate.
Qed.

Lemma InlineCode_ok o : rule_ok "inlineCode" (InlineCode o).
Proof.
  start INLINECODE_R. unfold InlineCode_parse. grp INLINECODE_R 2 c2.
  eapply wp_group_str; [eassumption|]. leaf.
Qed.

Lemma Br_ok o : rule_ok "br" (Br o).
Proof. start BR_R. leaf. Qed.

Lemma Text_ok o : rule_ok "text" (Text o).
Proof. start TEXT_R. unfold Text_parse. leaf. Qed.
End Rules.

(** * Matches of particular shapes *)

Lemma ltb_succ (p : nat) : (p <? S p) = true.
Proof. apply Nat.ltb_lt. lia. Qed.

Lemma lit_eq_no_flags (x c : ascii) : lit_eq no_flags x c = true <-> c = x.
Proof.
  unfold lit_eq, ascii_eqb. simpl. rewrite Ascii.eqb_eq. split; congruence.
Qed.

Lemma char_step_lit fl s x : char_step fl s (Lit x) (lit_eq fl x).
Proof. intros p g p' g'. simpl. reflexivity. Qed.

Lemma char_step_cls fl s neg items :
  char_step fl s (Cls neg items) (fun c => xorb neg (class_has items c)).
Proof. intros p g p' g'. simpl. reflexivity. Qed.

Section Shapes.
Context (fl : flags).

Lemma iter_char_elim s r P : char_step fl s r P -> forall n p g p' g',
  iter (matches fl s r) n p g p' g' ->
  p' = p + n /\ g' = g /\
  forall j, p <= j -> j < p' -> exists c, s !! j = Some c /\ P c = true.
Proof.
  intros Hstep. induction n as [|n IH]; simpl; intros p g p' g' H.
  - destruct H as [-> ->]. repeat split; try lia.
  - destruct H as (p1 & g1 & H1 & _ & Hit).
    apply Hstep in H1 as (c & Hc & He & -> & ->).
    apply IH in Hit as (-> & -> & Hall). repeat split; try lia.
    intros j Hj1 Hj2. destruct (Nat.eq_dec j p) as [->|]; [eauto|]. apply Hall; lia.
Qed.

Lemma iter_char_intro s r P g : char_step fl s r P -> forall n p,
  (forall j, p <= j -> j < p + n -> exists c, s !! j = Some c /\ P c = true) ->
  iter (matches fl s r) n p g (p + n) g.
Proof.
  intros Hstep. induction n as [|n IH]; simpl; intros p H.
  - split; [lia|reflexivity].
  - destruct (H p) as (c & Hc & He); [lia|lia|].
    exists (S p), g. split; [apply Hstep; exists c; auto|]. split; [lia|].
    replace (p + S n) with (S p + n) by lia. apply IH.
    intros j ? ?. apply H; lia.
Qed.

Lemma matches_rep_char_elim s r P lz lo hi p g p' g' :
  char_step fl s r P ->
  matches fl s (Rep lz lo hi r) p g p' g' ->
  g' = g /\ p + lo <= p' /\ within hi (p' - p) /\
  forall j, p <= j -> j < p' -> exists c, s !! j = Some c /\ P c = true.
Proof.
  intros Hstep (n & Hit & Hn & Hhi).
  eapply iter_char_elim in Hit as (-> & -> & Hall); [|eassumption].
  repeat split; auto; [lia|]. replace (p + n - p) with n by lia. assumption.
Qed.

Lemma matches_rep_char_intro s r P lz lo hi p g n :
  char_step fl s r P -> lo <= n -> within hi n ->
  (forall j, p <= j -> j < p + n -> exists c, s !! j = Some c /\ P c = true) ->
  matches fl s (Rep lz lo hi r) p g (p + n) g.
Proof.
  intros Hstep Hlo Hhi Hall. exists n. split; [|auto].
  eapply iter_char_intro; eassumption.
Qed.

Lemma matches_rep_lit_elim s lz lo hi x p g p' g' :
  matches fl s (Rep lz lo hi (Lit x)) p g p' g' ->
  g' = g /\ p + lo <= p' /\
  forall j, p <= j -> j < p' -> exists c, s !! j = Some c /\ lit_eq fl x c = true.
Proof.
  intros H. eapply matches_rep_char_elim in H as (? & ? & _ & ?);
    [|apply char_step_lit]. auto.
Qed.

Lemma matches_rep_lit_intro s lz lo hi x p g n :
  lo <= n -> within hi n ->
  (forall j, p <= j -> j < p + n -> exists c, s !! j = Some c /\ lit_eq fl x c = true) ->
  matches fl s (Rep lz lo hi (Lit x)) p g (p + n) g.
Proof. apply matches_rep_char_intro, char_step_lit. Qed.

Lemma matches_rep_first s lz lo hi a p g p' g' :
  1 <= lo -> p <= length s -> matches fl s (Rep lz lo hi a) p g p' g' ->
  exists p1 g1, matches fl s a p g p1 g1 /\ p < p1 /\ p1 <= p' /\ p' <= length s.
Proof.
  intros Hlo Hp H.
  pose proof (matches_bounds _ _ _ _ _ _ _ Hp H) as [_ Hin].
  destruct H as (n & Hit & Hn & _).
  destruct n as [|n]; [lia|]. destruct Hit as (p1 & g1 & H1 & Hlt & Hit).
  exists p1, g1. repeat split; auto. eapply iter_le; eauto.
Qed.

(** A local pattern matches the same way wherever the same characters
    stand, whatever the groups and the multiline flag. *)
Lemma matches_transfer (fl2 : flags) (s s2 : str) r :
  ignorecase fl2 = ignorecase fl -> local r = true ->
  forall p g p' g' p2 g2,
    matches fl s r p g p' g' -> p <= length s ->
    (forall j, j < p' - p -> s2 !! (p2 + j) = s !! (p + j)) ->
    exists g2', matches fl2 s2 r p2 g2 (p2 + (p' - p)) g2'.
Proof.
  intros Hic.
  assert (Hlit : forall x c, lit_eq fl2 x c = lit_eq fl x c).
  { intros x c. unfold lit_eq. rewrite Hic. reflexivity. }
  induction r as [| x | neg items | | a IHa b IHb | a IHa b IHb | lz lo hi a IHa
                 | i a IHa | i | neg a IHa | | | ]; simpl; intros Hl p g p' g' p2 g2 H Hp Hs;
    try discriminate; try (apply andb_prop in Hl as [Hla Hlb]).
  - destruct H as [-> ->]. exists g2. split; [lia|reflexivity].
  - destruct H as (c & Hc & He & -> & ->). exists g2, c.
    specialize (Hs 0 ltac:(lia)). rewrite !Nat.add_0_r in Hs. rewrite Hs, Hlit.
    repeat split; auto; lia.
  - destruct H as (c & Hc & He & -> & ->). exists g2, c.
    specialize (Hs 0 ltac:(lia)). rewrite !Nat.add_0_r in Hs. rewrite Hs.
    repeat split; auto; lia.
  - destruct H as (c & Hc & He & -> & ->). exists g2, c.
    specialize (Hs 0 ltac:(lia)). rewrite !Nat.add_0_r in Hs. rewrite Hs.
    repeat split; auto; lia.
  - destruct H as (p1 & g1 & H1 & H2).
    pose proof (matches_bounds _ _ _ _ _ _ _ Hp H1) as [Ha1 Ha2].
    pose proof (matches_bounds _ _ _ _ _ _ _ Ha2 H2) as [Hb1 Hb2].
    destruct (IHa Hla _ _ _ _ p2 g2 H1 Hp) as [ga Hma].
    { intros j Hj. apply Hs. lia. }
    destruct (IHb Hlb _ _ _ _ (p2 + (p1 - p)) ga H2 Ha2) as [gb Hmb].
    { intros j Hj. replace (p2 + (p1 - p) + j) with (p2 + ((p1 - p) + j)) by lia.
      rewrite Hs by lia. f_equal. lia. }
    exists gb, (p2 + (p1 - p)), ga. split; [assumption|].
    replace (p2 + (p' - p)) with (p2 + (p1 - p) + (p' - p1)) by lia. assumption.
  - destruct H as [H|H].
    + destruct (IHa Hla _ _ _ _ p2 g2 H Hp Hs) as [ga Hma]. eauto.
    + destruct (IHb Hlb _ _ _ _ p2 g2 H Hp Hs) as [gb Hmb]. eauto.
  - destruct H as (n & Hit & Hlo & Hhi).
    cut (exists g2', iter (matches fl2 s2 a) n p2 g2 (p2 + (p' - p)) g2').
    { intros [g2' H']. exists g2', n. auto. }
    clear Hlo Hhi. revert p g p2 g2 Hit Hp Hs.
    induction n as [|n IH]; simpl; intros p g p2 g2 Hit Hp Hs.
    + destruct Hit as [-> ->]. exists g2. split; [lia|reflexivity].
    + destruct Hit as (p1 & g1 & H1 & Hlt & Hit).
      pose proof (matches_bounds _ _ _ _ _ _ _ Hp H1) as [Ha1 Ha2].
      assert (Hp1 : p1 <= p') by (eapply iter_le; eauto).
      destruct (IHa Hl _ _ _ _ p2 g2 H1 Hp) as [ga Hma].
      { intros j Hj. apply Hs. lia. }
      destruct (IH p1 g1 (p2 + (p1 - p)) ga Hit Ha2) as [gb Hmb].
      { intros j Hj. replace (p2 + (p1 - p) + j) with (p2 + ((p1 - p) + j)) by lia.
        rewrite Hs by lia. f_equal. lia. }
      exists gb, (p2 + (p1 - p)), ga. split; [assumption|]. split; [lia|].
      replace (p2 + (p' - p)) with (p2 + (p1 - p) + (p' - p1)) by lia. assumption.
  - destruct H as (g1 & H & ->).
    destruct (IHa Hl _ _ _ _ p2 g2 H Hp Hs) as [ga Hma]. eauto.
Qed.
End Shapes.

(** ** The shape of substitutions *)

Section SubShapes.
Context (fl : flags) (r : regex) (Hwf : wf r = true).

(** One replacement: either nothing matched, or the leftmost match is cut
    out. *)
Lemma re_sub_once (t : str) s :
  1 <= minlen r ->
  (re_search fl r s = None /\ re_sub fl r (fun _ => t) s 1 = s) \/
  exists c, re_search fl r s = Some c /\ valid fl r s c /\
            re_sub fl r (fun _ => t) s 1 = take (c_start c) s ++ t ++ drop (c_end c) s.
Proof using Hwf.
  intros Hmin. unfold re_sub, re_search. simpl. rewrite Nat.sub_0_r.
  destruct (search_from fl r s (length s) 0) as [c|] eqn:Hsr.
  - right. exists c. split; [reflexivity|].
    apply search_from_sound in Hsr as (Hv & _); [|assumption|lia].
    split; [assumption|].
    pose proof (valid_bounds _ _ _ _ Hv) as [Hb1 Hb2].
    assert (Hlt : (c_start c <? c_end c) = true) by (apply Nat.ltb_lt; lia).
    rewrite Hlt, substr_0. f_equal. f_equal.
    destruct (length s); reflexivity.
  - left. rewrite drop_0. auto.
Qed.

(** An anchored pattern can only be replaced at index 0. *)
Lemma at_bol_pos s p : at_bol no_flags s (S p) = false.
Proof. reflexivity. Qed.
End SubShapes.

Lemma match_at_anchored r s p : match_at no_flags (Cat Bol r) s (S p) = None.
Proof. unfold match_at. simpl. reflexivity. Qed.

Lemma search_from_anchored r s : forall n p,
  search_from no_flags (Cat Bol r) s n (S p) = None.
Proof.
  induction n as [|n IH]; cbn [search_from]; intros p; rewrite match_at_anchored; auto.
Qed.

(** Deleting an anchored pattern: either nothing matched at index 0, or the
    match at index 0 is dropped. *)
Lemma re_sub_anchored r s count :
  wf r = true -> 1 <= minlen r ->
  (re_match no_flags (Cat Bol r) s = None /\
   re_sub no_flags (Cat Bol r) (fun _ => []) s count = s) \/
  exists c, re_match no_flags (Cat Bol r) s = Some c /\
            valid no_flags (Cat Bol r) s c /\ c_start c = 0 /\
            re_sub no_flags (Cat Bol r) (fun _ => []) s count = drop (c_end c) s.
Proof.
  intros Hwf Hmin. unfold re_sub, re_match. cbn [sub_from]. rewrite Nat.sub_0_r.
  replace (negb (count =? 0) && (count <=? 0))%bool with false
    by (destruct count; reflexivity).
  destruct (match_at no_flags (Cat Bol r) s 0) as [c|] eqn:Hm.
  - right. exists c. split; [reflexivity|].
    rewrite (search_from_hit _ _ _ _ _ _ Hm).
    apply match_at_sound in Hm as [Hv Hst]; [|simpl; assumption|lia].
    split; [assumption|]. split; [assumption|].
    pose proof (valid_bounds _ _ _ _ Hv) as [Hb1 Hb2]. simpl in Hb1.
    assert (Hlt : (c_start c <? c_end c) = true) by (apply Nat.ltb_lt; lia).
    rewrite Hlt, Hst, substr_nil. simpl.
    destruct (c_end c) as [|e] eqn:He; [lia|].
    destruct (length s) as [|n] eqn:Hn; [lia|]. cbn [sub_from].
    destruct (negb (count =? 0) && (count <=? 1))%bool; [reflexivity|].
    rewrite search_from_anchored. reflexivity.
  - left. split; [reflexivity|].
    destruct (length s) as [|n] eqn:Hn.
    + simpl. rewrite Hm. rewrite drop_0. reflexivity.
    + simpl. rewrite Hm, search_from_anchored, drop_0. reflexivity.
Qed.

(** [finditer] yields matches. *)
Lemma finditer_valid fl r s : wf r = true ->
  forall fuel p, p <= length s -> Forall (valid fl r s) (finditer_from fl r s fuel p).
Proof.
  intros Hwf. induction fuel as [|fuel IH]; simpl; intros p Hp; [constructor|].
  destruct (search_from fl r s (length s - p) p) as [c|] eqn:Hsr; [|constructor].
  apply search_from_sound in Hsr as (Hv & _); [|assumption|lia].
  pose proof (valid_bounds _ _ _ _ Hv) as [Hb1 Hb2].
  constructor; [assumption|].
  destruct (c_start c <? c_end c); [apply IH; lia|].
  destruct (Nat.ltb_spec (c_end c) (length s)); [apply IH; lia|constructor].
Qed.

(** * Tables and block quotes end *)

Lemma take_lookup_lt (s : str) (e j : nat) : j < e -> take e s !! j = s !! j.
Proof. intros H. apply lookup_take_lt. assumption. Qed.

(** Deleting an anchored pattern that matches at index 0 shortens. *)
Lemma re_sub_anchored_shrinks r s count p' g' :
  wf r = true -> 1 <= minlen r ->
  matches no_flags s (Cat Bol r) 0 [] p' g' ->
  length (re_sub no_flags (Cat Bol r) (fun _ => []) s count) < length s.
Proof.
  intros Hwf Hmin Hm.
  destruct (re_sub_anchored r s count Hwf Hmin) as [[Hnone _]|(c & _ & Hv & _ & ->)].
  - exfalso. apply (match_at_complete no_flags (Cat Bol r)) in Hm as [c Hc];
      [|simpl; assumption|lia].
    unfold re_match in Hnone. congruence.
  - pose proof (valid_bounds _ _ _ _ Hv) as [Hb1 Hb2]. simpl in Hb1.
    rewrite length_drop. lia.
Qed.

(** The addresses of the cells of a row. *)
Lemma row_locs_snoc (cells : list (list node)) :
  flat_map tree_locs (cells ++ [[]]) = flat_map tree_locs cells.
Proof. rewrite flat_map_app. simpl. apply app_nil_r. Qed.

Lemma append_last_locs st n : forall cells,
  below st (flat_map tree_locs cells) -> below st (node_locs n) ->
  below st (flat_map tree_locs (append_last cells n)).
Proof.
  induction cells as [|c cells IH]; intros Hc Hn; [constructor|].
  destruct cells as [|c' cells].
  - simpl in *. rewrite app_nil_r in *. rewrite tree_locs_app.
    apply below_app. split; [assumption|]. unfold tree_locs. simpl.
    rewrite app_nil_r. assumption.
  - change (append_last (c :: c' :: cells) n) with (c :: append_last (c' :: cells) n).
    cbn [flat_map] in *. apply below_app in Hc as [Hc1 Hc2].
    apply below_app. split; [assumption|]. apply IH; assumption.
Qed.

Section BlockRules.
Context (E : string -> Prop).
Context (I : state -> Prop).
Context (I_inline : forall b st, I st -> I (set_inline b st)).
Context (I_list : forall b st, I st -> I (set_list b st)).
Context (I_in_table : forall b st, I st -> I (set_in_table b st)).
Context (I_previous : forall c st, I st -> I (set_previous_capture c st)).

Local Abbreviation wp := (wp E).
Local Abbreviation post := (post I).
Local Abbreviation rule_ok := (rule_ok E I).
Local Abbreviation callback_ok := (callback_ok E I).

Lemma table_row_cells_ok trim row : forall rest index cells st,
  Forall text_ok rest -> locs_ok st rest -> below st (flat_map tree_locs cells) ->
  wp (table_row_cells trim row index rest cells) st
    (fun out st' => st' = st /\ below st (flat_map tree_locs out)).
Proof.
  induction rest as [|node rest IH]; simpl; intros index cells st Hall Hlocs Hcells.
  - apply wp_ret. auto.
  - inversion Hall as [|? ? Hnode Hrest]; subst.
    apply locs_ok_cons in Hlocs as [Hn Hlocs].
    assert (Hn' : below st (node_locs node)).
    { unfold locs_ok, tree_locs in Hn. simpl in Hn. rewrite app_nil_r in Hn. exact Hn. }
    destruct (is_type "table_separator" node).
    + destruct (negb trim || _)%bool; apply IH; auto.
      rewrite row_locs_snoc. assumption.
    + apply wp_bind.
      destruct (_ && _)%bool eqn:Hcond.
      * apply andb_prop in Hcond as [_ Hc]. apply andb_prop in Hc as [Hty _].
        unfold is_type in Hty. apply String.eqb_eq in Hty.
        destruct (Hnode Hty) as [c Hc]. rewrite Hc. apply wp_ret. apply IH; auto.
        apply append_last_locs; [assumption|]. rewrite node_locs_eq. constructor.
      * apply wp_ret. apply IH; auto. apply append_last_locs; assumption.
Qed.

Lemma wp_parse_table_row {A} n parse source trim st (f : list (list node) -> M A) Q :
  callback_ok n parse -> length source < n -> I st ->
  (forall cells st', I st' -> below st' (flat_map tree_locs cells) ->
                     length (heap st) <= length (heap st') -> wp (f cells) st' Q) ->
  wp (bind (parse_table_row source parse trim) f) st Q.
Proof using I_in_table.
  intros Hcb Hlen HI Hf. unfold parse_table_row.
  apply wp_bind, wp_bind, wp_get. apply wp_bind, wp_update.
  eapply wp_callback; eauto.
  { simpl. pose proof (length_strip source). lia. }
  intros row st' (Hrow & HI' & Hl & Hh). apply wp_bind, wp_update.
  eapply wp_mono; [apply table_row_cells_ok; [assumption|exact Hl|constructor]|].
  intros cells st2 [-> Hcells]. apply Hf; auto.
Qed.

Lemma mapM_rows_ok n parse trim (rows : list str) : forall st,
  callback_ok n parse -> Forall (fun row => length row < n) rows -> I st ->
  wp (mapM (fun row_text => parse_table_row row_text parse trim) rows) st
    (fun cells st' => I st' /\ below st' (flat_map (flat_map tree_locs) cells)
                      /\ length (heap st) <= length (heap st')).
Proof using I_in_table.
  induction rows as [|row rows IH]; intros st Hcb Hall HI.
  - simpl. apply wp_ret. repeat split; [assumption|constructor|lia].
  - inversion Hall as [|? ? Hrow Hrows]; subst. simpl.
    eapply wp_parse_table_row; eauto.
    intros cells st' HI' Hcells Hh. apply wp_bind. eapply wp_mono; [apply IH; auto|].
    intros rest st2 (HI2 & Hrest & Hh2). apply wp_ret. repeat split; [assumption| |lia].
    cbn [flat_map]. apply below_app. split; [|assumption].
    eapply below_mono; [exact Hh2|assumption].
Qed.

Lemma parse_table_ok trim R source st cap parse :
  wf R = true -> re_match no_flags R source = Some cap ->
  binds 1 R = true -> binds 2 R = true -> binds 3 R = true ->
  (exists n, slack 1 R = Some (S n)) -> (exists n, slack 3 R = Some (S n)) ->
  (exists n, slack 2 R = Some n) ->
  callback_ok (length source) parse -> I st ->
  wp (parse_table trim cap parse) st
    (fun d st' => forall name, post st [typed_as name d] st').
Proof using I_inline I_in_table.
  intros Hwf Hm Hb1 Hb2 Hb3 [n1 Hs1] [n3 Hs3] [n2 Hs2] Hcb HI.
  destruct (group_bound _ _ _ _ 1 _ Hwf Hm Hb1 Hs1) as (c1 & Hc1 & Hl1).
  destruct (group_bound _ _ _ _ 2 _ Hwf Hm Hb2 Hs2) as (c2 & Hc2 & Hl2).
  destruct (group_bound _ _ _ _ 3 _ Hwf Hm Hb3 Hs3) as (c3 & Hc3 & Hl3).
  unfold parse_table. apply wp_bind, wp_update.
  eapply wp_group_str; [eassumption|].
  eapply wp_parse_table_row; eauto; [lia|].
  intros header st1 HI1 Hheader Hh1. simpl in Hh1.
  eapply wp_group_str; [eassumption|]. eapply wp_group_str; [eassumption|].
  unfold parse_table_cells. apply wp_bind.
  eapply wp_mono; [eapply mapM_rows_ok; eauto|].
  { eapply Forall_impl; [apply split_on_length|]. simpl. intros row Hrow.
    pose proof (length_strip c3). lia. }
  intros cells st2 (HI2 & Hcells & Hh2). apply wp_bind, wp_update. apply wp_ret.
  intros name. repeat split.
  - constructor; [intros Hty; discriminate|constructor].
  - auto.
  - unfold locs_ok, tree_locs, typed_as. simpl. rewrite app_nil_r, node_locs_eq.
    apply below_app. split; [|exact Hcells].
    eapply below_mono; [|exact Hheader]. exact Hh2.
  - simpl. lia.
Qed.

Lemma NpTable_ok o : rule_ok "nptable" (NpTable o).
Proof using I_inline I_in_table.
  intros source st cap parse Hm Hcb HI.
  unfold NpTable, mk_rule, rule_match in Hm. cbn [r_match] in Hm.
  apply block_regex_match in Hm as [Hm Hin].
  pose proof (re_match_len no_flags NPTABLE_REGEX source cap eq_refl Hm) as [Hmin Hle].
  cbn in Hmin. split; [|lia]. unfold NpTable, mk_rule. cbn [r_parse].
  eapply wp_mono.
  - eapply (parse_table_ok false NPTABLE_REGEX); eauto; cbn; eauto.
  - intros d st' Hpost. apply Hpost.
Qed.

Lemma Table_ok o : rule_ok "table" (Table o).
Proof using I_inline I_in_table.
  intros source st cap parse Hm Hcb HI.
  unfold Table, mk_rule, rule_match in Hm. cbn [r_match] in Hm.
  apply block_regex_match in Hm as [Hm Hin].
  pose proof (re_match_len no_flags TABLE_REGEX source cap eq_refl Hm) as [Hmin Hle].
  cbn in Hmin. split; [|lia]. unfold Table, mk_rule. cbn [r_parse].
  eapply wp_mono.
  - eapply (parse_table_ok true TABLE_REGEX); eauto; cbn; eauto.
  - intros d st' Hpost. apply Hpost.
Qed.

(** A block quote starts with spaces and a [>], inside the capture. *)
Lemma blockquote_shape source cap :
  re_match no_flags BLOCKQUOTE_R source = Some cap ->
  exists q, q < c_end cap /\ c_end cap <= length source /\
            (forall j, j < q -> source !! j = Some ch_sp) /\
            source !! q = Some ">"%char.
Proof.
  intros Hm. apply re_match_valid in Hm as [Hv Hst]; [|reflexivity].
  pose proof (valid_bounds _ _ _ _ Hv) as [_ He].
  destruct Hv as (_ & _ & H). rewrite Hst in H.
  unfold BLOCKQUOTE_R in H. cbn [cats matches] in H.
  destruct H as (p1 & g1 & (_ & -> & ->) & p2 & g2 & Hplus & Hnl).
  assert (Hp2 : p2 <= c_end cap).
  { eapply matches_le; [|exact Hnl]. eapply matches_inside; [|exact Hplus]. lia. }
  apply matches_rep_first in Hplus as (p3 & g3 & Hit & _ & Hp3 & _); [|lia|lia].
  cbn [matches] in Hit.
  destruct Hit as (g4 & (q & gq & Hsp & p5 & g5 & (c & Hc & Hgt & -> & ->) & Hrest) & _).
  apply matches_rep_lit_elim in Hsp as (_ & _ & Hall).
  apply lit_eq_no_flags in Hgt. subst c.
  exists q. repeat split; auto.
  - apply lookup_lt_Some in Hc.
    destruct Hrest as (p6 & g6 & H6 & p7 & g7 & H7 & H8).
    assert (Hq1 : S q <= length source) by lia.
    destruct (matches_bounds _ _ _ _ _ _ _ Hq1 H6) as [? Hp6].
    destruct (matches_bounds _ _ _ _ _ _ _ Hp6 H7) as [? Hp7].
    destruct (matches_bounds _ _ _ _ _ _ _ Hp7 H8) as [? ?]. lia.
  - intros j Hj. destruct (Hall j) as (c & Hc' & He'); [lia|assumption|].
    apply lit_eq_no_flags in He'. subst c. exact Hc'.
Qed.

Lemma BlockQuote_ok o : rule_ok "blockQuote" (BlockQuote o).
Proof.
  intros source st cap parse Hm Hcb HI.
  unfold BlockQuote, mk_rule, rule_match in Hm. cbn [r_match] in Hm.
  apply block_regex_match in Hm as [Hm Hin].
  pose proof (re_match_len no_flags BLOCKQUOTE_R source cap eq_refl Hm) as [Hmin Hle].
  cbn in Hmin. split; [|lia]. unfold BlockQuote, mk_rule. cbn [r_parse].
  unfold BlockQuote_parse.
  destruct (blockquote_shape _ _ Hm) as (q & Hq & He & Hsp & Hgt).
  pose proof (re_match_whole no_flags BLOCKQUOTE_R eq_refl _ _ Hm) as Hw.
  eapply wp_callback; eauto.
  - simpl. eapply Nat.lt_le_trans; [|exact Hle].
    change BLOCKQUOTE_MARK_R with (Cat Bol (cats [star SP; Lit ">"; opt SP])).
    eapply (re_sub_anchored_shrinks _ _ _ (S q) []); [reflexivity|cbn; lia|].
    rewrite Hw. cbn [cats matches].
    exists 0, []. split; [auto|].
    exists q, []. split.
    { apply (matches_rep_lit_intro no_flags _ false 0 None ch_sp 0 [] q); [lia|exact Logic.I|].
      intros j _ Hj. exists ch_sp. split; [|apply lit_eq_no_flags; reflexivity].
      rewrite take_lookup_lt by lia. apply Hsp. lia. }
    exists (S q), []. split.
    { exists ">"%char. rewrite take_lookup_lt by lia.
      repeat split; auto. }
    exists 0. simpl. auto.
  - intros nodes st' Hpost. apply wp_ret. eapply post_wrap; [exact Hpost| |].
    + intros Hty. discriminate.
    + unfold typed_as. simpl. apply node_locs_eq.
Qed.
End BlockRules.

(** * Lists end *)

Lemma lookup_substr (b e j : nat) (s : str) :
  j < e - b -> substr b e s !! j = s !! (b + j).
Proof.
  intros H. unfold substr. rewrite lookup_take_lt by assumption. apply lookup_drop.
Qed.

Lemma spaces_upto_app (indent source : str) :
  Forall (fun c => c = ch_sp) indent -> spaces_upto (length indent) (indent ++ source).
Proof.
  intros Hall j c Hj Hc. rewrite lookup_app_l in Hc by assumption.
  rewrite Forall_lookup in Hall. eapply Hall; eauto.
Qed.

Lemma spaces_upto_take k e x : spaces_upto k x -> spaces_upto k (take e x).
Proof.
  intros H j c Hj Hc. destruct (Nat.lt_ge_cases j e) as [Hlt|Hge].
  - rewrite lookup_take_lt in Hc by assumption. eauto.
  - rewrite lookup_take_ge in Hc by assumption. discriminate.
Qed.

(** The spaces that the lookbehind captured. *)
Lemma lookbehind_indent prev lb indent :
  re_match no_flags LIST_LOOKBEHIND_R prev = Some lb -> group lb 1 = Some indent ->
  Forall (fun c => c = ch_sp) indent.
Proof.
  intros Hm Hg. apply re_match_valid in Hm as [Hv Hst]; [|reflexivity].
  pose proof (valid_bounds _ _ _ _ Hv) as [_ He].
  destruct Hv as (Hs & _ & H). rewrite Hst in H.
  unfold LIST_LOOKBEHIND_R in H. cbn [cats matches] in H.
  destruct H as (p1 & g1 & Hor & p2 & g2 & (g3 & Hstar & ->) & (_ & Hp2 & Hgr)).
  unfold group in Hg. rewrite Hgr in Hg. simpl in Hg. injection Hg as <-.
  apply matches_rep_lit_elim in Hstar as (_ & Hle & Hall).
  rewrite Forall_lookup. intros j c Hc.
  assert (Hj : j < p2 - p1).
  { apply lookup_lt_Some in Hc. pose proof (length_substr_le p1 p2 (c_subject lb)). lia. }
  rewrite lookup_substr in Hc by assumption. rewrite Hs in Hc.
  destruct (Hall (p1 + j)) as (c' & Hc' & He'); [lia|lia|].
  apply lit_eq_no_flags in He'. congruence.
Qed.

(** A bullet starts with a character that is not a space. *)
Lemma bullet_first fl s p g p' g' :
  ignorecase fl = false -> p <= length s ->
  matches fl s LIST_BULLET p g p' g' ->
  p < p' /\ exists c, s !! p = Some c /\ c <> ch_sp.
Proof.
  intros Hic Hp H. unfold LIST_BULLET in H. cbn [matches] in H. destruct H as [H|H].
  - destruct H as (c & Hc & Hcls & -> & ->). split; [lia|]. exists c. split; [assumption|].
    intros ->. discriminate.
  - destruct H as (p1 & g1 & Hplus & Hdot).
    apply matches_rep_first in Hplus as (p2 & g2 & Hd & Hlt & Hle & _); [|lia|assumption].
    simpl in Hd, Hdot. destruct Hd as (c & Hc & Hcls & -> & ->).
    destruct Hdot as (c' & _ & _ & -> & _).
    split; [lia|]. exists c. split; [assumption|]. intros ->. discriminate.
Qed.

(** Where a list item starts: spaces, then a bullet and more spaces. *)
Lemma item_prefix_shape capture' c :
  valid fl_multiline LIST_ITEM_R capture' c ->
  exists q p3 g g',
    c_start c <= q /\ q < p3 /\ p3 <= c_end c /\ c_end c <= length capture' /\
    (forall j, c_start c <= j -> j < q -> capture' !! j = Some ch_sp) /\
    matches fl_multiline capture' (Cat (Grp 2 LIST_BULLET) (plus SP)) q g p3 g'.
Proof.
  intros Hv. pose proof (valid_bounds _ _ _ _ Hv) as [_ He].
  destruct Hv as (_ & Hb & H).
  unfold LIST_ITEM_R in H. cbn [cats matches] in H.
  destruct H as (p3 & g3 & Hpre & Hrest).
  assert (Hp3 : p3 <= length capture') by (eapply matches_inside; [|exact Hpre]; assumption).
  assert (Hp3e : p3 <= c_end c).
  { destruct Hrest as (p4 & g4 & H4 & p5 & g5 & H5 & H6).
    destruct (matches_bounds _ _ _ _ _ _ _ Hp3 H4) as [? Hp4].
    destruct (matches_bounds _ _ _ _ _ _ _ Hp4 H5) as [? Hp5].
    assert (Hg3 : matches fl_multiline capture' (Grp 3 (Or NL Eol)) p5 g5 (c_end c) (c_groups c))
      by exact H6.
    destruct (matches_bounds _ _ _ _ _ _ _ Hp5 Hg3) as [? ?]. lia. }
  unfold LIST_ITEM_PREFIX in Hpre. cbn [cats matches] in Hpre.
  destruct Hpre as (q & g1 & (g0 & Hstar & ->) & Hbp).
  apply matches_rep_lit_elim in Hstar as (_ & Hq & Hall).
  assert (Hq' : q <= length capture').
  { destruct (Nat.le_gt_cases q (length capture')) as [|Hgt]; [assumption|].
    destruct (Hall (length capture')) as (c0 & Hc0 & _); [lia|lia|].
    apply lookup_lt_Some in Hc0. lia. }
  assert (Hbp' : matches fl_multiline capture' (Cat (Grp 2 LIST_BULLET) (plus SP)) q
                    (gset 1 (c_start c, q) g0) p3 g3) by exact Hbp.
  destruct (matches_bounds _ _ _ _ _ _ _ Hq' Hbp') as [Hqp _]. cbn in Hqp.
  exists q, p3, (gset 1 (c_start c, q) g0), g3. repeat split; auto; try lia.
  intros j Hj1 Hj2. destruct (Hall j Hj1 Hj2) as (c0 & Hc0 & He0).
  apply lit_eq_no_flags in He0. congruence.
Qed.

(** A match of the item prefix spans the leading spaces, the bullet and a
    space. *)
Lemma prefix_match_bound (x : str) (a0 e' : nat) (g' : groups) :
  (forall i, i < a0 -> x !! i = Some ch_sp) ->
  matches no_flags x LIST_ITEM_PREFIX_R 0 [] e' g' -> a0 + 2 <= e'.
Proof.
  intros Hsp H. unfold LIST_ITEM_PREFIX_R, LIST_ITEM_PREFIX in H. cbn [cats matches] in H.
  destruct H as (p0 & g0 & (_ & -> & ->) & a & g1 & (g1' & Hstar & ->) & Hbp).
  assert (Ha : a <= length x) by (eapply matches_inside; [|exact Hstar]; lia).
  destruct Hbp as (a2 & g2 & (g2' & Hbul & ->) & Hplus).
  assert (Ha2 : a2 <= length x) by (eapply matches_inside; [|exact Hbul]; assumption).
  apply bullet_first in Hbul as (Hlt & c & Hc & Hne); [|reflexivity|assumption].
  apply matches_bounds in Hplus as [Hp _]; [|assumption]. cbn in Hp.
  assert (a0 <= a); [|lia].
  destruct (Nat.le_gt_cases a0 a) as [|Hgt]; [assumption|].
  rewrite (Hsp a Hgt) in Hc. congruence.
Qed.

(** The item prefix matches a string that carries, from its start, the
    spaces, bullet and spaces found at [off] in the capture. *)
Lemma prefix_match_exists (x capture' : str) (off q p3 : nat) (g g' : groups) :
  off <= q -> q <= length capture' ->
  (forall i, i < p3 - off -> x !! i = capture' !! (off + i)) ->
  (forall j, off <= j -> j < q -> capture' !! j = Some ch_sp) ->
  matches fl_multiline capture' (Cat (Grp 2 LIST_BULLET) (plus SP)) q g p3 g' ->
  exists e' g'', matches no_flags x LIST_ITEM_PREFIX_R 0 [] e' g''.
Proof.
  intros Hoff Hq Hx Hsp Hbp.
  destruct (matches_bounds _ _ _ _ _ _ _ Hq Hbp) as [Hqp _]. cbn in Hqp.
  destruct (matches_transfer fl_multiline no_flags capture' x
              (Cat (Grp 2 LIST_BULLET) (plus SP)) eq_refl eq_refl
              q g p3 g' (q - off) (gset 1 (0, q - off) []) Hbp Hq) as [g2 H2].
  { intros j Hj. rewrite Hx by lia. f_equal. lia. }
  exists (q - off + (p3 - q)), g2.
  unfold LIST_ITEM_PREFIX_R, LIST_ITEM_PREFIX. cbn [cats matches].
  exists 0, []. split; [auto|].
  exists (q - off), (gset 1 (0, q - off) []). split; [|exact H2].
  exists []. split; [|reflexivity].
  apply (matches_rep_lit_intro no_flags x false 0 None ch_sp 0 [] (q - off));
    [lia|exact Logic.I|].
  intros j _ Hj. exists ch_sp. split; [|apply lit_eq_no_flags; reflexivity].
  rewrite Hx by lia. apply Hsp; lia.
Qed.

(** What [content_map] makes of an item: the item starts with a prefix, and
    the content is shorter than the capture by the leading spaces, the
    bullet and a space. *)
Lemma item_content_bound capture' c k space :
  valid fl_multiline LIST_ITEM_R capture' c -> spaces_upto k capture' ->
  (exists pc, re_match no_flags LIST_ITEM_PREFIX_R (whole c) = Some pc /\
              2 <= length (whole pc)) /\
  length (re_sub no_flags LIST_ITEM_PREFIX_R (fun _ => [])
            (re_sub no_flags (space_regex space) (fun _ => []) (whole c) 8) 1)
    + k + 2 <= length capture'.
Proof.
  intros Hv Hk.
  destruct (item_prefix_shape _ _ Hv) as (q & p3 & g & g' & Hbq & Hqp & Hpe & He & Hsp & Hbp).
  destruct Hv as (Hsub & Hb & _).
  set (b := c_start c) in *. set (e := c_end c) in *.
  set (item := whole c).
  assert (Hitem : forall i, i < e - b -> item !! i = capture' !! (b + i)).
  { intros i Hi. unfold item, whole. rewrite Hsub. apply lookup_substr. assumption. }
  assert (Hlen : length item = e - b).
  { unfold item, whole. rewrite Hsub. apply length_substr. assumption. }
  assert (Hq : q <= length capture') by lia.
  assert (Hch : exists ch, capture' !! q = Some ch /\ ch <> ch_sp).
  { cbn [matches] in Hbp. destruct Hbp as (q2 & g2 & (g2' & Hbul & _) & _).
    apply bullet_first in Hbul as (_ & Hc); [assumption|reflexivity|assumption]. }
  destruct Hch as (ch & Hch & Hne).
  assert (Hkq : k <= q).
  { destruct (Nat.le_gt_cases k q) as [|Hgt]; [assumption|].
    exfalso. apply Hne. eapply Hk; eauto. }
  split.
  - destruct (prefix_match_exists item capture' b q p3 g g') as (e' & g'' & Hm); auto.
    { intros i Hi. apply Hitem. lia. }
    apply (match_at_complete no_flags LIST_ITEM_PREFIX_R eq_refl) in Hm as [pc Hpc]; [|lia].
    exists pc. split; [exact Hpc|].
    apply (re_match_valid no_flags LIST_ITEM_PREFIX_R eq_refl) in Hpc as [Hvp _].
    apply valid_minlen in Hvp. cbn in Hvp. exact Hvp.
  - assert (Hx1 : exists j, re_sub no_flags (space_regex space) (fun _ => []) item 8
                            = drop j item /\ forall i, i < j -> item !! i = Some ch_sp).
    { unfold space_regex.
      destruct (re_sub_anchored (Rep false 1 (Some space) SP) item 8 eq_refl)
        as [[_ ->]|(c1 & _ & Hv1 & Hst1 & ->)]; [cbn; lia| |].
      - exists 0. rewrite drop_0. split; [reflexivity|]. intros i Hi. lia.
      - exists (c_end c1). split; [reflexivity|].
        destruct Hv1 as (_ & _ & H1). rewrite Hst1 in H1. cbn [matches] in H1.
        destruct H1 as (p0 & g0 & (_ & -> & ->) & Hrep).
        apply (matches_rep_lit_elim no_flags item false 1 (Some space)) in Hrep
          as (_ & _ & Hall).
        intros i Hi. destruct (Hall i) as (c0 & Hc0 & He0); [lia|assumption|].
        apply lit_eq_no_flags in He0. congruence. }
    destruct Hx1 as (j & -> & Hj).
    assert (Hjq : j <= q - b).
    { destruct (Nat.le_gt_cases j (q - b)) as [|Hgt]; [assumption|].
      exfalso. apply Hne. specialize (Hj (q - b) Hgt).
      rewrite Hitem in Hj by lia. replace (b + (q - b)) with q in Hj by lia. congruence. }
    assert (Hx : forall i, i < p3 - (b + j) -> drop j item !! i = capture' !! (b + j + i)).
    { intros i Hi. rewrite lookup_drop, Hitem by lia. f_equal. lia. }
    unfold LIST_ITEM_PREFIX_R at 1.
    destruct (re_sub_anchored LIST_ITEM_PREFIX (drop j item) 1 eq_refl)
      as [[Hnone _]|(pc & _ & Hvp & Hstp & ->)]; [cbn; lia| |].
    + exfalso.
      destruct (prefix_match_exists (drop j item) capture' (b + j) q p3 g g')
        as (e' & g'' & Hm); auto; try lia.
      { intros i Hi1 Hi2. apply Hsp; lia. }
      apply (match_at_complete no_flags LIST_ITEM_PREFIX_R eq_refl) in Hm as [pc Hpc]; [|lia].
      unfold re_match, LIST_ITEM_PREFIX_R in *. congruence.
    + destruct Hvp as (_ & _ & Hmp). rewrite Hstp in Hmp.
      destruct (matches_bounds _ _ _ _ _ _ _ Hq Hbp) as [Hqp2 _]. cbn in Hqp2.
      apply (prefix_match_bound _ (q - b - j)) in Hmp.
      * rewrite !length_drop, Hlen. lia.
      * intros i Hi. rewrite Hx by lia. apply Hsp; lia.
Qed.

(** Cutting the trailing newlines keeps the spaces in front. *)
Lemma block_end_sub_spaces k cap0 :
  spaces_upto k cap0 ->
  spaces_upto k (re_sub no_flags LIST_BLOCK_END_R (fun _ => [ch_nl]) cap0 1) /\
  length (re_sub no_flags LIST_BLOCK_END_R (fun _ => [ch_nl]) cap0 1) <= length cap0.
Proof.
  intros Hk. split.
  - destruct (re_sub_once no_flags LIST_BLOCK_END_R eq_refl [ch_nl] cap0)
      as [[_ ->]|(c & _ & Hv & ->)]; [cbn; lia|assumption|].
    pose proof (valid_bounds _ _ _ _ Hv) as [_ He].
    destruct Hv as (_ & Hst & H).
    unfold LIST_BLOCK_END_R, BLOCK_END_R in H. cbn [matches] in H.
    destruct H as (p1 & g1 & Hnl & _).
    apply matches_rep_first in Hnl as (p2 & g2 & H1 & _); [|lia|assumption].
    simpl in H1. destruct H1 as (c0 & Hc0 & He0 & _).
    apply lit_eq_no_flags in He0. subst c0.
    intros j ch Hj Hch.
    destruct (Nat.lt_ge_cases j (c_start c)) as [Hlt|Hge].
    + rewrite lookup_app_l in Hch by (rewrite length_take; lia).
      rewrite lookup_take_lt in Hch by assumption. eauto.
    + exfalso. assert (Hsp : ch_nl = ch_sp) by (eapply Hk; [|exact Hc0]; lia).
      discriminate.
  - pose proof (re_sub_once_le no_flags LIST_BLOCK_END_R eq_refl [ch_nl] 0 cap0) as H.
    assert (Hlen : length [ch_nl] <= minlen LIST_BLOCK_END_R + 0) by (cbn; lia).
    specialize (H Hlen). lia.
Qed.

(** [[^\d]+?] takes one character that is not a digit. *)
Lemma non_digits_match s p :
  match_at no_flags NON_DIGITS_R s p =
  match s !! p with
  | Some c => if negb (is_digit c)
              then Some {| c_subject := s; c_start := p; c_end := S p; c_groups := [] |}
              else None
  | None => None
  end.
Proof.
  unfold match_at, NON_DIGITS_R, plus_lazy. cbn [m rep Nat.leb].
  destruct (s !! p) as [c|] eqn:Hc; [|reflexivity].
  unfold class_has. cbn [existsb item_has]. rewrite orb_false_r. cbn [xorb].
  destruct (is_digit c); [reflexivity|]. cbn [negb].
  rewrite ltb_succ.
  apply lookup_lt_Some in Hc.
  destruct (length s - p) as [|f] eqn:Hf; [lia|]. reflexivity.
Qed.

Section CharSub.
Context (fl : flags) (r : regex) (P : ascii -> bool).
Context (repl : capture -> str) (t : ascii -> str).
Context (Hpat : forall s p,
  match_at fl r s p =
  match s !! p with
  | Some c => if P c
              then Some {| c_subject := s; c_start := p; c_end := S p; c_groups := [] |}
              else None
  | None => None
  end).
Context (Hrepl : forall s p c,
  s !! p = Some c -> P c = true ->
  repl {| c_subject := s; c_start := p; c_end := S p; c_groups := [] |} = t c).

Let f (c : ascii) : str := if P c then t c else [c].

Lemma search_from_char s : forall n p,
  p + n = length s ->
  (exists q ch, search_from fl r s n p
                = Some {| c_subject := s; c_start := q; c_end := S q; c_groups := [] |}
                /\ p <= q /\ s !! q = Some ch /\ P ch = true
                /\ flat_map f (substr p q s) = substr p q s)
  \/ (search_from fl r s n p = None /\ flat_map f (drop p s) = drop p s).
Proof using Hpat.
  induction n as [|n IH]; intros p Hn.
  - right. simpl. rewrite Hpat.
    rewrite (lookup_ge_None_2 s p) by lia. rewrite drop_ge by lia. auto.
  - simpl. rewrite Hpat. destruct (s !! p) as [c|] eqn:Hc.
    + destruct (P c) eqn:HP.
      * left. exists p, c. rewrite substr_nil. repeat split; auto.
      * destruct (IH (S p) ltac:(lia)) as [(q & ch & Hs & Hq & Hch & HPch & Hid)|[Hs Hid]].
        -- left. exists q, ch. repeat split; auto; [lia|].
           unfold substr in *. rewrite (drop_S s c p Hc).
           replace (q - p) with (S (q - S p)) by lia. simpl.
           unfold f at 1. rewrite HP. simpl. f_equal. exact Hid.
        -- right. split; [assumption|]. rewrite (drop_S s c p Hc). simpl.
           unfold f at 1. rewrite HP. simpl. f_equal. exact Hid.
    + apply lookup_ge_None in Hc. lia.
Qed.

Lemma sub_from_char s : forall fuel p done,
  length s - p < fuel -> p <= length s ->
  sub_from fl r repl s 0 fuel p done = flat_map f (drop p s).
Proof using Hpat Hrepl.
  induction fuel as [|fuel IH]; intros p done Hf Hp; [lia|].
  cbn [sub_from Nat.eqb negb andb].
  destruct (search_from_char s (length s - p) p ltac:(lia))
    as [(q & ch & -> & Hq & Hch & HPch & Hid)|[-> Hid]].
  - cbn [c_start c_end]. rewrite ltb_succ.
    apply lookup_lt_Some in Hch as Hlt.
    rewrite IH by lia.
    rewrite <- (substr_app_drop p q s) by lia.
    rewrite flat_map_app, Hid. f_equal.
    rewrite (drop_S s ch q Hch). simpl. unfold f at 2. rewrite HPch.
    rewrite (Hrepl s q ch Hch HPch). reflexivity.
  - symmetry. exact Hid.
Qed.

Lemma re_sub_char s : re_sub fl r repl s 0 = flat_map f s.
Proof using Hpat Hrepl.
  unfold re_sub. rewrite sub_from_char by lia. rewrite drop_0. reflexivity.
Qed.
End CharSub.

Lemma substr_snoc (b e : nat) (s : str) (c : ascii) :
  b <= e -> s !! e = Some c -> substr b (S e) s = substr b e s ++ [c].
Proof.
  intros Hbe Hc. unfold substr. replace (S e - b) with (S (e - b)) by lia.
  rewrite (take_S_r _ _ c); [reflexivity|].
  rewrite lookup_drop. replace (b + (e - b)) with e by lia. assumption.
Qed.

(** A bullet is one character, or digits and a dot. *)
Lemma bullet_digits fl s q g q2 g' :
  ignorecase fl = false -> q <= length s -> matches fl s LIST_BULLET q g q2 g' ->
  length (substr q q2 s) = 1 \/
  exists ds, substr q q2 s = ds ++ ["."%char] /\ ds <> [] /\
             Forall (fun c => is_digit c = true) ds.
Proof.
  intros Hic Hq H. unfold LIST_BULLET in H. cbn [matches] in H. destruct H as [H|H].
  - left. destruct H as (c & Hc & _ & -> & _). apply lookup_lt_Some in Hc.
    rewrite length_substr by lia. lia.
  - right. destruct H as (p1 & g1 & Hplus & Hdot).
    eapply matches_rep_char_elim in Hplus as (_ & Hlo & _ & Hall); [|apply char_step_cls].
    simpl in Hdot. destruct Hdot as (c & Hc & He & -> & _).
    unfold lit_eq in He. rewrite Hic in He. apply Ascii.eqb_eq in He. subst c.
    exists (substr q p1 s). split; [apply substr_snoc; [lia|assumption]|].
    apply lookup_lt_Some in Hc as Hlt. split.
    + intros Hnil. apply (f_equal length) in Hnil. rewrite length_substr in Hnil by lia.
      simpl in Hnil. lia.
    + rewrite Forall_lookup. intros j c Hj.
      assert (Hjl : j < p1 - q).
      { apply lookup_lt_Some in Hj. rewrite length_substr in Hj by lia. assumption. }
      rewrite lookup_substr in Hj by assumption.
      destruct (Hall (q + j)) as (c' & Hc' & Hd); [lia|lia|].
      rewrite Hj in Hc'. injection Hc' as <-.
      unfold class_has in Hd. simpl in Hd. rewrite orb_false_r in Hd. exact Hd.
Qed.

Lemma digits_value_some ds : Forall (fun c => is_digit c = true) ds ->
  forall acc, exists z, digits_value ds acc = Some z.
Proof.
  induction 1 as [|c ds Hc _ IH]; intros acc; simpl; [eauto|]. rewrite Hc. apply IH.
Qed.

(** [int] of the digits of a bullet: it returns, unless the bullet has more
    digits than [int] converts. *)
Lemma int_of_bullet fl s q g q2 g' st :
  ignorecase fl = false -> q <= length s -> matches fl s LIST_BULLET q g q2 g' ->
  1 < length (substr q q2 s) ->
  let digits := re_sub no_flags NON_DIGITS_R (fun _ => []) (substr q q2 s) 0 in
  (length (substr q q2 s) <= S int_max_str_digits -> exists z, int_of digits st = Ok z st)
  /\ (S int_max_str_digits < length (substr q q2 s) ->
      int_of digits st = Raise int_limit_error).
Proof.
  intros Hic Hq H Hlen.
  destruct (bullet_digits _ _ _ _ _ _ Hic Hq H) as [H1|(ds & -> & Hne & Hds)]; [lia|].
  rewrite (re_sub_char no_flags NON_DIGITS_R (fun c => negb (is_digit c))
             (fun _ => []) (fun _ => []) non_digits_match (fun _ _ _ _ _ => eq_refl)).
  rewrite flat_map_app. simpl.
  assert (Hid : flat_map (fun c => if negb (is_digit c) then [] else [c]) ds = ds).
  { clear Hne. induction Hds as [|c ds Hc _ IH]; simpl; [reflexivity|].
    rewrite Hc. simpl. f_equal. exact IH. }
  rewrite Hid, app_nil_r, length_app. simpl.
  destruct (digits_value_some ds Hds 0) as [z Hz].
  unfold int_of. rewrite Hz. destruct ds as [|d ds]; [congruence|].
  split; intros Hl.
  - exists z. destruct (Nat.ltb_spec int_max_str_digits (length (d :: ds))) as [Hlt|_];
      [simpl in *; lia|reflexivity].
  - destruct (Nat.ltb_spec int_max_str_digits (length (d :: ds))) as [_|Hge];
      [reflexivity|simpl in *; lia].
Qed.

(** Group 2 of a list capture is a bullet. *)
Lemma list_capture_bullet s1 cap :
  re_match no_flags LIST_R s1 = Some cap ->
  exists a g a2 g', a <= length s1 /\ matches no_flags s1 LIST_BULLET a g a2 g' /\
                    group cap 2 = Some (substr a a2 s1).
Proof.
  intros Hm. apply re_match_valid in Hm as [Hv Hst]; [|reflexivity].
  destruct Hv as (Hs & _ & H). rewrite Hst in H.
  unfold LIST_R in H. cbn [cats] in H.
  match type of H with
  | matches _ _ (Cat _ (Cat _ (Cat _ ?tail))) _ _ _ _ => set (T := tail) in H
  end.
  cbn [matches] in H.
  destruct H as (p0 & g0 & (_ & -> & ->) & a & g1 & (g1' & Hstar & ->)
                 & a2 & g2 & (g2' & Hbul & ->) & Hrest).
  assert (Ha : a <= length s1) by (eapply matches_inside; [|exact Hstar]; lia).
  apply matches_nogroups in Hrest; [|reflexivity].
  exists a, (gset 1 (0, a) g1'), a2, g2'. repeat split; auto.
  unfold group. rewrite Hrest, Hs. reflexivity.
Qed.

Section ListRule.
Context (E : string -> Prop).
Context (I : state -> Prop).
Context (I_inline : forall b st, I st -> I (set_inline b st)).
Context (I_list : forall b st, I st -> I (set_list b st)).

Local Abbreviation wp := (wp E).
Local Abbreviation post := (post I).
Local Abbreviation rule_ok := (rule_ok E I).
Local Abbreviation callback_ok := (callback_ok E I).

Lemma list_items_ok n parse capture' k :
  callback_ok n parse -> spaces_upto k capture' -> length capture' <= k + n ->
  forall items n_items i last st,
    Forall (valid fl_multiline LIST_ITEM_R capture') items -> I st ->
    wp (list_items parse n_items i items last) st
      (fun out st' => I st' /\ below st' (flat_map tree_locs out)
                      /\ length (heap st) <= length (heap st')).
Proof using I_inline I_list.
  intros Hcb Hk Hlen. induction items as [|c items IH]; intros n_items i last st Hall HI.
  - simpl. apply wp_ret. repeat split; [assumption|constructor|lia].
  - inversion Hall as [|? ? Hc Hrest]; subst. cbn [list_items].
    destruct (item_content_bound capture' c k 0 Hc Hk) as [(pc & Hpc & Hlen2) _].
    rewrite Hpc.
    destruct (Nat.eqb_spec (length (whole pc)) 0) as [H0|_]; [lia|].
    destruct (item_content_bound capture' c k (length (whole pc)) Hc Hk) as [_ Hcont].
    set (content := re_sub no_flags LIST_ITEM_PREFIX_R (fun _ => [])
                      (re_sub no_flags (space_regex (length (whole pc))) (fun _ => [])
                         (whole c) 8) 1) in *.
    apply wp_bind, wp_get. apply wp_bind, wp_update. apply wp_bind, wp_update.
    eapply wp_callback; eauto.
    + simpl.
      assert (Hadj : forall t, length t <= 2 ->
                length (re_sub no_flags LIST_ITEM_END_R (fun _ => t) content 1)
                <= length content + 1).
      { intros t Ht. apply re_sub_once_le; [reflexivity|]. cbn. lia. }
      destruct (contains _ content || _)%bool.
      * pose proof (Hadj [ch_nl; ch_nl] ltac:(simpl; lia)). lia.
      * pose proof (Hadj [] ltac:(simpl; lia)). lia.
    + intros result st' (Hres & HI' & Hl & Hh). simpl in Hh.
      apply wp_bind, wp_update. apply wp_bind, wp_update.
      apply wp_bind. eapply wp_mono; [apply IH; auto|].
      intros rest st2 (HI2 & Hrest2 & Hh2). simpl in Hh2. apply wp_ret.
      repeat split; [assumption| |lia].
      cbn [flat_map]. apply below_app. split; [|assumption].
      eapply below_mono; [|exact Hl]. simpl. exact Hh2.
Qed.

(** [List.parse] ends: [int] is the one call of it that may raise. *)
Lemma List_parse_ok o source st cap parse :
  rule_match (List o) source st (previous_capture_string st) = Some cap ->
  callback_ok (length source) parse -> I st ->
  (forall bullet, group cap 2 = Some bullet ->
                  S int_max_str_digits < length bullet -> E int_limit_error) ->
  wp (r_parse (List o) cap parse) st (fun d st' => post st [typed_as "list" d] st')
  /\ 1 <= length (whole cap).
Proof using I_inline I_list.
  intros Hm Hcb HI Hint.
  unfold List, mk_rule, rule_match in Hm. cbn [r_match] in Hm. unfold List_match in Hm.
  destruct (re_match no_flags LIST_LOOKBEHIND_R (previous_capture_string st))
    as [lb|] eqn:Hlb; [|discriminate].
  destruct (_list st || negb (inline st))%bool; [|discriminate].
  destruct (group lb 1) as [indent|] eqn:Hind; [|discriminate].
  pose proof (lookbehind_indent _ _ _ Hlb Hind) as Hsp.
  pose proof (re_match_len no_flags LIST_R _ cap eq_refl Hm) as [Hmin Hle].
  cbn in Hmin. rewrite length_app in Hle.
  split; [|lia]. unfold List, mk_rule. cbn [r_parse]. unfold List_parse.
  destruct (list_capture_bullet _ _ Hm) as (a & g & a2 & g' & Ha & Hbul & Hg2).
  eapply wp_group_str; [exact Hg2|].
  apply wp_bind.
  assert (Hstart : wp (if 1 <? length (substr a a2 (indent ++ source))
                       then z <- int_of (re_sub no_flags NON_DIGITS_R (fun _ => [])
                                           (substr a a2 (indent ++ source)) 0) ;;
                            ret (Some z)
                       else ret None) st (fun _ st' => st' = st)).
  { destruct (Nat.ltb_spec 1 (length (substr a a2 (indent ++ source)))) as [Hlt|_].
    - destruct (int_of_bullet no_flags _ _ _ _ _ st eq_refl Ha Hbul Hlt) as [Hret Hraise].
      apply wp_bind.
      destruct (le_lt_dec (length (substr a a2 (indent ++ source))) (S int_max_str_digits))
        as [Hshort|Hlong].
      + destruct (Hret Hshort) as [z Hz].
        eapply wp_outcome_ok; [exact Hz|]. apply wp_ret. reflexivity.
      + eapply wp_outcome_raise; [exact (Hraise Hlong)|]. eapply Hint; eauto.
    - apply wp_ret. reflexivity. }
  eapply wp_mono; [exact Hstart|]. intros start st' ->. simpl.
  set (capture' := re_sub no_flags LIST_BLOCK_END_R (fun _ => [ch_nl]) (whole cap) 1).
  assert (Hcap : spaces_upto (length indent) capture'
                 /\ length capture' <= length (whole cap)).
  { apply block_end_sub_spaces.
    rewrite (re_match_whole no_flags LIST_R eq_refl _ _ Hm).
    apply spaces_upto_take, spaces_upto_app. assumption. }
  destruct Hcap as [Hk Hlen].
  apply wp_bind.
  eapply wp_mono;
    [eapply (list_items_ok (length source) parse capture' (length indent)); eauto|].
  - lia.
  - apply finditer_valid; [reflexivity|lia].
  - intros items st2 (HI2 & Hitems & Hh2). apply wp_ret. repeat split.
    + constructor; [intros Hty; discriminate|constructor].
    + assumption.
    + unfold locs_ok, tree_locs, typed_as. simpl. rewrite app_nil_r, node_locs_eq.
      exact Hitems.
    + assumption.
Qed.

Lemma List_ok o : E int_limit_error -> rule_ok "list" (List o).
Proof using I_inline I_list.
  intros HE source st cap parse Hm Hcb HI. eapply List_parse_ok; eauto.
Qed.
End ListRule.

(** * The default rule table *)

Lemma any_char_all (c : ascii) : xorb false (class_has [CSpace; CNotSpace] c) = true.
Proof. unfold class_has. simpl. destruct (is_space c); reflexivity. Qed.

(** [text] matches every source that is not empty: at the latest, the
    lookahead succeeds at the end of the source. *)
Lemma text_matches (c : ascii) (source : str) :
  exists cap, re_match no_flags TEXT_R (c :: source) = Some cap.
Proof.
  set (s := c :: source).
  apply (match_at_complete no_flags TEXT_R eq_refl s 0 (length s) []); [lia|].
  unfold TEXT_R. cbn [cats matches].
  exists 0, []. split; [repeat split|].
  exists (length s), []. split.
  - apply (matches_rep_char_intro no_flags s any_char
             (fun x => xorb false (class_has [CSpace; CNotSpace] x)) true 1 None 0 []
             (length s)).
    + apply char_step_cls.
    + simpl. lia.
    + exact Logic.I.
    + intros j _ Hj. destruct (s !! j) as [x|] eqn:Hx.
      * exists x. split; [reflexivity|]. apply any_char_all.
      * apply lookup_ge_None in Hx. lia.
  - split; [|auto]. exists (length s), [].
    unfold ors. cbn [matches]. do 4 right.
    split; [|auto]. unfold at_eol. rewrite lookup_ge_None_2 by lia.
    apply Nat.eqb_refl.
Qed.

Lemma default_rule_list_known :
  forall name, In name default_rule_list -> rules_get default_rules name <> None.
Proof.
  assert (H : forallb (fun n => is_some (rules_get default_rules n)) default_rule_list = true)
    by (vm_compute; reflexivity).
  intros name Hin Hnone. rewrite forallb_forall in H. specialize (H name Hin).
  rewrite Hnone in H. discriminate.
Qed.

Lemma default_quality_ok st : quality_ok default_rules st.
Proof.
  intros name rule q cap Hget Hq.
  unfold default_rules in Hget. cbn [build_rules rules_get] in Hget.
  repeat match type of Hget with
         | (if String.eqb ?a name then _ else _) = _ =>
             destruct (String.eqb_spec a name) as [<-|_];
             [injection Hget as <-; try discriminate;
              injection Hq as <-;
              unfold Qle_bool, len_Q, Qplus, inject_Z; simpl; apply Z.leb_gt; lia|]
         end.
  discriminate.
Qed.

Lemma default_select (c : ascii) (source : str) (st : state) :
  exists sel, select default_rules default_rule_list (c :: source) st = Some sel.
Proof.
  unfold select. apply scan_finds.
  - apply default_quality_ok.
  - apply default_rule_list_known.
  - destruct (text_matches c source) as [cap Hcap].
    exists "text"%string, (Text (OrdNum 25)), cap. split; [|split].
    + unfold default_rule_list. simpl. tauto.
    + reflexivity.
    + exact Hcap.
Qed.

Section Default.
(** The exceptions a run may raise: the one of [int], at least. *)
Context (E : string -> Prop).
Context (E_int : E int_limit_error).
Context (I : state -> Prop).
Context (I_inline : forall b st, I st -> I (set_inline b st)).
Context (I_list : forall b st, I st -> I (set_list b st)).
Context (I_in_table : forall b st, I st -> I (set_in_table b st)).
Context (I_previous : forall c st, I st -> I (set_previous_capture c st)).
Context (I_ref : forall ref st, I st -> I (register_ref ref st)).
Context (I_def : forall d target title st, I st -> I (record_def d target title st)).

Local Abbreviation wp := (wp E).
Local Abbreviation post := (post I).

Lemma default_rules_ok name rule :
  rules_get default_rules name = Some rule -> rule_ok E I name rule.
Proof using E_int I_inline I_list I_in_table I_previous I_ref I_def.
  intros Hget. unfold default_rules in Hget. cbn [build_rules rules_get] in Hget.
  repeat match type of Hget with
         | (if String.eqb ?a name then _ else _) = _ =>
             destruct (String.eqb_spec a name) as [<-|_];
             [injection Hget as <-;
              solve [ eapply Array_ok; eauto | eapply Heading_ok; eauto
                    | eapply NpTable_ok; eauto | eapply LHeading_ok; eauto
                    | eapply HR_ok; eauto | eapply CodeBlock_ok; eauto
                    | eapply Fence_ok; eauto | eapply BlockQuote_ok; eauto
                    | eapply List_ok; eauto | eapply Def_ok; eauto
                    | eapply Table_ok; eauto | eapply NewLine_ok; eauto
                    | eapply Paragraph_ok; eauto | eapply Escape_ok; eauto
                    | eapply TableSeparator_ok; eauto | eapply AutoLink_ok; eauto
                    | eapply MailTo_ok; eauto | eapply URL_ok; eauto
                    | eapply Link_ok; eauto | eapply Image_ok; eauto
                    | eapply RefLink_ok; eauto | eapply RefImage_ok; eauto
                    | eapply Em_ok; eauto | eapply Strong_ok; eauto
                    | eapply U_ok; eauto | eapply Del_ok; eauto
                    | eapply InlineCode_ok; eauto | eapply Br_ok; eauto
                    | eapply Text_ok; eauto ]|]
         end.
  discriminate.
Qed.

(** On a source that is not empty the default rules select a capture of at
    least one character. *)
Lemma default_select_progress c source st :
  I st ->
  exists name rule cap,
    select default_rules default_rule_list (c :: source) st = Some (name, rule, cap)
    /\ 1 <= length (whole cap).
Proof using E_int I_inline I_list I_in_table I_previous I_ref I_def.
  intros HI.
  destruct (default_select c source st) as [[[name rule] cap] Hsel].
  exists name, rule, cap. split; [exact Hsel|].
  destruct (select_sound _ _ _ _ _ Hsel) as [Hget Hm].
  assert (Hcb : callback_ok E I (length (c :: source)) (fun _ => ret [])).
  { intros o st' _ HI'. apply wp_ret. apply post_nil. exact HI'. }
  destruct (default_rules_ok name rule Hget (c :: source) st cap (fun _ => ret []) Hm Hcb HI)
    as [_ Hlen].
  exact Hlen.
Qed.

(** The default parse loop ends on every source, from every state of the
    invariant, with one unit of fuel per character and one more: it
    returns nodes whose reference cells are in the heap, or it raises. *)
Lemma default_nested_parse_total fuel source st :
  length source < fuel -> I st ->
  wp (nested_parse default_rules default_rule_list fuel (Some source)) st (post st).
Proof using E_int I_inline I_list I_in_table I_previous I_ref I_def.
  apply nested_parse_total.
  - assumption.
  - intros name rule. apply default_rules_ok.
  - apply default_select.
Qed.

Lemma default_raw_parse_total fuel source st :
  inline st = false -> disable_auto_block_newlines st = false ->
  length (preprocess (source ++ [ch_nl; ch_nl])) < fuel -> I st ->
  wp (default_raw_parse fuel source) st (post st).
Proof using E_int I_inline I_list I_in_table I_previous I_ref I_def.
  intros Hi Hd Hlen HI. unfold default_raw_parse, outer_parse.
  apply wp_bind, wp_get. rewrite Hi, Hd. simpl. apply wp_bind, wp_update.
  eapply wp_mono;
    [apply default_nested_parse_total; [assumption|apply I_previous; assumption]|].
  intros nodes st' Hpost. exact Hpost.
Qed.

(** The block parse of a source, from the empty state. *)
Lemma default_block_parse_total source :
  I empty_state ->
  wp (default_block_parse (parse_fuel source) source) empty_state (post empty_state).
Proof using E_int I_inline I_list I_in_table I_previous I_ref I_def.
  intros HI. unfold default_block_parse. apply wp_bind, wp_update.
  eapply wp_mono; [apply default_raw_parse_total; try reflexivity|].
  - unfold parse_fuel. lia.
  - apply I_inline. assumption.
  - intros nodes st' Hpost. exact Hpost.
Qed.
End Default.

(** * Substitution: what a result is made of *)

Section SubFacts.
Context (fl : flags) (r : regex).

Lemma search_from_all_none s : forall n p,
  (forall q, p <= q -> q <= p + n -> match_at fl r s q = None) ->
  search_from fl r s n p = None.
Proof.
  induction n as [|n IH]; simpl; intros p H; rewrite (H p) by lia; [reflexivity|].
  apply IH. intros q ? ?. apply H; lia.
Qed.

(** No match anywhere: [re.sub] returns the string itself. *)
Lemma re_sub_id repl s count :
  (forall q, q <= length s -> match_at fl r s q = None) -> re_sub fl r repl s count = s.
Proof.
  intros H. unfold re_sub. cbn [sub_from].
  destruct (negb _ && _)%bool; [apply drop_0|].
  rewrite search_from_all_none; [apply drop_0|].
  intros q _ Hq. apply H. lia.
Qed.

(** Every character of the result comes from a replacement or stands in
    [s] where the pattern does not match. *)
Lemma sub_from_Forall (Q : ascii -> Prop) repl s :
  wf r = true -> 1 <= minlen r ->
  (forall p c, s !! p = Some c -> match_at fl r s p = None -> Q c) ->
  (forall cap, Forall Q (repl cap)) ->
  forall fuel p done, length s - p < fuel -> p <= length s ->
    Forall Q (sub_from fl r repl s 0 fuel p done).
Proof.
  intros Hwf Hmin Hgap Hrepl. induction fuel as [|fuel IH]; intros p done Hf Hp; [lia|].
  cbn [sub_from Nat.eqb negb andb].
  destruct (search_from fl r s (length s - p) p) as [c|] eqn:Hs.
  - apply search_from_sound in Hs as (Hv & H1 & _ & Hnone); [|assumption|lia].
    pose proof (valid_bounds _ _ _ _ Hv) as [Hb1 Hb2].
    assert (Hlt : (c_start c <? c_end c) = true) by (apply Nat.ltb_lt; lia).
    rewrite Hlt. rewrite !Forall_app. split; [|split].
    + apply Forall_lookup. intros j x Hx.
      assert (Hj : j < c_start c - p).
      { apply lookup_lt_Some in Hx. pose proof (length_substr_le p (c_start c) s). lia. }
      rewrite lookup_substr in Hx by assumption.
      apply (Hgap _ _ Hx). apply Hnone; lia.
    + apply Hrepl.
    + apply IH; lia.
  - apply Forall_lookup. intros j x Hx. rewrite lookup_drop in Hx.
    apply (Hgap _ _ Hx). apply lookup_lt_Some in Hx.
    eapply search_from_none; [exact Hs| |]; lia.
Qed.

Lemma re_sub_Forall (Q : ascii -> Prop) repl s :
  wf r = true -> 1 <= minlen r ->
  (forall p c, s !! p = Some c -> match_at fl r s p = None -> Q c) ->
  (forall cap, Forall Q (repl cap)) ->
  Forall Q (re_sub fl r repl s 0).
Proof.
  intros Hwf Hmin Hgap Hrepl. unfold re_sub. apply sub_from_Forall; auto; lia.
Qed.
End SubFacts.

(** The match of a one-character pattern. *)
Lemma lit_match_at fl x s p :
  match_at fl (Lit x) s p =
  match s !! p with
  | Some c => if lit_eq fl x c
              then Some {| c_subject := s; c_start := p; c_end := S p; c_groups := [] |}
              else None
  | None => None
  end.
Proof.
  unfold match_at. cbn [m]. destruct (s !! p) as [c|]; [|reflexivity].
  destruct (lit_eq fl x c); reflexivity.
Qed.

Lemma cls_match_at fl neg items s p :
  match_at fl (Cls neg items) s p =
  match s !! p with
  | Some c => if xorb neg (class_has items c)
              then Some {| c_subject := s; c_start := p; c_end := S p; c_groups := [] |}
              else None
  | None => None
  end.
Proof.
  unfold match_at. cbn [m]. destruct (s !! p) as [c|]; [|reflexivity].
  destruct (xorb neg (class_has items c)); reflexivity.
Qed.

Lemma substr_single (s : str) (q : nat) (c : ascii) :
  s !! q = Some c -> substr q (S q) s = [c].
Proof.
  intros H. rewrite (substr_snoc q q s c) by auto. rewrite substr_nil. reflexivity.
Qed.

Lemma flat_map_id (P : ascii -> bool) (t : ascii -> str) (s : str) :
  Forall (fun c => P c = false) s -> flat_map (fun c => if P c then t c else [c]) s = s.
Proof.
  induction 1 as [|c s Hc _ IH]; simpl; [reflexivity|]. rewrite Hc. simpl. f_equal. exact IH.
Qed.

Lemma flat_map_Forall (Q : ascii -> Prop) (f : ascii -> str) (s : str) :
  (forall c, In c s -> Forall Q (f c)) -> Forall Q (flat_map f s).
Proof.
  induction s as [|c s IH]; simpl; intros H; [constructor|].
  apply Forall_app. split; [apply H; auto|]. apply IH. intros x Hx. apply H. auto.
Qed.

(** ** [preprocess] *)

Lemma cr_newline_gap s p c :
  s !! p = Some c -> match_at no_flags CR_NEWLINE_R s p = None -> c <> ch_cr.
Proof.
  intros Hc Hm ->.
  destruct (match_at_complete no_flags CR_NEWLINE_R eq_refl s p (S p) []) as [x Hx].
  - apply lookup_lt_Some in Hc. lia.
  - unfold CR_NEWLINE_R, opt. cbn [matches]. exists (S p), []. split.
    + exists ch_cr. repeat split; auto.
    + exists 0. simpl. repeat split; lia.
  - congruence.
Qed.

Lemma cr_newline_none s p :
  Forall (fun c => c <> ch_cr) s -> match_at no_flags CR_NEWLINE_R s p = None.
Proof.
  intros Hs. unfold match_at, CR_NEWLINE_R. cbn [m].
  destruct (s !! p) as [c|] eqn:Hc; [|reflexivity].
  destruct (lit_eq no_flags ch_cr c) eqn:E; [|reflexivity].
  apply lit_eq_no_flags in E. rewrite Forall_lookup in Hs. destruct (Hs _ _ Hc E).
Qed.

Lemma lit_sub (x : ascii) (t s : str) :
  re_sub no_flags (Lit x) (fun _ => t) s 0
  = flat_map (fun c => if lit_eq no_flags x c then t else [c]) s.
Proof.
  apply (re_sub_char no_flags (Lit x) (lit_eq no_flags x) (fun _ => t) (fun _ => t)).
  - intros s' p. apply lit_match_at.
  - reflexivity.
Qed.

Lemma lit_sub_id (x : ascii) (t s : str) :
  Forall (fun c => c <> x) s -> re_sub no_flags (Lit x) (fun _ => t) s 0 = s.
Proof.
  intros H. rewrite lit_sub. apply (flat_map_id (lit_eq no_flags x) (fun _ => t)).
  eapply Forall_impl; [exact H|]. intros c Hc. simpl in Hc.
  destruct (lit_eq no_flags x c) eqn:E; [|reflexivity].
  apply lit_eq_no_flags in E. contradiction.
Qed.

Lemma lit_sub_Forall (Q : ascii -> Prop) (x : ascii) (t s : str) :
  Forall Q t -> Forall (fun c => c <> x -> Q c) s ->
  Forall Q (re_sub no_flags (Lit x) (fun _ => t) s 0).
Proof.
  intros Ht Hs. rewrite lit_sub. apply flat_map_Forall. intros c Hin.
  destruct (lit_eq no_flags x c) eqn:E; [assumption|].
  constructor; [|constructor]. rewrite Forall_forall in Hs.
  apply Hs; [apply list_elem_of_In; assumption|].
  intros ->. assert (lit_eq no_flags x x = true) by (apply lit_eq_no_flags; reflexivity).
  congruence.
Qed.

Lemma preprocess_clean (s : str) : Forall preprocessed (preprocess s).
Proof.
  unfold preprocess. unfold TAB_R, FORMFEED_R.
  apply lit_sub_Forall.
  { repeat constructor; discriminate. }
  eapply Forall_impl with (P := fun c => c <> ch_cr /\ c <> ch_ff);
    [|intros c [? ?] ?; repeat split; assumption].
  apply lit_sub_Forall.
  { constructor. }
  eapply Forall_impl with (P := fun c => c <> ch_cr);
    [|intros c ? ?; split; assumption].
  apply re_sub_Forall.
  - reflexivity.
  - simpl. lia.
  - apply cr_newline_gap.
  - intros cap. repeat constructor; discriminate.
Qed.

Lemma preprocess_fixed (s : str) : Forall preprocessed s -> preprocess s = s.
Proof.
  intros H. unfold preprocess.
  rewrite (re_sub_id no_flags CR_NEWLINE_R).
  - unfold TAB_R, FORMFEED_R. rewrite (lit_sub_id ch_ff).
    + apply lit_sub_id. eapply Forall_impl; [exact H|]. intros c (_ & _ & ?). assumption.
    + eapply Forall_impl; [exact H|]. intros c (_ & ? & _). assumption.
  - intros q _. apply cr_newline_none.
    eapply Forall_impl; [exact H|]. intros c (? & _ & _). assumption.
Qed.

(** * Reference nodes and definitions *)

Lemma refs_inv_empty : refs_inv empty_state.
Proof.
  unfold refs_inv, refs_resolved, registered. simpl. repeat split.
  - intros ref loc (locs & H & _). rewrite lookup_empty in H. discriminate.
  - intros r1 r2 loc (locs & H & _). rewrite lookup_empty in H. discriminate.
  - intros loc H. lia.
  - intros ref loc d (locs & H & _). rewrite lookup_empty in H. discriminate.
Qed.

Lemma refs_inv_inline b st : refs_inv st -> refs_inv (set_inline b st).
Proof. intros H. exact H. Qed.

Lemma refs_inv_list b st : refs_inv st -> refs_inv (set_list b st).
Proof. intros H. exact H. Qed.

Lemma refs_inv_in_table b st : refs_inv st -> refs_inv (set_in_table b st).
Proof. intros H. exact H. Qed.

Lemma refs_inv_previous c st : refs_inv st -> refs_inv (set_previous_capture c st).
Proof. intros H. exact H. Qed.

(** ** [parse_ref] *)

Lemma registered_register_ref ref st r loc :
  registered (register_ref ref st) r loc
  <-> registered st r loc \/ (r = ref /\ loc = length (heap st)).
Proof.
  unfold registered, register_ref. simpl. split.
  - intros (locs & Hl & Hin). destruct (decide (r = ref)) as [->|Hne].
    + rewrite lookup_insert_eq in Hl. injection Hl as <-.
      apply in_app_or in Hin as [Hin|[<-|[]]]; [|auto].
      left. destruct (_refs st !! ref) as [old|]; [eauto|destruct Hin].
    + rewrite lookup_insert_ne in Hl by congruence. eauto.
  - intros [(locs & Hl & Hin)|[-> ->]].
    + destruct (decide (r = ref)) as [->|Hne].
      * rewrite lookup_insert_eq. rewrite Hl. simpl. eexists. split; [reflexivity|].
        apply in_or_app. auto.
      * rewrite lookup_insert_ne by congruence. eauto.
    + rewrite lookup_insert_eq. eexists. split; [reflexivity|].
      apply in_or_app. right. left. reflexivity.
Qed.

Lemma refs_inv_register_ref ref st : refs_inv st -> refs_inv (register_ref ref st).
Proof.
  intros (Hb & Ha & Hc & Hr).
  assert (Hheap : heap (register_ref ref st) = heap st ++ [_defs st !! ref]) by reflexivity.
  assert (Hdefs : _defs (register_ref ref st) = _defs st) by reflexivity.
  unfold refs_inv, refs_resolved. rewrite Hheap, Hdefs, length_app. simpl.
  repeat split.
  - intros r loc H. apply registered_register_ref in H as [H|[_ ->]]; [|lia].
    apply Hb in H. lia.
  - intros r1 r2 loc H1 H2.
    apply registered_register_ref in H1 as [H1|[-> ->]];
      apply registered_register_ref in H2 as [H2|[-> E2]].
    + eauto.
    + apply Hb in H1. lia.
    + apply Hb in H2. lia.
    + reflexivity.
  - intros loc Hloc. destruct (Nat.eq_dec loc (length (heap st))) as [->|Hne].
    + exists ref. apply registered_register_ref. auto.
    + destruct (Hc loc ltac:(lia)) as [r Hreg]. exists r.
      apply registered_register_ref. auto.
  - intros r loc d H Hd. apply registered_register_ref in H as [H|[-> ->]].
    + rewrite lookup_app_l by (eapply Hb; eauto). eauto.
    + rewrite lookup_app_r by lia. rewrite Nat.sub_diag. simpl. congruence.
Qed.

(** ** [Def.parse] *)

Lemma patch_refs_other locs target title loc : ~ In loc locs -> forall h,
  patch_refs locs target title h !! loc = h !! loc.
Proof.
  unfold patch_refs. induction locs as [|l locs IH]; intros Hin h; simpl; [reflexivity|].
  rewrite IH by (intros ?; apply Hin; right; assumption).
  apply list_lookup_insert_ne. intros ->. apply Hin. left. reflexivity.
Qed.

Lemma patch_refs_hit locs target title loc : In loc locs -> forall h,
  loc < length h -> patch_refs locs target title h !! loc = Some (Some (target, title)).
Proof.
  unfold patch_refs. induction locs as [|l locs IH]; intros Hin h Hlt; [destruct Hin|].
  simpl. destruct (in_dec Nat.eq_dec loc locs) as [Hin'|Hout].
  - apply IH; [assumption|]. rewrite length_insert. assumption.
  - destruct Hin as [->|Hin]; [|contradiction].
    fold (patch_refs locs target title (<[loc:=Some (target, title)]> h)).
    rewrite patch_refs_other by assumption.
    apply list_lookup_insert_eq. assumption.
Qed.

Lemma registered_record_def name target title st r loc :
  registered (record_def name target title st) r loc <-> registered st r loc.
Proof.
  unfold registered, record_def. destruct (_refs st !! name); reflexivity.
Qed.

Lemma defs_record_def name target title st :
  _defs (record_def name target title st) = <[name := (target, title)]> (_defs st).
Proof. reflexivity. Qed.

(** The nodes that wait under the name of a definition get its target and
    title; the other nodes stay as they are. *)
Lemma heap_record_def_hit name target title st loc :
  refs_inv st -> registered st name loc ->
  heap (record_def name target title st) !! loc = Some (Some (target, title)).
Proof.
  intros (Hb & _) (locs & Hl & Hin). unfold record_def. rewrite Hl. simpl.
  apply patch_refs_hit; [assumption|]. apply (Hb name). exists locs. auto.
Qed.

Lemma heap_record_def_other name target title st r loc :
  refs_inv st -> registered st r loc -> r <> name ->
  heap (record_def name target title st) !! loc = heap st !! loc.
Proof.
  intros (_ & Ha & _) Hreg Hne. unfold record_def.
  destruct (_refs st !! name) as [locs|] eqn:Hl; [|reflexivity]. simpl.
  apply patch_refs_other. intros Hin. apply Hne. apply (Ha r name loc Hreg).
  exists locs. auto.
Qed.

Lemma refs_inv_record_def name target title st :
  refs_inv st -> refs_inv (record_def name target title st).
Proof.
  intros Hinv. pose proof Hinv as (Hb & Ha & Hc & Hr).
  unfold refs_inv, refs_resolved. rewrite length_heap_record_def, defs_record_def.
  repeat split.
  - intros r loc H. apply registered_record_def in H. eauto.
  - intros r1 r2 loc H1 H2. apply registered_record_def in H1, H2. eauto.
  - intros loc Hloc. destruct (Hc loc Hloc) as [r Hreg]. exists r.
    apply registered_record_def. assumption.
  - intros r loc d H Hd. apply registered_record_def in H.
    destruct (decide (r = name)) as [->|Hne].
    + rewrite lookup_insert_eq in Hd. injection Hd as <-.
      apply heap_record_def_hit; assumption.
    + rewrite lookup_insert_ne in Hd by congruence.
      rewrite (heap_record_def_other name target title st r loc) by assumption.
      eauto.
Qed.

(** * The element-format joiner *)

Lemma merge_text_bound arr : forall fuel i content j content',
  i < length arr -> merge_text arr i content fuel = Some (j, content') -> j < length arr.
Proof.
  induction fuel as [|fuel IH]; simpl; intros i content j content' Hi H.
  - injection H as <- _. assumption.
  - destruct (arr !! (i + 1)) as [next|] eqn:Hn.
    + apply lookup_lt_Some in Hn.
      destruct (is_type "text" next).
      * destruct (node_fields next); try discriminate. eapply IH; [|exact H]. assumption.
      * injection H as <- _. assumption.
    + injection H as <- _. assumption.
Qed.

Lemma joined_node_bound arr i nd j nd' :
  i < length arr -> joined_node arr i nd = Some (j, nd') -> j < length arr.
Proof.
  intros Hi H. unfold joined_node in H. destruct (is_type "text" nd).
  - destruct (node_fields nd) as [| |c| | | | | | | | |]; try discriminate.
    destruct (merge_text arr i c (length arr)) as [[k content]|] eqn:Hm; [|discriminate].
    injection H as <- _. eapply merge_text_bound; eauto.
  - injection H as <- _. assumption.
Qed.

Section ReactLoop.
Context {R : Type} (output : node -> rstate -> routcome R) (arr : list node).

(** The index stays inside the list: an iteration leaves [i] on the node it
    rendered. *)
Lemma react_body_bound l l' st' :
  l_i l < length arr -> react_body output arr l = ROk l' st' -> l_i l' < length arr.
Proof.
  intros Hi H. unfold react_body in H.
  destruct (arr !! l_i l) as [nd|]; [|discriminate].
  destruct (joined_node arr (l_i l) nd) as [[i' nd']|] eqn:Hj; [|discriminate].
  destruct (output nd' _); try discriminate.
  injection H as <- _. simpl. eapply joined_node_bound; eauto.
Qed.

Lemma react_loop_never old_key : forall fuel l,
  l_i l < length arr -> returns (react_loop output arr old_key fuel l) = false.
Proof.
  induction fuel as [|fuel IH]; intros l Hi; [reflexivity|].
  cbn [react_loop]. apply Nat.ltb_lt in Hi as Hlt. rewrite Hlt.
  destruct (react_body output arr l) as [l' st'| |] eqn:Hb; [|reflexivity..].
  apply IH. eapply react_body_bound; eauto.
Qed.
End ReactLoop.

Lemma react_loop_text old_key : forall fuel l,
  l_i l = 0 ->
  react_loop Text_react [Node "text" (PText "a")] old_key fuel l = RTimeout.
Proof.
  induction fuel as [|fuel IH]; intros l Hi; [reflexivity|].
  cbn [react_loop]. rewrite Hi. cbn [length Nat.ltb Nat.leb].
  unfold react_body. rewrite Hi. simpl. apply IH. reflexivity.
Qed.

(** * Escaping, and the rule list *)

Lemma sanitize_text_flat_map (s : str) :
  sanitize_text s = flat_map (fun c => if needs_escape c then sanitize_code c else [c]) s.
Proof.
  unfold sanitize_text, SANITIZE_TEXT_R.
  apply (re_sub_char no_flags _ needs_escape _ sanitize_code).
  - intros s' p. rewrite cls_match_at. reflexivity.
  - intros s' p c Hc _. unfold whole. simpl. rewrite (substr_single _ _ _ Hc). reflexivity.
Qed.

Lemma sanitize_text_plain (s : str) :
  Forall (fun c => needs_escape c = false) s -> sanitize_text s = s.
Proof. intros H. rewrite sanitize_text_flat_map. apply flat_map_id. exact H. Qed.

Lemma sanitize_code_nonempty (c : ascii) : sanitize_code c <> [].
Proof. unfold sanitize_code. repeat destruct (ascii_eqb _ _); discriminate. Qed.

Lemma sanitize_text_nonempty (s : str) : s <> [] -> sanitize_text s <> [].
Proof.
  intros Hs. rewrite sanitize_text_flat_map. destruct s as [|c s]; [congruence|].
  simpl. destruct (needs_escape c).
  - pose proof (sanitize_code_nonempty c). destruct (sanitize_code c); [congruence|discriminate].
  - discriminate.
Qed.

(** ** The rule list holds the keys that pass [filter_rules] *)

Lemma filter_keys_In (rules : rules_t) (name : string) :
  fst (filter_rules rules name) = true ->
  forall keys, In name keys -> In name (fst (filter_keys rules keys)).
Proof.
  intros Hkeep. induction keys as [|k keys IH]; simpl; intros Hin; [assumption|].
  destruct (filter_rules rules k) as [keep out] eqn:Hk.
  destruct (filter_keys rules keys) as [rest outs]. simpl in *.
  destruct Hin as [->|Hin].
  - rewrite Hk in Hkeep. simpl in Hkeep. subst keep. left. reflexivity.
  - destruct keep; [right|]; auto.
Qed.

Lemma insert_sorted_In cmp (x : string) : forall l r,
  insert_sorted cmp x l = Some r -> forall y, In y r <-> y = x \/ In y l.
Proof.
  induction l as [|z l IH]; simpl; intros r H y.
  - injection H as <-. simpl. intuition.
  - destruct (cmp z x) as [c|]; [|discriminate].
    destruct (0 <? c)%Z.
    + injection H as <-. simpl. intuition.
    + destruct (insert_sorted cmp x l) as [r'|]; [|discriminate].
      injection H as <-. simpl. rewrite (IH r' eq_refl y). intuition.
Qed.

Lemma sort_keys_In cmp : forall l acc r,
  fold_left (fun acc x => match acc with
                          | Some sorted => insert_sorted cmp x sorted
                          | None => None
                          end) l acc = Some r ->
  exists a, acc = Some a /\ forall y, In y r <-> In y l \/ In y a.
Proof.
  induction l as [|x l IH]; simpl; intros acc r H.
  - exists r. split; [assumption|]. intuition.
  - apply IH in H as (a & Ha & Hin). destruct acc as [a0|]; [|discriminate].
    exists a0. split; [reflexivity|]. intros y. rewrite Hin.
    rewrite (insert_sorted_In cmp x a0 a Ha y). intuition.
Qed.

Lemma rule_list_of_In (rules : rules_t) (l : list string) (name : string) :
  rule_list_of rules = Some l -> fst (filter_rules rules name) = true ->
  In name (rules_keys rules) -> In name l.
Proof.
  intros Hl Hkeep Hin. unfold rule_list_of, sort_keys in Hl.
  apply sort_keys_In in Hl as (a & _ & H). apply H. left.
  apply filter_keys_In; assumption.
Qed.

(** * Escaping and URLs *)

Lemma needs_escape_false (c : ascii) :
  needs_escape c = false ->
  c <> "<"%char /\ c <> ">"%char /\ c <> "&"%char /\ c <> ch_dq /\ c <> "'"%char.
Proof.
  unfold needs_escape, class_has. cbn [existsb item_has]. unfold ascii_eqb.
  intros H. repeat (apply orb_false_elim in H as [? H]).
  repeat split; intros ->; discriminate.
Qed.

Lemma needs_escape_true (c : ascii) :
  needs_escape c = true ->
  c = "<"%char \/ c = ">"%char \/ c = "&"%char \/ c = ch_dq \/ c = "'"%char.
Proof.
  unfold needs_escape, class_has. cbn [existsb item_has]. unfold ascii_eqb.
  intros H. repeat (apply orb_prop in H as [H|H]); try discriminate;
    apply Ascii.eqb_eq in H; subst; auto 6.
Qed.

(** The entity of an escaped character: longer than the character, and
    without markup characters. *)
Lemma sanitize_code_entity (c : ascii) :
  needs_escape c = true ->
  2 <= length (sanitize_code c) /\ Forall (fun x => ~ In x markup_chars) (sanitize_code c).
Proof.
  intros H. apply needs_escape_true in H as [ -> | [ -> | [ -> | [ -> | -> ] ] ] ];
    (split; [vm_compute; lia|]);
    repeat (constructor; [intros [E|[E|[E|[E|[]]]]]; discriminate E|]); constructor.
Qed.

Lemma sanitize_text_clean (s : str) :
  Forall (fun x => ~ In x markup_chars) (sanitize_text s).
Proof.
  rewrite sanitize_text_flat_map. apply flat_map_Forall. intros c _.
  destruct (needs_escape c) eqn:E.
  - apply sanitize_code_entity. assumption.
  - apply needs_escape_false in E as (H1 & H2 & _ & H4 & H5).
    constructor; [|constructor]. intros [ <- | [ <- | [ <- | [ <- | [] ] ] ] ]; congruence.
Qed.

Lemma sanitize_text_app (a b : str) :
  sanitize_text (a ++ b) = sanitize_text a ++ sanitize_text b.
Proof. rewrite !sanitize_text_flat_map. apply flat_map_app. Qed.

Lemma sanitize_text_length (s : str) : length s <= length (sanitize_text s).
Proof.
  rewrite sanitize_text_flat_map. induction s as [|c s IH]; simpl; [lia|].
  rewrite length_app. destruct (needs_escape c) eqn:E.
  - pose proof (sanitize_code_entity c E) as [? _]. lia.
  - simpl. lia.
Qed.

Lemma sanitize_text_fixed (s : str) :
  sanitize_text s = s -> Forall (fun c => needs_escape c = false) s.
Proof.
  induction s as [|c s IH]; intros H; [constructor|].
  pose proof (sanitize_text_length s) as Hlen.
  change (c :: s) with ([c] ++ s) in H at 1. rewrite sanitize_text_app in H.
  rewrite (sanitize_text_flat_map [c]) in H. simpl in H. rewrite app_nil_r in H.
  destruct (needs_escape c) eqn:E.
  - pose proof (sanitize_code_entity c E) as [? _].
    apply (f_equal (@length ascii)) in H. rewrite length_app in H. simpl in H. lia.
  - simpl in H. injection H as H. constructor; auto.
Qed.

(** ** [html_tag] *)

Lemma quotes_app (a b : str) : quotes (a ++ b) = quotes a + quotes b.
Proof. unfold quotes. rewrite filter_app, length_app. reflexivity. Qed.

Lemma quotes_clean (s : str) : Forall (fun x => ~ In x markup_chars) s -> quotes s = 0.
Proof.
  unfold quotes. induction 1 as [|c s Hc _ IH]; [reflexivity|].
  rewrite filter_cons. destruct (decide (ascii_eqb c ch_dq = true)) as [E|E].
  - exfalso. apply Hc. apply Ascii.eqb_eq in E. subst. simpl. auto.
  - exact IH.
Qed.

Lemma quotes_sanitize_text (s : str) : quotes (sanitize_text s) = 0.
Proof. apply quotes_clean, sanitize_text_clean. Qed.

(** The attribute string of [html_tag]. *)
Lemma attribute_string_filter (attributes : list (string * option str)) :
  flat_map (fun '(attr, v) =>
              match v with
              | Some (c :: v') =>
                  [ch_sp] ++ sanitize_text (str_of_string attr) ++ str_of_string "=" ++ [ch_dq]
                  ++ sanitize_text (c :: v') ++ [ch_dq]
              | _ => []
              end) attributes
  = flat_map (fun '(attr, v) =>
              match v with
              | Some (c :: v') =>
                  [ch_sp] ++ sanitize_text (str_of_string attr) ++ str_of_string "=" ++ [ch_dq]
                  ++ sanitize_text (c :: v') ++ [ch_dq]
              | _ => []
              end) (List.filter has_value attributes).
Proof.
  induction attributes as [|[attr v] l IH]; [reflexivity|].
  cbn [flat_map List.filter]. unfold has_value at 1. cbn [snd].
  destruct v as [[|c v']|]; cbn [flat_map]; rewrite IH; reflexivity.
Qed.

Lemma attribute_string_quotes (attributes : list (string * option str)) :
  quotes (flat_map (fun '(attr, v) =>
              match v with
              | Some (c :: v') =>
                  [ch_sp] ++ sanitize_text (str_of_string attr) ++ str_of_string "=" ++ [ch_dq]
                  ++ sanitize_text (c :: v') ++ [ch_dq]
              | _ => []
              end) attributes)
  = 2 * length (List.filter has_value attributes).
Proof.
  induction attributes as [|[attr v] l IH]; [reflexivity|].
  cbn [flat_map List.filter]. unfold has_value at 1. cbn [snd].
  rewrite quotes_app, IH.
  destruct v as [[|c v']|]; [reflexivity| |reflexivity].
  rewrite !quotes_app, !quotes_sanitize_text. cbn [length]. vm_compute (quotes [ch_sp]).
  vm_compute (quotes (str_of_string "=")). vm_compute (quotes [ch_dq]). lia.
Qed.

(** ** [sanitize_url] *)

Lemma unquote_plain_app (p s : str) :
  Forall (fun c => c <> "%"%char) p -> unquote (p ++ s) = p ++ unquote s.
Proof.
  induction 1 as [|c p Hc _ IH]; [reflexivity|].
  simpl. unfold ascii_eqb. destruct (Ascii.eqb_spec c "%"); [contradiction|].
  rewrite IH. reflexivity.
Qed.

Lemma unquote_plain (s : str) : Forall (fun c => c <> "%"%char) s -> unquote s = s.
Proof.
  intros H. rewrite <- (app_nil_r s) at 1. rewrite unquote_plain_app by assumption.
  simpl. apply app_nil_r.
Qed.

(** The [re.sub] of [sanitize_url] deletes the characters outside the
    class, one by one. *)
Lemma protocol_strip_flat_map (s : str) :
  re_sub no_flags PROTOCOL_STRIP_R (fun _ => []) s 0
  = flat_map (fun c =>
                if xorb true (class_has [CRange "A" "Z"; CRange "a" "z"; CRange "0" "9";
                                         CChar "/"; CChar ":"] c)
                then [] else [c]) s.
Proof.
  unfold PROTOCOL_STRIP_R.
  apply (re_sub_char no_flags _
           (fun c => xorb true (class_has [CRange "A" "Z"; CRange "a" "z"; CRange "0" "9";
                                           CChar "/"; CChar ":"] c))
           (fun _ => []) (fun _ => [])).
  - intros s' p. apply cls_match_at.
  - reflexivity.
Qed.

Lemma starts_with_app (pre s : str) : starts_with pre (pre ++ s) = true.
Proof.
  unfold starts_with. apply bool_decide_eq_true. apply take_app_length.
Qed.

Lemma lower_char_colon (c : ascii) : lower_char c = ":"%char -> c = ":"%char.
Proof.
  destruct c as [b0 b1 b2 b3 b4 b5 b6 b7].
  destruct b0, b1, b2, b3, b4, b5, b6, b7; vm_compute; intros H;
    first [reflexivity | discriminate H].
Qed.

Lemma starts_with_needs (x : ascii) (pre s : str) :
  In x pre -> Forall (fun c => c <> x) s -> starts_with pre s = false.
Proof.
  intros Hin Hs. unfold starts_with. apply bool_decide_eq_false. intros E.
  rewrite <- E in Hin. apply list_elem_of_In in Hin.
  apply elem_of_take in Hin as (i & Hi & _).
  rewrite Forall_lookup in Hs. apply (Hs _ _ Hi). reflexivity.
Qed.

(** ** [unescape_url] *)

Lemma unescape_url_none (s : str) (q : nat) :
  Forall (fun c => c <> "\"%char) s -> match_at no_flags UNESCAPE_URL_R s q = None.
Proof.
  intros Hs. unfold match_at, UNESCAPE_URL_R. cbn [m].
  destruct (s !! q) as [c|] eqn:Hc; [|reflexivity].
  destruct (lit_eq no_flags "\" c) eqn:E; [|reflexivity].
  apply lit_eq_no_flags in E. rewrite Forall_lookup in Hs. destruct (Hs _ _ Hc E).
Qed.

(** * The HTML joiner *)

Lemma hbind_ok (c : hres) : hbind c HOk = c.
Proof. destruct c; reflexivity. Qed.

Lemma hbind_ext (c : hres) (k1 k2 : str -> hres) :
  (forall s, k1 s = k2 s) -> hbind c k1 = hbind c k2.
Proof. intros H. destruct c; simpl; auto. Qed.

Lemma hbind_assoc (c : hres) (k1 k2 : str -> hres) :
  hbind (hbind c k1) k2 = hbind c (fun s => hbind (k1 s) k2).
Proof. destruct c; reflexivity. Qed.

Lemma text_node_shape (n : node) :
  text_ok n -> is_type "text" n = true -> exists c, n = text_node c.
Proof.
  intros Hok Ht. destruct n as [t f]. unfold is_type in Ht. simpl in Ht.
  apply String.eqb_eq in Ht. subst t. destruct (Hok eq_refl) as [c Hc].
  simpl in Hc. subst f. exists c. reflexivity.
Qed.

Lemma merge_text_some (arr : list node) :
  Forall text_ok arr -> forall fuel i content,
  exists j content', merge_text arr i content fuel = Some (j, content').
Proof.
  intros Hok. induction fuel as [|fuel IH]; intros i content; simpl; [eauto|].
  destruct (arr !! (i + 1)) as [next|] eqn:Hn; [|eauto].
  destruct (is_type "text" next) eqn:Ht; [|eauto].
  rewrite Forall_lookup in Hok.
  destruct (text_node_shape next (Hok _ _ Hn) Ht) as [c ->]. simpl. apply IH.
Qed.

Lemma joined_node_some (arr : list node) :
  Forall text_ok arr -> forall i n, In n arr ->
  exists j n', joined_node arr i n = Some (j, n').
Proof.
  intros Hok i n Hin. unfold joined_node. destruct (is_type "text" n) eqn:Ht; [|eauto].
  rewrite Forall_forall in Hok. apply list_elem_of_In in Hin.
  destruct (text_node_shape n (Hok _ Hin) Ht) as [c ->]. cbn [node_fields text_node].
  assert (Hok' : Forall text_ok arr) by (apply Forall_forall; assumption).
  destruct (merge_text_some arr Hok' (length arr) i c) as (j & c' & ->). eauto.
Qed.

Section Joiner.
Context (output : ast -> hres) (arr : list node).
Context (Hok : Forall text_ok arr).

(** The plain join of the nodes from index [i]. *)
Let joined (i : nat) : hres := hconcat (map (fun n => output (ANode n)) (drop i arr)).

Lemma joined_end i : length arr <= i -> joined i = HOk [].
Proof using Type. intros H. unfold joined. rewrite drop_ge by assumption. reflexivity. Qed.

Lemma joined_step i n :
  arr !! i = Some n ->
  joined i = hbind (output (ANode n))
               (fun s => hbind (joined (S i)) (fun r => HOk (s ++ r))).
Proof using Type. intros H. unfold joined. rewrite (drop_S arr n i H). reflexivity. Qed.

Section Additive.
Context (f : str -> str).
Context (Hf : forall a b, f (a ++ b) = f a ++ f b).
Context (Htext : forall c, output (ANode (text_node c)) = HOk (f c)).

Lemma additive_nil : f [] = [].
Proof using Hf.
  pose proof (Hf [] []) as H. simpl in H.
  apply (f_equal (@length ascii)) in H. rewrite length_app in H.
  destruct (f []); [reflexivity|simpl in H; lia].
Qed.

(** The run of text nodes behind [i] that [merge_text] takes renders, one
    node after the other, to what the merged content renders to. *)
Lemma merge_text_joined : forall fuel i content,
  exists j cs,
    merge_text arr i content fuel = Some (j, content ++ cs) /\ i <= j /\
    joined (S i) = hbind (joined (S j)) (fun s => HOk (f cs ++ s)).
Proof using Hok Hf Htext.
  induction fuel as [|fuel IH]; intros i content.
  - exists i, []. simpl. rewrite app_nil_r, additive_nil. split; [reflexivity|].
    split; [lia|]. symmetry. apply hbind_ok.
  - cbn [merge_text]. rewrite Nat.add_1_r.
    destruct (arr !! S i) as [next|] eqn:Hn.
    + destruct (is_type "text" next) eqn:Ht.
      * pose proof (proj1 (Forall_lookup _ _) Hok) as Hall.
        destruct (text_node_shape next (Hall _ _ Hn) Ht) as [c ->]. cbn [node_fields text_node].
        destruct (IH (S i) (content ++ c)) as (j & cs & Hm & Hj & Hjoin).
        exists j, (c ++ cs). rewrite Hm, app_assoc. split; [reflexivity|]. split; [lia|].
        rewrite (joined_step (S i) _ Hn), Htext. cbn [hbind]. rewrite Hjoin, hbind_assoc.
        apply hbind_ext. intros s. simpl. rewrite Hf, app_assoc. reflexivity.
      * exists i, []. rewrite app_nil_r, additive_nil. split; [reflexivity|].
        split; [lia|]. symmetry. apply hbind_ok.
    + exists i, []. rewrite app_nil_r, additive_nil. split; [reflexivity|].
      split; [lia|]. symmetry. apply hbind_ok.
Qed.

Lemma array_html_loop_joined : forall fuel i result,
  length arr - i < fuel ->
  array_html_loop output arr fuel i result = hbind (joined i) (fun s => HOk (result ++ s)).
Proof using Hok Hf Htext.
  induction fuel as [|fuel IH]; intros i result Hfuel; [lia|].
  cbn [array_html_loop]. destruct (arr !! i) as [n|] eqn:Hn.
  - apply lookup_lt_Some in Hn as Hlt. rewrite (joined_step i n Hn).
    unfold joined_node. destruct (is_type "text" n) eqn:Ht.
    + pose proof (proj1 (Forall_lookup _ _) Hok) as Hall.
      destruct (text_node_shape n (Hall _ _ Hn) Ht) as [c ->]. cbn [node_fields text_node].
      destruct (merge_text_joined (length arr) i c) as (j & cs & -> & Hj & Hjoin).
      fold (text_node (c ++ cs)). rewrite !Htext. cbn [hbind].
      rewrite IH by lia. rewrite Nat.add_1_r, Hjoin, !hbind_assoc.
      apply hbind_ext. intros s. simpl. rewrite Hf, <- !app_assoc. reflexivity.
    + rewrite hbind_assoc. apply hbind_ext. intros s.
      rewrite IH by lia. rewrite Nat.add_1_r, hbind_assoc.
      apply hbind_ext. intros r. simpl. rewrite app_assoc. reflexivity.
  - apply lookup_ge_None in Hn. rewrite joined_end by assumption. simpl.
    rewrite app_nil_r. reflexivity.
Qed.

Lemma Array_html_joined :
  Array_html arr output = hconcat (map (fun n => output (ANode n)) arr).
Proof using Hok Hf Htext.
  unfold Array_html. rewrite array_html_loop_joined by lia.
  unfold joined. rewrite drop_0. apply hbind_ok.
Qed.
End Additive.
End Joiner.

(** ** A list of text nodes *)

Lemma merge_text_all (output : ast -> hres) (ss : list str) : forall fuel i content,
  i < length ss -> length ss <= i + 1 + fuel ->
  merge_text (map text_node ss) i content fuel
  = Some (length ss - 1, content ++ concat (drop (S i) ss)).
Proof.
  induction fuel as [|fuel IH]; intros i content Hi Hfuel.
  - simpl. rewrite drop_ge by lia. simpl. rewrite app_nil_r.
    replace (length ss - 1) with i by lia. reflexivity.
  - cbn [merge_text]. rewrite Nat.add_1_r, list_lookup_fmap.
    destruct (ss !! S i) as [c|] eqn:Hc; simpl.
    + apply lookup_lt_Some in Hc as Hlt. rewrite IH by lia.
      rewrite (drop_S ss c (S i) Hc). simpl. rewrite app_assoc. reflexivity.
    + apply lookup_ge_None in Hc. rewrite drop_ge by lia. simpl. rewrite app_nil_r.
      replace (length ss - 1) with i by lia. reflexivity.
Qed.

Lemma joined_node_texts (output : ast -> hres) (ss : list str) (i : nat) (c : str) :
  ss !! i = Some c ->
  joined_node (map text_node ss) i (text_node c)
  = Some (length ss - 1, text_node (concat (drop i ss))).
Proof.
  intros Hc. apply lookup_lt_Some in Hc as Hlt.
  unfold joined_node. change (is_type "text" (text_node c)) with true.
  cbn [node_fields text_node]. rewrite length_map.
  rewrite (merge_text_all output ss (length ss) i c) by lia.
  rewrite (drop_S ss c i Hc). reflexivity.
Qed.

Lemma Array_html_texts (output : ast -> hres) (s : str) (ss : list str) :
  Array_html (map text_node (s :: ss)) output = output (ANode (text_node (concat (s :: ss)))).
Proof.
  unfold Array_html. rewrite length_map.
  set (l := s :: ss). assert (Hl : l !! 0 = Some s) by reflexivity.
  assert (Hlen : length l = S (length ss)) by reflexivity.
  rewrite Hlen. cbn [array_html_loop].
  rewrite list_lookup_fmap, Hl. cbn [fmap option_fmap option_map].
  rewrite (joined_node_texts output l 0 s Hl). rewrite drop_0.
  destruct (output (ANode (text_node (concat l)))) as [r| |]; cbn [hbind]; [|reflexivity..].
  rewrite Hlen. replace (S (length ss) - 1 + 1) with (length l) by lia.
  destruct (length ss) eqn:E; cbn [array_html_loop].
  - destruct ss; [|discriminate]. reflexivity.
  - rewrite lookup_ge_None_2; [reflexivity|]. rewrite length_map. lia.
Qed.

(** * Facts about single rules *)

(** ** [Heading] *)

Lemma heading_capture (s : str) (cap : capture) :
  re_match no_flags HEADING_R s = Some cap ->
  exists hashes, group cap 1 = Some hashes /\ 1 <= length hashes /\ length hashes <= 6
                 /\ Forall (fun c => c = "#"%char) hashes.
Proof.
  intros Hm. apply re_match_valid in Hm as [Hv Hst]; [|reflexivity].
  destruct Hv as (Hs & _ & H). rewrite Hst in H.
  unfold HEADING_R in H. cbn [cats] in H.
  match type of H with
  | matches _ _ (Cat _ (Cat _ (Cat _ (Cat _ ?tail)))) _ _ _ _ => set (T := tail) in H
  end.
  cbn [matches] in H.
  destruct H as (p0 & g0 & (_ & -> & ->) & a & g1 & Hstar
                 & a2 & g2 & (g2' & Hhash & ->)
                 & a3 & g3 & (g3' & Hbody & ->) & Hrest).
  assert (Hstar' : matches no_flags s (star SP) 0 [] a g1) by exact Hstar.
  assert (Hhash' : matches no_flags s (Rep false 1 (Some 6) (Lit "#")) a g1 a2 g2')
    by exact Hhash.
  assert (Ha : a <= length s) by (eapply matches_inside; [|exact Hstar']; lia).
  pose proof (matches_bounds _ _ _ _ _ _ _ Ha Hhash') as [_ Ha2].
  apply matches_nogroups in Hrest; [|reflexivity].
  assert (Hbody' : matches no_flags s (plus_lazy not_nl) a2 (gset 1 (a, a2) g2') a3 g3')
    by exact Hbody.
  apply matches_nogroups in Hbody'; [|reflexivity]. subst g3'.
  apply matches_rep_char_elim with (P := lit_eq no_flags "#") in Hhash'
    as (_ & Hlo & Hhi & Hall); [|apply char_step_lit].
  simpl in Hhi.
  exists (substr a a2 s). unfold group. rewrite Hrest, Hs. simpl.
  rewrite length_substr by assumption. repeat split; try lia.
  apply Forall_lookup. intros j x Hx.
  assert (Hj : j < a2 - a).
  { apply lookup_lt_Some in Hx. rewrite length_substr in Hx by assumption. assumption. }
  rewrite lookup_substr in Hx by assumption.
  destruct (Hall (a + j) ltac:(lia) ltac:(lia)) as (c & Hc & He).
  rewrite Hc in Hx. injection Hx as <-. apply lit_eq_no_flags in He. assumption.
Qed.

(** ** [MailTo] *)

Lemma lit_eq_ignorecase (x c : ascii) :
  lit_eq fl_ignorecase x c = true -> lower_char c = lower_char x.
Proof.
  unfold lit_eq, ascii_eqb. cbn [ignorecase fl_ignorecase]. intros H.
  apply Ascii.eqb_eq in H. congruence.
Qed.

Lemma mailto_check_prefix (address : str) :
  is_some (re_match fl_ignorecase AUTOLINK_MAILTO_CHECK_R address) = true ->
  lower (take 7 address) = str_of_string "mailto:".
Proof.
  destruct (re_match fl_ignorecase AUTOLINK_MAILTO_CHECK_R address) as [cap|] eqn:Hm;
    [intros _|discriminate].
  apply re_match_valid in Hm as [(_ & _ & H) Hst]; [|reflexivity].
  rewrite Hst in H. unfold AUTOLINK_MAILTO_CHECK_R, lits in H.
  cbn [str_of_string list_ascii_of_string map cats matches] in H.
  destruct H as (p1 & g1 & (c0 & H0 & E0 & -> & ->) & p2 & g2 & (c1 & H1 & E1 & -> & ->)
                 & p3 & g3 & (c2 & H2 & E2 & -> & ->) & p4 & g4 & (c3 & H3 & E3 & -> & ->)
                 & p5 & g5 & (c4 & H4 & E4 & -> & ->) & p6 & g6 & (c5 & H5 & E5 & -> & ->)
                 & (c6 & H6 & E6 & _)).
  destruct address as [|a0 [|a1 [|a2 [|a3 [|a4 [|a5 [|a6 rest]]]]]]]; try discriminate.
  simpl in H0, H1, H2, H3, H4, H5, H6.
  injection H0 as <-. injection H1 as <-. injection H2 as <-. injection H3 as <-.
  injection H4 as <-. injection H5 as <-. injection H6 as <-.
  apply lit_eq_ignorecase in E0, E1, E2, E3, E4, E5, E6.
  unfold lower. cbn [take map]. rewrite E0, E1, E2, E3, E4, E5, E6. reflexivity.
Qed.

(** ** The scopes of the default rules *)

Lemma default_rule_scope (name : string) (rule : rule) (source : str) (st : state)
    (cap : capture) :
  rules_get default_rules name = Some rule ->
  rule_match rule source st (previous_capture_string st) = Some cap ->
  (inline st = true -> ~ In name block_rule_names)
  /\ (inline st = false -> ~ In name inline_rule_names)
  /\ (in_table st = false -> name <> "tableSeparator"%string)
  /\ name <> "Array"%string.
Proof.
  intros Hget Hm. unfold default_rules in Hget. cbn [build_rules rules_get] in Hget.
  repeat match type of Hget with
         | (if String.eqb ?a name then _ else _) = _ =>
             destruct (String.eqb_spec a name) as [<-|_];
             [injection Hget as <-;
              match type of Hm with
              | rule_match (?f _) _ _ _ = _ =>
                  unfold f, mk_rule, mk_rule_q, rule_match in Hm; cbn [r_match] in Hm
              end;
              first [ discriminate Hm
                    | apply block_regex_match in Hm as [_ Hin];
                      repeat split; try discriminate;
                      [intros E; congruence
                      |intros _ HIn; cbn in HIn; intuition discriminate]
                    | apply inline_regex_match in Hm as [_ Hin];
                      repeat split; try discriminate;
                      [intros _ HIn; cbn in HIn; intuition discriminate
                      |intros E; congruence]
                    | unfold TableSeparator_match in Hm;
                      destruct (in_table st) eqn:Htab; [|discriminate Hm];
                      repeat split; try discriminate;
                      intros _ HIn; cbn in HIn; intuition discriminate
                    | repeat split; try discriminate;
                      intros _ HIn; cbn in HIn; intuition discriminate ]
             |]
         end.
  discriminate.
Qed.

(** ** References without a definition *)

Lemma refs_pending_register_ref ref st :
  refs_inv st -> refs_pending st -> refs_pending (register_ref ref st).
Proof.
  intros (Hb & _) Hp r loc H Hd.
  assert (Hheap : heap (register_ref ref st) = heap st ++ [_defs st !! ref]) by reflexivity.
  assert (Hdefs : _defs (register_ref ref st) = _defs st) by reflexivity.
  rewrite Hheap. rewrite Hdefs in Hd.
  apply registered_register_ref in H as [H|[-> ->]].
  - rewrite lookup_app_l by (eapply Hb; eauto). eauto.
  - rewrite lookup_app_r by lia. rewrite Nat.sub_diag. simpl. congruence.
Qed.

Lemma refs_pending_record_def name target title st :
  refs_inv st -> refs_pending st -> refs_pending (record_def name target title st).
Proof.
  intros Hinv Hp r loc H Hd. apply registered_record_def in H.
  rewrite defs_record_def in Hd.
  destruct (decide (r = name)) as [->|Hne].
  - rewrite lookup_insert_eq in Hd. discriminate.
  - rewrite lookup_insert_ne in Hd by congruence.
    rewrite (heap_record_def_other name target title st r loc) by assumption.
    eauto.
Qed.

(** ** The rule list *)

Lemma filter_rules_keep (rules : rules_t) (name : string) :
  fst (filter_rules rules name) = true
  <-> exists rule, rules_get rules name = Some rule /\ is_some (r_match rule) = true.
Proof.
  unfold filter_rules. destruct (rules_get rules name) as [rule|].
  - destruct (r_match rule) eqn:Hm; simpl.
    + split; [intros _; exists rule; rewrite Hm; auto|auto].
    + split; [discriminate|]. intros (r & E & H). injection E as <-.
      rewrite Hm in H. discriminate.
  - simpl. split; [discriminate|]. intros (r & E & _). discriminate.
Qed.

Lemma filter_keys_spec (rules : rules_t) (name : string) : forall keys,
  In name (fst (filter_keys rules keys))
  <-> In name keys /\ fst (filter_rules rules name) = true.
Proof.
  induction keys as [|k keys IH]; simpl; [tauto|].
  destruct (filter_rules rules k) as [keep out] eqn:Hk.
  destruct (filter_keys rules keys) as [rest outs]. simpl in *.
  destruct keep; simpl; rewrite ?IH.
  - split.
    + intros [E|[H1 H2]]; [subst k; rewrite Hk; auto|auto].
    + intros [[E|H1] H2]; auto.
  - split.
    + intros [H1 H2]. auto.
    + intros [[E|H1] H2]; [subst k; rewrite Hk in H2; discriminate|auto].
Qed.

(** Orders that are numbers: the comparison never raises, and it follows
    the numbers. *)
Lemma sort_rules_numbers (rules : rules_t) (a b : string) (x y : Z) :
  order_number rules a = Some x -> order_number rules b = Some y ->
  exists c, sort_rules rules a b = Some c
            /\ ((0 < c)%Z -> (y <= x)%Z) /\ ((c <= 0)%Z -> (x <= y)%Z).
Proof.
  unfold order_number, sort_rules. intros Ha Hb.
  destruct (rules_get rules a) as [ra|]; [|discriminate].
  destruct (rules_get rules b) as [rb|]; [|discriminate].
  destruct (r_order ra) as [oa| |]; try discriminate.
  destruct (r_order rb) as [ob| |]; try discriminate.
  injection Ha as ->. injection Hb as ->. simpl.
  destruct (Z.eqb_spec x y) as [->|Hne]; simpl.
  - destruct (negb _); [eexists; split; [reflexivity|lia]|].
    destruct (String.ltb a b); [eexists; split; [reflexivity|lia]|].
    destruct (String.ltb b a); eexists; (split; [reflexivity|lia]).
  - eexists. split; [reflexivity|lia].
Qed.

Section InsertionSort.
Context (rules : rules_t).

Let numbered (l : list string) : Prop :=
  Forall (fun k => exists z, order_number rules k = Some z) l.

Let ascending (l : list string) : Prop :=
  forall i j a b x y, i < j -> l !! i = Some a -> l !! j = Some b ->
    order_number rules a = Some x -> order_number rules b = Some y -> (x <= y)%Z.

Lemma ascending_cons (k : string) (l : list string) :
  ascending l ->
  (forall b x y, In b l -> order_number rules k = Some x -> order_number rules b = Some y ->
                 (x <= y)%Z) ->
  ascending (k :: l).
Proof using Type.
  intros Hl Hk i j a b x y Hij Ha Hb Hx Hy. destruct i as [|i]; destruct j as [|j]; try lia.
  - simpl in Ha, Hb. injection Ha as <-. eapply Hk; eauto.
    apply list_elem_of_In. eapply list_elem_of_lookup_2. exact Hb.
  - simpl in Ha, Hb. eapply (Hl i j); eauto. lia.
Qed.

Lemma ascending_tail (k : string) (l : list string) : ascending (k :: l) -> ascending l.
Proof using Type.
  intros H i j a b x y Hij Ha Hb. apply (H (S i) (S j)); auto. lia.
Qed.

Lemma ascending_head (k : string) (l : list string) b x y :
  ascending (k :: l) -> In b l ->
  order_number rules k = Some x -> order_number rules b = Some y -> (x <= y)%Z.
Proof using Type.
  intros H Hin. apply list_elem_of_In in Hin. apply list_elem_of_lookup_1 in Hin as [j Hj].
  apply (H 0 (S j)); auto. lia.
Qed.

Lemma insert_sorted_numbers (x : string) : forall l,
  (exists z, order_number rules x = Some z) -> numbered l -> ascending l ->
  exists r, insert_sorted (sort_rules rules) x l = Some r /\ numbered r /\ ascending r.
Proof using Type.
  intros l [zx Hx]. induction l as [|k l IH]; intros Hn Ha.
  - exists [x]. split; [reflexivity|]. split.
    + constructor; [eauto|constructor].
    + intros i j a b ? ? Hij Hi Hj. destruct i; destruct j; try lia; discriminate.
  - inversion Hn as [|? ? [zk Hk] Hn']; subst. cbn [insert_sorted].
    destruct (sort_rules_numbers rules k x zk zx Hk Hx) as (c & -> & Hpos & Hneg).
    destruct (Z.ltb_spec 0 c) as [Hc|Hc].
    + exists (x :: k :: l). split; [reflexivity|]. split.
      * constructor; [eauto|assumption].
      * apply ascending_cons; [assumption|].
        intros b x' y' [<-|Hin] Hx' Hy'.
        -- rewrite Hx in Hx'. rewrite Hk in Hy'. injection Hx' as <-. injection Hy' as <-.
           apply Hpos. assumption.
        -- rewrite Hx in Hx'. injection Hx' as <-.
           pose proof (ascending_head k l b zk y' Ha Hin Hk Hy'). specialize (Hpos Hc). lia.
    + destruct (IH Hn' (ascending_tail k l Ha)) as (r & Hr & Hnr & Har).
      rewrite Hr. exists (k :: r). split; [reflexivity|]. split.
      * constructor; [eauto|assumption].
      * apply ascending_cons; [assumption|].
        intros b x' y' Hin Hx' Hy'. rewrite Hk in Hx'. injection Hx' as <-.
        apply (insert_sorted_In _ _ _ _ Hr) in Hin as [->|Hin].
        -- rewrite Hx in Hy'. injection Hy' as <-. apply Hneg. assumption.
        -- eapply ascending_head; eauto.
Qed.

Lemma sort_keys_numbers : forall l acc,
  numbered l -> numbered acc -> ascending acc ->
  exists r,
    fold_left (fun acc x => match acc with
                            | Some sorted => insert_sorted (sort_rules rules) x sorted
                            | None => None
                            end) l (Some acc) = Some r
    /\ ascending r.
Proof using Type.
  induction l as [|x l IH]; intros acc Hl Hacc Ha; simpl; [eauto|].
  inversion Hl as [|? ? Hx Hl']; subst.
  destruct (insert_sorted_numbers x acc Hx Hacc Ha) as (r & -> & Hnr & Har).
  apply IH; assumption.
Qed.

Lemma rule_list_of_numbers :
  (forall name rule, rules_get rules name = Some rule -> is_number (r_order rule) = true) ->
  exists l, rule_list_of rules = Some l /\ ascending l.
Proof using Type.
  intros Hnum. unfold rule_list_of, sort_keys. apply sort_keys_numbers.
  - apply Forall_forall. intros k Hk. apply list_elem_of_In in Hk.
    apply filter_keys_spec in Hk as [_ Hkeep].
    apply filter_rules_keep in Hkeep as (rule & Hget & _).
    unfold order_number. rewrite Hget. specialize (Hnum _ _ Hget).
    destruct (r_order rule); try discriminate. eauto.
  - constructor.
  - intros i j a b ? ? _ Hi. discriminate.
Qed.
End InsertionSort.

(** * The two HTML outputs *)

Lemma tree_ok_lists (l : list node) :
  (fix lists (l : list node) : bool :=
     match l with
     | [] => true
     | x :: l' => tree_ok x && lists l'
     end) l = forallb tree_ok l.
Proof. induction l as [|x l IH]; simpl; [reflexivity|]. rewrite IH. reflexivity. Qed.

Lemma tree_ok_lists2 (l : list (list node)) :
  (fix lists2 (l : list (list node)) : bool :=
     match l with
     | [] => true
     | x :: l' =>
         (fix lists (l : list node) : bool :=
            match l with
            | [] => true
            | x :: l' => tree_ok x && lists l'
            end) x && lists2 l'
     end) l = forallb (forallb tree_ok) l.
Proof.
  induction l as [|x l IH]; [reflexivity|]. cbn [forallb]. etransitivity; [|rewrite <- IH, <- tree_ok_lists; reflexivity].
  reflexivity.
Qed.

Lemma tree_ok_lists3 (l : list (list (list node))) :
  (fix lists3 (l : list (list (list node))) : bool :=
     match l with
     | [] => true
     | x :: l' =>
         (fix lists2 (l : list (list node)) : bool :=
            match l with
            | [] => true
            | x :: l' =>
                (fix lists (l : list node) : bool :=
                   match l with
                   | [] => true
                   | x :: l' => tree_ok x && lists l'
                   end) x && lists2 l'
            end) x && lists3 l'
     end) l = forallb (forallb (forallb tree_ok)) l.
Proof.
  induction l as [|x l IH]; [reflexivity|]. cbn [forallb].
  etransitivity; [|rewrite <- IH, <- tree_ok_lists2; reflexivity].
  reflexivity.
Qed.

Lemma tree_ok_eq (t : string) (f : payload node) :
  tree_ok (Node t f)
  = ((if String.eqb t "text" then match f with PText _ => true | _ => false end else true)
     && match f with
        | PContent c | PHeading _ c | PLink c _ _ | PRefLink _ c => forallb tree_ok c
        | PList _ _ items => forallb (forallb tree_ok) items
        | PTable header _ cells =>
            forallb (forallb tree_ok) header && forallb (forallb (forallb tree_ok)) cells
        | _ => true
        end)%bool.
Proof.
  destruct f;
    first [ reflexivity
          | rewrite <- tree_ok_lists; reflexivity
          | rewrite <- tree_ok_lists2; reflexivity
          | rewrite <- tree_ok_lists2, <- tree_ok_lists3; reflexivity ].
Qed.

(** What [tree_ok] says of the lists of a node. *)
Lemma tree_ok_children (t : string) (f : payload node) :
  tree_ok (Node t f) = true ->
  match f with
  | PContent c | PHeading _ c | PLink c _ _ | PRefLink _ c => forallb tree_ok c = true
  | PList _ _ items => forallb (forallb tree_ok) items = true
  | PTable header _ cells =>
      forallb (forallb tree_ok) header = true
      /\ forallb (forallb (forallb tree_ok)) cells = true
  | _ => True
  end.
Proof.
  rewrite tree_ok_eq. intros H. apply andb_prop in H as [_ H].
  destruct f; try exact I; try assumption. apply andb_prop in H. assumption.
Qed.

Lemma tree_ok_text_ok (n : node) : tree_ok n = true -> text_ok n.
Proof.
  destruct n as [t f]. intros H Ht. rewrite tree_ok_eq in H. apply andb_prop in H as [H _].
  simpl in Ht. subst t. simpl in H. destruct f; try discriminate. eexists. reflexivity.
Qed.

Lemma hconcat_map_ext {A} (f g : A -> hres) (l : list A) :
  (forall x, In x l -> f x = g x) -> hconcat (map f l) = hconcat (map g l).
Proof.
  induction l as [|x l IH]; intros H; [reflexivity|]. simpl.
  rewrite (H x) by (left; reflexivity). rewrite IH; [reflexivity|].
  intros y Hy. apply H. right. assumption.
Qed.

Section Congruence.
Context (out1 out2 : ast -> hres).
Context (Hout : forall l, forallb tree_ok l = true -> out1 (AList l) = out2 (AList l)).

Lemma row_html_congr align tag extra : forall row index,
  forallb (forallb tree_ok) row = true ->
  row_html out1 align tag extra index row = row_html out2 align tag extra index row.
Proof using Hout.
  induction row as [|content row IH]; intros index H; [reflexivity|].
  cbn [forallb] in H. apply andb_prop in H as [Hc Hrow]. cbn [row_html].
  rewrite (Hout _ Hc). apply hbind_ext. intros s.
  destruct (get_style align index); [|reflexivity]. rewrite (IH _ Hrow). reflexivity.
Qed.

Lemma content_html_congr tag attributes h n :
  tree_ok n = true ->
  content_html tag attributes h n out1 = content_html tag attributes h n out2.
Proof using Hout.
  destruct n as [t f]. intros H. apply tree_ok_children in H.
  unfold content_html. cbn [node_fields]. destruct f; try reflexivity;
    rewrite (Hout _ H); reflexivity.
Qed.

Lemma default_html_congr name r h n :
  rules_get default_rules name = Some r -> tree_ok n = true ->
  r_html r h n out1 = r_html r h n out2.
Proof using Hout.
  intros Hget Hn. unfold default_rules in Hget. cbn [build_rules rules_get] in Hget.
  repeat match type of Hget with
         | (if String.eqb ?a name then _ else _) = _ =>
             destruct (String.eqb_spec a name) as [<-|_];
             [injection Hget as <-;
              match goal with
              | |- r_html (?f _) _ _ _ = _ => unfold f, mk_rule, mk_rule_q; cbn [r_html]
              end;
              first [ reflexivity
                    | apply content_html_congr; assumption
                    | idtac ]
             |]
         end; try discriminate.
  - (* heading *)
    destruct n as [t f]. apply tree_ok_children in Hn.
    unfold Heading_html. cbn [node_fields]. destruct f; try reflexivity.
    rewrite (Hout _ Hn). reflexivity.
  - (* list *)
    destruct n as [t f]. apply tree_ok_children in Hn.
    unfold List_html. cbn [node_fields]. destruct f; try reflexivity.
    f_equal. apply hconcat_map_ext. intros item Hin.
    rewrite forallb_forall in Hn. rewrite (Hout _ (Hn _ Hin)). reflexivity.
  - (* table *)
    destruct n as [t f]. apply tree_ok_children in Hn.
    unfold Table_html. cbn [node_fields]. destruct f; try reflexivity.
    destruct Hn as [Hh Hc]. rewrite (row_html_congr _ _ _ _ _ Hh).
    apply hbind_ext. intros headers. f_equal. apply hconcat_map_ext. intros row Hin.
    rewrite forallb_forall in Hc. rewrite (row_html_congr _ _ _ _ _ (Hc _ Hin)). reflexivity.
  - (* link *)
    destruct n as [t f]. apply tree_ok_children in Hn.
    unfold Link_html. cbn [node_fields]. destruct f; try reflexivity.
    + rewrite (Hout _ Hn). reflexivity.
    + destruct (h !! loc) as [[[target title]|]|]; try reflexivity.
      rewrite (Hout _ Hn). reflexivity.
Qed.
End Congruence.

Lemma Array_html_timeout (output : ast -> hres) (arr : list node) :
  (forall a, output a = HTimeout) -> Forall text_ok arr ->
  Array_html arr output = hconcat (map (fun n => output (ANode n)) arr).
Proof.
  intros Hout Hok. unfold Array_html. destruct arr as [|n arr]; [reflexivity|].
  cbn [array_html_loop length lookup list_lookup map hconcat]. rewrite !Hout.
  inversion Hok as [|? ? Hn _]; subst.
  destruct (joined_node_some (n :: arr) Hok 0 n (or_introl eq_refl)) as (j & n' & ->).
  rewrite Hout. reflexivity.
Qed.

(** On a tree whose text nodes have a content, the output of
    [output_for(default_rules, 'html')] and that of
    [html_for(rules_output(default_rules, 'html'))] are the same. *)
Lemma nested_output_html_for (h : list cell) : forall fuel a,
  ast_ok a = true ->
  nested_output default_rules h fuel a = html_for (rules_output default_rules h) fuel a.
Proof.
  induction fuel as [|fuel IH]; intros a Ha; [reflexivity|].
  destruct a as [n|arr]; cbn [nested_output html_for ast_ok] in *.
  - unfold rules_output. destruct (rules_get default_rules (node_type n)) as [r|] eqn:Hr;
      [|reflexivity].
    apply (default_html_congr _ _ (fun l Hl => IH (AList l) Hl) _ r h n Hr Ha).
  - assert (Hok : Forall text_ok arr).
    { apply Forall_forall. intros n Hn. apply tree_ok_text_ok.
      rewrite forallb_forall in Ha. apply Ha. apply list_elem_of_In. assumption. }
    etransitivity.
    + destruct fuel as [|fuel'].
      * apply Array_html_timeout; [reflexivity|assumption].
      * apply (Array_html_joined _ arr Hok sanitize_text sanitize_text_app).
        intros c. reflexivity.
    + apply hconcat_map_ext. intros n Hn. apply IH.
      rewrite forallb_forall in Ha. apply Ha. assumption.
Qed.

(** * The claims *)

(** ** C1: the mode of the implicit parse *)

(** [BLOCK_END_R.match] tries the pattern at index 0 only: a source that
    starts with another character than a newline is never taken for a
    block. *)
Lemma implicit_is_block_head (c : ascii) (s : str) :
  c <> ch_nl -> implicit_is_block (c :: s) = false.
Proof.
  intros Hc. unfold implicit_is_block.
  destruct (re_match no_flags BLOCK_END_R (c :: s)) as [cap|] eqn:Hm; [|reflexivity].
  exfalso. apply re_match_valid in Hm as [(_ & _ & H) Hst]; [|reflexivity].
  rewrite Hst in H. unfold BLOCK_END_R, at_least in H. cbn [matches] in H.
  destruct H as (p1 & g1 & Hrep & _).
  destruct Hrep as (n & Hit & Hn & _). destruct n as [|n]; [lia|].
  cbn [iter] in Hit. destruct Hit as (p2 & g2 & Hnl & _).
  unfold NL in Hnl. cbn [matches] in Hnl. destruct Hnl as (x & Hx & He & _).
  simpl in Hx. injection Hx as <-. apply lit_eq_no_flags in He. contradiction.
Qed.

(** C1, refuted at the input [a\n\n]: the source ends in two newlines, yet
    [BLOCK_END_R.match] looks for the newlines at index 0, finds none, and
    the source is parsed in inline mode: three text nodes instead of the
    paragraph the block parse gives.  A search, as the pattern's [$] asks
    for, would have found the newlines. *)
Theorem C1_implicit_parse_of_block_source :
  implicit_is_block ("a" ++ nl ++ nl)%string = false
  /\ is_some (re_search no_flags BLOCK_END_R ("a" ++ nl ++ nl)%string) = true
  /\ tree_of (default_implicit_parse (parse_fuel ("a" ++ nl ++ nl)%string)
                ("a" ++ nl ++ nl)%string empty_state)
     = Some [Node "text" (PText "a"); Node "text" (PText nl); Node "text" (PText nl)]
  /\ tree_of (default_implicit_parse (parse_fuel ("a" ++ nl ++ nl)%string)
                ("a" ++ nl ++ nl)%string empty_state)
     = tree_of (default_inline_parse (parse_fuel ("a" ++ nl ++ nl)%string)
                  ("a" ++ nl ++ nl)%string empty_state)
  /\ tree_of (default_block_parse (parse_fuel ("a" ++ nl ++ nl)%string)
                ("a" ++ nl ++ nl)%string empty_state)
     = Some [Node "paragraph" (PContent [Node "text" (PText "a")])]
  /\ (forall c s, c <> ch_nl -> implicit_is_block (c :: s ++ [ch_nl; ch_nl]) = false).
Proof.
  split; [vm_compute; reflexivity|].
  split; [vm_compute; reflexivity|].
  split; [vm_compute; reflexivity|].
  split; [vm_compute; reflexivity|].
  split; [vm_compute; reflexivity|].
  intros c s Hc. apply implicit_is_block_head. assumption.
Qed.

(** ** C2: the [href] of a link *)

Lemma Link_html_href (h : list cell) (content : list node) (target : str)
    (title : option (option str)) (output : ast -> hres) (s : str) :
  output (AList content) = HOk s -> target <> [] ->
  exists attrs,
    Link_html h (Node "link" (PLink content target title)) output
    = HOk (str_of_string "<a href=" ++ [ch_dq] ++ sanitize_text (sanitize_text target)
           ++ [ch_dq] ++ attrs ++ str_of_string ">" ++ s ++ str_of_string "</a>").
Proof.
  intros Hout Ht. unfold Link_html. cbn [node_fields]. rewrite Hout. cbn [hbind].
  unfold html_tag. cbn [flat_map].
  pose proof (sanitize_text_nonempty target Ht) as Hne.
  destruct (sanitize_text target) as [|c v] eqn:Hs; [congruence|].
  replace (sanitize_text (str_of_string "href")) with (str_of_string "href")
    by (vm_compute; reflexivity).
  match goal with
  | |- context [?a ++ @nil ascii] => exists (a ++ [])
  end.
  f_equal. cbn [str_of_string list_ascii_of_string app].
  rewrite <- !app_assoc. cbn [app]. rewrite <- ?app_assoc. reflexivity.
Qed.

Lemma sanitize_url_javascript (s : str) :
  sanitize_url (Some (str_of_string "javascript:" ++ s)) = None.
Proof.
  unfold sanitize_url.
  destruct (str_of_string "javascript:" ++ s) as [|c u] eqn:E; [reflexivity|].
  rewrite <- E. rewrite unquote_plain_app by (repeat constructor; discriminate).
  rewrite protocol_strip_flat_map, flat_map_app. unfold lower. rewrite map_app.
  change (map lower_char (flat_map _ (str_of_string "javascript:")))
    with (str_of_string "javascript:").
  rewrite starts_with_app. reflexivity.
Qed.

(** Escaping that keeps the length escapes nothing. *)
Lemma sanitize_text_same_length (s : str) :
  length (sanitize_text s) = length s -> Forall (fun c => needs_escape c = false) s.
Proof.
  rewrite sanitize_text_flat_map.
  induction s as [|c s IH]; intros H; [constructor|].
  pose proof (sanitize_text_length s) as Hlen. rewrite sanitize_text_flat_map in Hlen.
  simpl in H. rewrite length_app in H.
  destruct (needs_escape c) eqn:Ec.
  - pose proof (sanitize_code_entity c Ec) as [H2 _]. lia.
  - simpl in H. constructor; [exact Ec|]. apply IH. lia.
Qed.

Lemma sanitize_text_twice_fixed (s : str) :
  sanitize_text (sanitize_text s) = s <-> Forall (fun c => needs_escape c = false) s.
Proof.
  split.
  - intros H. apply sanitize_text_same_length.
    pose proof (sanitize_text_length s).
    pose proof (sanitize_text_length (sanitize_text s)) as H2. rewrite H in H2. lia.
  - intros H. rewrite !(sanitize_text_plain s H). reflexivity.
Qed.

Lemma sanitize_text_no_quote (s : str) : ~ In ch_dq (sanitize_text s).
Proof.
  intros Hin. pose proof (sanitize_text_clean s) as H.
  rewrite Forall_forall in H. apply list_elem_of_In in Hin.
  apply (H _ Hin). simpl. auto.
Qed.




(** ** C3: the types of the nodes *)

(** C3, refuted at a table whose header cell holds [**a|b**]: the separator
    inside the [strong] span is parsed while [in_table] is set, stays in the
    tree with the type [table_separator], and the rule table has no such key
    (the rule is registered as [tableSeparator]); rendering the tree fails
    on the lookup. *)
Theorem C3_table_separator_in_tree :
  tree_of (default_block_parse (parse_fuel ("|**a|b**|" ++ nl ++ "|-|" ++ nl)%string)
             ("|**a|b**|" ++ nl ++ "|-|" ++ nl)%string empty_state)
    = Some [Node "table"
              (PTable [[Node "strong"
                          (PContent [Node "text" (PText "a");
                                     Node "table_separator" PEmpty;
                                     Node "text" (PText "b")])]]
                      [None] [[[]]])]
  /\ forallb (is_rule_key default_rules)
       (match tree_of (default_block_parse
                         (parse_fuel ("|**a|b**|" ++ nl ++ "|-|" ++ nl)%string)
                         ("|**a|b**|" ++ nl ++ "|-|" ++ nl)%string empty_state) with
        | Some tree => tree_types tree
        | None => []
        end) = false
  /\ is_rule_key default_rules "table_separator" = false
  /\ is_rule_key default_rules "tableSeparator" = true
  /\ markdown_to_html (parse_fuel ("|**a|b**|" ++ nl ++ "|-|" ++ nl)%string)
       ("|**a|b**|" ++ nl ++ "|-|" ++ nl)%string empty_state = HErr "KeyError".
Proof. vm_compute. repeat split; reflexivity. Qed.

(** ** C4: the element-format joiner *)

(** C4, refuted: the loop of [Array.react] never advances past the node it
    rendered ([key] is incremented where [i] should be), so on a list that
    is not empty it never comes back with a result, whatever the fuel, the
    renderer and the state; on one text node with [Text.react] every run
    ends out of fuel.  The empty list is the one input it returns on, and
    the HTML joiner, which does step on, renders the same list. *)
Theorem C4_array_react_never_returns :
  (forall (R : Type) (fuel : nat) (n : node) (arr : list node)
          (output : node -> rstate -> routcome R) (st : rstate),
      returns (Array_react fuel (n :: arr) output st) = false)
  /\ (forall fuel,
        Array_react fuel [Node "text" (PText "a")] Text_react
          {| key := Some (str_of_string "0") |} = RTimeout)
  /\ Array_react 1 [] Text_react {| key := Some (str_of_string "0") |}
     = ROk [] {| key := Some (str_of_string "0") |}
  /\ default_html_output 3 [Node "text" (PText "a")] [] = HOk (str_of_string "a").
Proof.
  split; [|split; [|split]].
  - intros R fuel n arr output st. unfold Array_react.
    destruct (key st) as [old_key|]; [|reflexivity].
    apply react_loop_never. simpl. lia.
  - intros fuel. unfold Array_react. simpl. apply react_loop_text. reflexivity.
  - reflexivity.
  - vm_compute. reflexivity.
Qed.

(** ** C5: a rule whose order is not a number *)

(** C5, amended.  [filter_rules] prints the warning and returns [True]: a
    rule with a [match] whose order is not a number stays among the keys
    that are sorted, and is in every rule list the sort gives.  The map that
    holds this rule alone has the rule list of its one name, and the parse
    loop selects the rule on every source it matches with a quality above
    the initial -1. *)
Theorem C5_non_numeric_order_is_kept (rules : rules_t) (name : string) (rule : rule) :
  rules_get rules name = Some rule ->
  is_some (r_match rule) = true ->
  is_number (r_order rule) = false ->
  filter_rules rules name
  = (true, [("Invalid order for rule `" ++ name ++ "`: " ++ show_order (r_order rule))%string])
  /\ (In name (rules_keys rules) ->
      In name (fst (filter_keys rules (rules_keys rules))))
  /\ (forall l, rule_list_of rules = Some l -> In name (rules_keys rules) -> In name l)
  /\ rule_list_of [(name, rule)] = Some [name]
  /\ (forall source st cap,
        rule_match rule source st (previous_capture_string st) = Some cap ->
        Qle_bool match r_quality rule with
                 | Some q => q cap st (previous_capture_string st)
                 | None => 0%Q
                 end (-1) = false ->
        select [(name, rule)] [name] source st = Some (name, rule, cap)).
Proof.
  intros Hget Hm Hn.
  assert (Hf : filter_rules rules name
               = (true, [("Invalid order for rule `" ++ name ++ "`: "
                          ++ show_order (r_order rule))%string])).
  { unfold filter_rules. rewrite Hget. destruct (r_match rule); [|discriminate].
    rewrite Hn. reflexivity. }
  split; [exact Hf|]. split; [|split; [|split]].
  - apply filter_keys_In. rewrite Hf. reflexivity.
  - intros l Hl Hin. eapply rule_list_of_In; eauto. rewrite Hf. reflexivity.
  - unfold rule_list_of, rules_keys. cbn [map fst filter_keys].
    unfold filter_rules. cbn [rules_get].
    rewrite String.eqb_refl. destruct (r_match rule); [|discriminate]. reflexivity.
  - intros source st cap Hcap Hq. unfold select. cbn [scan rules_get].
    rewrite String.eqb_refl. cbn [orb]. rewrite Hcap, Hq. reflexivity.
Qed.

Lemma C5_non_numeric_order_witness :
  filter_rules string_order_rules "x"
  = (true, [("Invalid order for rule `" ++ "x" ++ "`: "
             ++ show_order (r_order (Text (OrdStr "high"))))%string])
  /\ (In "x"%string (rules_keys string_order_rules) ->
      In "x"%string (fst (filter_keys string_order_rules (rules_keys string_order_rules))))
  /\ (forall l, rule_list_of string_order_rules = Some l ->
                In "x"%string (rules_keys string_order_rules) -> In "x"%string l)
  /\ rule_list_of [("x"%string, Text (OrdStr "high"))] = Some ["x"%string]
  /\ (forall source st cap,
        rule_match (Text (OrdStr "high")) source st (previous_capture_string st) = Some cap ->
        Qle_bool match r_quality (Text (OrdStr "high")) with
                 | Some q => q cap st (previous_capture_string st)
                 | None => 0%Q
                 end (-1) = false ->
        select [("x"%string, Text (OrdStr "high"))] ["x"%string] source st
        = Some ("x"%string, Text (OrdStr "high"), cap)).
Proof.
  apply (C5_non_numeric_order_is_kept string_order_rules "x" (Text (OrdStr "high")));
    reflexivity.
Defined.

(** C5 as stated fails on a rule map whose only rule has the order
    ['high']: the warning is printed, the rule list is [['x']], and the
    parse of [a] selects that rule and builds its nodes.  Next to a rule
    with a number, sorting raises instead. *)
Lemma C5_string_order_counterexample :
  filter_rules string_order_rules "x" = (true, ["Invalid order for rule `x`: high"%string])
  /\ rule_list_of string_order_rules = Some ["x"%string]
  /\ option_map (fun sel => fst (fst sel))
       (select string_order_rules ["x"%string] (str_of_string "a") empty_state)
     = Some "x"%string
  /\ tree_of (outer_parse string_order_rules ["x"%string] 4 (str_of_string "a") empty_state)
     = Some [Node "x" (PText "a"); Node "x" (PText nl); Node "x" (PText nl)]
  /\ rule_list_of mixed_order_rules = None.
Proof. vm_compute. repeat split; reflexivity. Qed.

(** ** C6: references and definitions *)

(** The invariant of the references, with the nodes that wait. *)
Lemma refs_inv_pending_empty : refs_inv empty_state /\ refs_pending empty_state.
Proof.
  split; [apply refs_inv_empty|]. intros ref loc (locs & H & _).
  simpl in H. rewrite lookup_empty in H. discriminate.
Qed.

(** Every block parse that returns leaves the invariant of the references,
    and a tree whose reference nodes have their cells in the heap. *)
Lemma default_block_parse_refs (source : str) (tree : list node) (st' : state) :
  default_block_parse (parse_fuel source) source empty_state = Ok tree st' ->
  refs_inv st' /\ refs_pending st' /\ locs_ok st' tree.
Proof.
  intros Hrun.
  pose proof (default_block_parse_total (fun _ => True) Logic.I
                (fun st => refs_inv st /\ refs_pending st)
                (fun _ _ H => H) (fun _ _ H => H) (fun _ _ H => H) (fun _ _ H => H)
                (fun ref st H => conj (refs_inv_register_ref ref st (proj1 H))
                                      (refs_pending_register_ref ref st (proj1 H) (proj2 H)))
                (fun d target title st H =>
                   conj (refs_inv_record_def d target title st (proj1 H))
                        (refs_pending_record_def d target title st (proj1 H) (proj2 H)))
                source refs_inv_pending_empty) as Hwp.
  apply (wp_returns _ _ _ _ _ Hwp) in Hrun as (_ & [Hinv Hpend] & Hlocs & _).
  auto.
Qed.




(** ** C7: emphasis *)

(** C7.  Inline-parsing [**a**] gives exactly one [strong] node whose content
    is the text node [a].  At the order that [em], [strong] and [u] share,
    [strong] is the rule selected: it captures all five characters, and
    neither [em] nor [u] matches. *)
Theorem C7_double_star_is_strong :
  tree_of (default_inline_parse (parse_fuel "**a**") "**a**" empty_state)
    = Some [Node "strong" (PContent [Node "text" (PText "a")])]
  /\ selected_rule "**a**" inline_state = Some "strong"%string
  /\ selected_capture "**a**" inline_state = Some (str_of_string "**a**")
  /\ rule_matches "em" "**a**" inline_state = None
  /\ rule_matches "u" "**a**" inline_state = None
  /\ option_map r_order (default_rule "em") = option_map r_order (default_rule "strong").
Proof. vm_compute. repeat split; reflexivity. Qed.

(** ** C8: progress *)

(** C8.  Whatever the state, on a source that is not empty the default
    rules select a capture of at least one character, so the rest of the
    source is shorter; and the parse loop, given one unit of fuel per
    character and one more, ends, as does the block parse of every source:
    the run returns a tree or raises, it does not go on. *)
Theorem C8_progress_and_termination :
  (forall c source st, exists name rule cap,
      select default_rules default_rule_list (c :: source) st = Some (name, rule, cap)
      /\ 1 <= length (whole cap)
      /\ length (drop (length (whole cap)) (c :: source)) < length (c :: source))
  /\ (forall source st,
        ends (nested_parse default_rules default_rule_list (S (length source))
                (Some source) st) = true)
  /\ (forall source,
        ends (default_block_parse (parse_fuel source) source empty_state) = true).
Proof.
  split; [|split].
  - intros c source st.
    destruct (default_select_progress (fun _ => True) I (fun _ => True)
                (fun _ _ _ => I) (fun _ _ _ => I)
                (fun _ _ _ => I) (fun _ _ _ => I) (fun _ _ _ => I)
                (fun _ _ _ _ _ => I) c source st I)
      as (name & rule & cap & Hsel & Hlen).
    exists name, rule, cap. split; [exact Hsel|]. split; [exact Hlen|].
    rewrite length_drop. cbn [length]. lia.
  - intros source st. eapply wp_ends.
    apply (default_nested_parse_total (fun _ => True) I (fun _ => True)
             (fun _ _ _ => I) (fun _ _ _ => I)
             (fun _ _ _ => I) (fun _ _ _ => I) (fun _ _ _ => I)
             (fun _ _ _ _ _ => I) (S (length source)) source st (Nat.lt_succ_diag_r _) I).
  - intros source. eapply wp_ends.
    apply (default_block_parse_total (fun _ => True) I (fun _ => True)
             (fun _ _ _ => I) (fun _ _ _ => I)
             (fun _ _ _ => I) (fun _ _ _ => I) (fun _ _ _ => I)
             (fun _ _ _ _ _ => I) source I).
Qed.

(** ** C9: a bullet list *)

(** C9.  Block-parsing a two-item bullet list gives one [list] node,
    unordered, without start, whose items are the text nodes [a] and [b]. *)
Theorem C9_bullet_list :
  tree_of (default_block_parse (parse_fuel ("- a" ++ nl ++ "- b" ++ nl ++ nl)%string)
             ("- a" ++ nl ++ "- b" ++ nl ++ nl)%string empty_state)
    = Some [Node "list"
              (PList false None
                 [[Node "text" (PText "a")]; [Node "text" (PText "b")]])].
Proof. vm_compute. reflexivity. Qed.

(** ** C10: preprocessing *)

(** C10.  [preprocess] is idempotent: its result has no carriage return,
    form feed or tab, and on such a string it changes nothing. *)
Theorem C10_preprocess_idempotent (s : str) :
  preprocess (preprocess s) = preprocess s
  /\ Forall preprocessed (preprocess s).
Proof.
  split; [|apply preprocess_clean]. apply preprocess_fixed, preprocess_clean.
Qed.

(** * Further properties of the code *)

(** ** Escaping *)

(** X1.  Whatever the text, [sanitize_text] returns a string without [<],
    [>], double quote and single quote. *)
Theorem X1_sanitize_text_no_markup (s : str) :
  Forall (fun c => ~ In c markup_chars) (sanitize_text s).
Proof. apply sanitize_text_clean. Qed.

(** X2.  [sanitize_text] distributes over concatenation: escaping two
    strings and joining them is escaping the joined string. *)
Theorem X2_sanitize_text_distributes (a b : str) :
  sanitize_text (a ++ b) = sanitize_text a ++ sanitize_text b.
Proof. apply sanitize_text_app. Qed.

(** X3.  [sanitize_text] never shortens a string, and it returns the string
    itself exactly when the string has none of the five characters of
    [SANITIZE_TEXT_R]; the slash and the backquote, which have entries in
    [SANITIZE_TEXT_CODES], are never replaced. *)
Theorem X3_sanitize_text_fixed_points (s : str) :
  length s <= length (sanitize_text s)
  /\ (sanitize_text s = s <-> Forall (fun c => needs_escape c = false) s)
  /\ (Forall (fun c => c = "/"%char \/ c = "`"%char) s -> sanitize_text s = s).
Proof.
  split; [apply sanitize_text_length|]. split.
  - split; [apply sanitize_text_fixed|apply sanitize_text_plain].
  - intros H. apply sanitize_text_plain. eapply Forall_impl; [exact H|].
    intros c [->| ->]; reflexivity.
Qed.

(** ** [html_tag] *)

(** X4.  The double quotes of the result of [html_tag] are those of the tag
    name and of the content, and two for each attribute that is written:
    no attribute name or value brings a quote of its own. *)
Theorem X4_html_tag_quotes (tag_name : string) (content : str)
    (attributes : list (string * option str)) (is_closed : bool) :
  quotes (html_tag tag_name content attributes is_closed)
  = (if is_closed then 2 * quotes (str_of_string tag_name) + quotes content
     else quotes (str_of_string tag_name))
    + 2 * length (List.filter has_value attributes).
Proof.
  unfold html_tag. destruct is_closed;
    rewrite !quotes_app, attribute_string_quotes;
    vm_compute (quotes (str_of_string "<")); vm_compute (quotes (str_of_string ">"));
    try vm_compute (quotes (str_of_string "</")); lia.
Qed.

(** X5.  [html_tag] leaves out every attribute whose value is [None] or the
    empty string: the result is that of the attributes with a value. *)
Theorem X5_html_tag_omits_empty_attributes (tag_name : string) (content : str)
    (attributes : list (string * option str)) (is_closed : bool) :
  html_tag tag_name content attributes is_closed
  = html_tag tag_name content (List.filter has_value attributes) is_closed.
Proof. unfold html_tag. rewrite attribute_string_filter. reflexivity. Qed.

(** ** [sanitize_url] and [unescape_url] *)

(** X6.  [sanitize_url] rejects a URL that begins, in front of any rest,
    with a string without percent sign that spells [javascript:],
    [vbscript:] or [data:] once the characters other than letters, digits,
    slash and colon are deleted and the letters lowered. *)
Theorem X6_sanitize_url_rejects (p s : str) :
  Forall (fun c => c <> "%"%char) p ->
  In (lower (re_sub no_flags PROTOCOL_STRIP_R (fun _ => []) p 0)) rejected_protocols ->
  sanitize_url (Some (p ++ s)) = None.
Proof.
  intros Hp Hin. unfold sanitize_url. destruct (p ++ s) as [|c u] eqn:E; [reflexivity|].
  rewrite <- E. rewrite unquote_plain_app by assumption.
  rewrite protocol_strip_flat_map in *. rewrite flat_map_app. unfold lower in *.
  rewrite map_app.
  destruct Hin as [<-|[<-|[<-|[]]]]; rewrite starts_with_app;
    rewrite ?orb_true_r; reflexivity.
Qed.

Lemma X6_sanitize_url_rejects_witness :
  sanitize_url (Some (str_of_string "Java Script:" ++ str_of_string "alert(1)")) = None.
Proof.
  apply (X6_sanitize_url_rejects (str_of_string "Java Script:") (str_of_string "alert(1)")).
  - repeat constructor; discriminate.
  - vm_compute. auto.
Defined.

(** X7.  [sanitize_url] returns a URL that is not empty and has neither a
    colon nor a percent sign as it is. *)
Theorem X7_sanitize_url_keeps (u : str) :
  u <> [] -> Forall (fun c => c <> ":"%char /\ c <> "%"%char) u ->
  sanitize_url (Some u) = Some u.
Proof.
  intros Hne Hu. unfold sanitize_url. destruct u as [|c u']; [congruence|].
  set (u := c :: u') in *.
  rewrite unquote_plain by (eapply Forall_impl; [exact Hu|]; intros x [_ ?]; assumption).
  assert (Hprot : Forall (fun x => x <> ":"%char)
                    (lower (re_sub no_flags PROTOCOL_STRIP_R (fun _ => []) u 0))).
  { rewrite protocol_strip_flat_map. unfold lower. apply Forall_fmap.
    apply flat_map_Forall. intros x Hx.
    destruct (xorb true _); constructor; [|constructor].
    simpl. intros E. apply lower_char_colon in E. subst x.
    rewrite Forall_forall in Hu. apply list_elem_of_In in Hx. destruct (Hu _ Hx). congruence. }
  rewrite !(starts_with_needs ":"%char) by (assumption || (simpl; auto 12)).
  reflexivity.
Qed.

Lemma X7_sanitize_url_keeps_witness :
  sanitize_url (Some (str_of_string "page.html#top")) = Some (str_of_string "page.html#top").
Proof.
  apply (X7_sanitize_url_keeps (str_of_string "page.html#top")).
  - discriminate.
  - repeat constructor; discriminate.
Defined.

(** X8.  [unescape_url] returns a string without backslash as it is. *)
Theorem X8_unescape_url_plain (s : str) :
  Forall (fun c => c <> "\"%char) s -> unescape_url s = s.
Proof.
  intros H. unfold unescape_url. apply re_sub_id. intros q _.
  apply unescape_url_none. assumption.
Qed.

Lemma X8_unescape_url_plain_witness :
  unescape_url (str_of_string "http://a.b/c") = str_of_string "http://a.b/c".
Proof.
  apply (X8_unescape_url_plain (str_of_string "http://a.b/c")).
  repeat constructor; discriminate.
Defined.

(** ** The HTML joiner *)

(** X9.  When the renderer of a text node distributes over concatenation,
    as [Text.html] does, and every node of type [text] has a content,
    [Array.html] returns what rendering the nodes one by one and joining the
    results returns: merging the neighbouring text nodes does not show, and
    the loop ends. *)
Theorem X9_array_html_is_join (output : ast -> hres) (arr : list node) (f : str -> str) :
  (forall a b, f (a ++ b) = f a ++ f b) ->
  (forall c, output (ANode (text_node c)) = HOk (f c)) ->
  Forall text_ok arr ->
  Array_html arr output = hconcat (map (fun n => output (ANode n)) arr).
Proof. intros Hf Htext Hok. apply (Array_html_joined output arr Hok f Hf Htext). Qed.

Lemma X9_array_html_is_join_witness :
  Array_html [text_node "a"; Node "br" PEmpty; text_node "<"; text_node "b"]
    (nested_output default_rules [] 2)
  = hconcat (map (fun n => nested_output default_rules [] 2 (ANode n))
               [text_node "a"; Node "br" PEmpty; text_node "<"; text_node "b"]).
Proof.
  apply (X9_array_html_is_join (nested_output default_rules [] 2)
           [text_node "a"; Node "br" PEmpty; text_node "<"; text_node "b"] sanitize_text).
  - apply sanitize_text_app.
  - intros c. reflexivity.
  - repeat constructor; intros H; first [discriminate H | eexists; reflexivity].
Defined.

(** X10.  [Array.html] renders a list of text nodes as one text node whose
    content is the concatenation of theirs: the renderer is called once. *)
Theorem X10_array_html_merges_texts (output : ast -> hres) (s : str) (ss : list str) :
  Array_html (map text_node (s :: ss)) output
  = output (ANode (text_node (concat (s :: ss)))).
Proof. apply Array_html_texts. Qed.

(** ** Single rules *)

(** X11.  A capture of [Heading.match] has between one and six [#] in its
    first group, and [Heading.parse] makes their number the level of the
    node. *)
Theorem X11_heading_level (o : order_t) (source : str) (st : state) (cap : capture) :
  rule_match (Heading o) source st (previous_capture_string st) = Some cap ->
  exists hashes,
    group cap 1 = Some hashes /\ 1 <= length hashes /\ length hashes <= 6
    /\ Forall (fun c => c = "#"%char) hashes
    /\ forall parse,
         match Heading_parse cap parse st with
         | Ok d _ => exists content, d = untyped (PHeading (length hashes) content)
         | _ => True
         end.
Proof.
  intros Hm. unfold Heading, mk_rule, rule_match in Hm. cbn [r_match] in Hm.
  apply block_regex_match in Hm as [Hm _].
  destruct (heading_capture source cap Hm) as (hashes & Hg & H1 & H6 & Hall).
  exists hashes. repeat split; auto.
  intros parse. unfold Heading_parse, group_str, bind. rewrite Hg. cbn [ret].
  destruct (group cap 2) as [c2|]; [|exact I]. cbn [ret].
  destruct (parse_inline parse (Some (strip c2)) st) as [content st'| |]; [|exact I..].
  eexists. reflexivity.
Qed.

Lemma X11_heading_level_witness :
  exists cap,
    rule_match (Heading (OrdNum 0)) (str_of_string ("## a" ++ nl ++ nl)) empty_state
      (previous_capture_string empty_state) = Some cap
    /\ exists hashes,
         group cap 1 = Some hashes /\ 1 <= length hashes /\ length hashes <= 6
         /\ Forall (fun c => c = "#"%char) hashes
         /\ forall parse,
              match Heading_parse cap parse empty_state with
              | Ok d _ => exists content, d = untyped (PHeading (length hashes) content)
              | _ => True
              end.
Proof.
  eexists. split; [vm_compute; reflexivity|].
  apply (X11_heading_level (OrdNum 0) (str_of_string ("## a" ++ nl ++ nl)) empty_state).
  vm_compute. reflexivity.
Defined.



(** X13.  The rule that the default parser selects respects the scopes: in
    inline state it is none of the rules behind [block_regex], in block
    state none of the rules behind [inline_regex]; outside a table it is not
    [tableSeparator]; and it is never [Array]. *)
Theorem X13_selected_rule_scope (source : str) (st : state) (name : string) :
  selected_rule source st = Some name ->
  (inline st = true -> ~ In name block_rule_names)
  /\ (inline st = false -> ~ In name inline_rule_names)
  /\ (in_table st = false -> name <> "tableSeparator"%string)
  /\ name <> "Array"%string.
Proof.
  unfold selected_rule. intros H.
  destruct (select default_rules default_rule_list source st) as [[[n rule] cap]|] eqn:Hsel;
    [|discriminate].
  simpl in H. injection H as ->.
  destruct (select_sound _ _ _ _ _ Hsel) as [Hget Hm].
  eapply default_rule_scope; eauto.
Qed.

Lemma X13_selected_rule_scope_witness :
  (inline inline_state = true -> ~ In "text"%string block_rule_names)
  /\ (inline inline_state = false -> ~ In "text"%string inline_rule_names)
  /\ (in_table inline_state = false -> "text"%string <> "tableSeparator"%string)
  /\ "text"%string <> "Array"%string.
Proof.
  apply (X13_selected_rule_scope (str_of_string "a") inline_state "text").
  vm_compute. reflexivity.
Defined.

(** ** References *)

(** X14.  After a block parse that returns, a reference node whose name
    has no definition has no target, and [Link.html] and [Image.html] fail
    on it with [KeyError: 'target']. *)
Theorem X14_undefined_reference (source : str) (tree : list node) (st' : state)
    (ref : str) (loc : nat) :
  default_block_parse (parse_fuel source) source empty_state = Ok tree st' ->
  registered st' ref loc -> _defs st' !! ref = None ->
  heap st' !! loc = Some None
  /\ (forall content output,
        Link_html (heap st') (Node "link" (PRefLink loc content)) output
        = HErr "KeyError: 'target'")
  /\ (forall alt output,
        Image_html (heap st') (Node "image" (PRefImage loc alt)) output
        = HErr "KeyError: 'target'").
Proof.
  intros Hrun Hreg Hd.
  destruct (default_block_parse_refs _ _ _ Hrun) as (_ & Hp & _).
  pose proof (Hp ref loc Hreg Hd) as Hcell.
  split; [exact Hcell|].
  split; intros; [unfold Link_html|unfold Image_html]; cbn [node_fields];
    unfold cell; rewrite Hcell; reflexivity.
Qed.

(** At [[x][y]] without a definition of [y]. *)
Lemma X14_undefined_reference_witness :
  exists tree st',
    default_block_parse (parse_fuel ("[x][y]" ++ nl ++ nl)%string)
      ("[x][y]" ++ nl ++ nl)%string empty_state = Ok tree st'
    /\ tree = [Node "paragraph"
                 (PContent [Node "link" (PRefLink 0 [Node "text" (PText "x")])])]
    /\ registered st' (str_of_string "y") 0
    /\ _defs st' !! str_of_string "y" = None
    /\ heap st' !! 0 = Some None
    /\ (forall content output,
          Link_html (heap st') (Node "link" (PRefLink 0 content)) output
          = HErr "KeyError: 'target'")
    /\ (forall alt output,
          Image_html (heap st') (Node "image" (PRefImage 0 alt)) output
          = HErr "KeyError: 'target'").
Proof.
  eexists. eexists. split; [vm_compute; reflexivity|]. split; [reflexivity|].
  assert (Hreg : forall st, _refs st !! str_of_string "y" = Some [0]
                            -> registered st (str_of_string "y") 0).
  { intros st H. exists [0]. split; [exact H|left; reflexivity]. }
  split; [apply Hreg; vm_compute; reflexivity|].
  split; [vm_compute; reflexivity|].
  eapply (X14_undefined_reference ("[x][y]" ++ nl ++ nl)%string).
  - vm_compute. reflexivity.
  - apply Hreg. vm_compute. reflexivity.
  - vm_compute. reflexivity.
Defined.

(** ** The rule list *)

(** X15.  The rule list that [parser_for] sorts holds exactly the keys of
    the map whose rule has a [match]. *)
Theorem X15_rule_list_members (rules : rules_t) (l : list string) (name : string) :
  rule_list_of rules = Some l ->
  In name l
  <-> In name (rules_keys rules)
      /\ exists rule, rules_get rules name = Some rule /\ is_some (r_match rule) = true.
Proof.
  intros Hl. unfold rule_list_of, sort_keys in Hl.
  apply sort_keys_In in Hl as (a & Ha & H). injection Ha as <-.
  rewrite H, filter_keys_spec, filter_rules_keep. simpl. tauto.
Qed.

Lemma X15_rule_list_members_witness :
  In "text"%string default_rule_list
  <-> In "text"%string (rules_keys default_rules)
      /\ exists rule, rules_get default_rules "text" = Some rule
                      /\ is_some (r_match rule) = true.
Proof.
  apply (X15_rule_list_members default_rules default_rule_list "text").
  vm_compute. reflexivity.
Defined.

(** X16.  When every order of the map is a number, sorting does not raise,
    and the rules stand in the rule list in ascending order. *)
Theorem X16_numeric_orders_sort (rules : rules_t) :
  (forall name rule, rules_get rules name = Some rule -> is_number (r_order rule) = true) ->
  exists l,
    rule_list_of rules = Some l
    /\ forall i j a b x y,
         i < j -> l !! i = Some a -> l !! j = Some b ->
         order_number rules a = Some x -> order_number rules b = Some y -> (x <= y)%Z.
Proof. intros H. apply rule_list_of_numbers. assumption. Qed.

Lemma X16_numeric_orders_sort_witness :
  exists l,
    rule_list_of two_rules = Some l
    /\ forall i j a b x y,
         i < j -> l !! i = Some a -> l !! j = Some b ->
         order_number two_rules a = Some x -> order_number two_rules b = Some y ->
         (x <= y)%Z.
Proof.
  apply (X16_numeric_orders_sort two_rules).
  intros name rule H. unfold two_rules in H. cbn [rules_get] in H.
  destruct (String.eqb "text" name); [injection H as <-; reflexivity|].
  destruct (String.eqb "br" name); [injection H as <-; reflexivity|discriminate].
Defined.

(** ** Lists *)

(** X17.  On a capture of [List.match], with a callback that returns on the
    sources shorter than the one matched, [List.parse] returns when the
    bullet has at most 4300 digits in front of its dot (or is one
    character): every item has the prefix that the pattern of its
    indentation is built from.  On a bullet of more digits it raises the
    [ValueError] of [int].  The capture has at least one character. *)
Theorem X17_list_parse_returns (o : order_t) (source : str) (st : state) (cap : capture)
    (parse : parse_fn) (bullet : str) :
  rule_match (List o) source st (previous_capture_string st) = Some cap ->
  callback_ok (fun _ => False) (fun _ => True) (length source) parse ->
  group cap 2 = Some bullet ->
  (length bullet <= S int_max_str_digits ->
   exists d st', r_parse (List o) cap parse st = Ok d st')
  /\ (S int_max_str_digits < length bullet ->
      r_parse (List o) cap parse st = Raise int_limit_error)
  /\ 1 <= length (whole cap).
Proof.
  intros Hm Hcb Hb. split; [|split].
  - intros Hlen.
    destruct (List_parse_ok (fun _ => False) (fun _ => True) (fun _ _ _ => I)
                (fun _ _ _ => I) o source st cap parse Hm Hcb I) as [Hwp _].
    { intros b Hb' Hlong. rewrite Hb in Hb'. injection Hb' as <-. lia. }
    apply wp_total in Hwp as (d & st' & Hrun & _). eauto.
  - intros Hlong.
    unfold List, mk_rule, rule_match in Hm. cbn [r_match] in Hm. unfold List_match in Hm.
    destruct (re_match no_flags LIST_LOOKBEHIND_R (previous_capture_string st))
      as [lb|]; [|discriminate].
    destruct (_list st || negb (inline st))%bool; [|discriminate].
    destruct (group lb 1) as [indent|]; [|discriminate].
    destruct (list_capture_bullet _ _ Hm) as (a & g & a2 & g' & Ha & Hbul & Hg2).
    rewrite Hb in Hg2. injection Hg2 as ->.
    unfold List, mk_rule. cbn [r_parse]. unfold List_parse, group_str, bind.
    rewrite Hb. cbn [ret].
    destruct (Nat.ltb_spec 1 (length (substr a a2 (indent ++ source)))) as [Hlt|Hge];
      [|unfold int_max_str_digits in Hlong; lia].
    destruct (int_of_bullet no_flags _ _ _ _ _ st eq_refl Ha Hbul Hlt) as [_ Hraise].
    cbv zeta in Hraise. rewrite (Hraise Hlong). reflexivity.
  - destruct (List_parse_ok (fun _ => True) (fun _ => True) (fun _ _ _ => I)
                (fun _ _ _ => I) o source st cap (fun _ => ret []) Hm) as [_ Hlen]; auto.
    intros s st0 _ _. apply wp_ret. apply post_nil. exact I.
Qed.

Lemma X17_list_parse_returns_witness :
  exists cap,
    rule_match (List (OrdNum 0)) (str_of_string ("3. a" ++ nl ++ nl)) empty_state
      (previous_capture_string empty_state) = Some cap
    /\ group cap 2 = Some (str_of_string "3.")
    /\ (length (str_of_string "3.") <= S int_max_str_digits ->
        exists d st', r_parse (List (OrdNum 0)) cap (fun _ => ret []) empty_state = Ok d st')
    /\ (S int_max_str_digits < length (str_of_string "3.") ->
        r_parse (List (OrdNum 0)) cap (fun _ => ret []) empty_state = Raise int_limit_error)
    /\ 1 <= length (whole cap).
Proof.
  eexists. split; [vm_compute; reflexivity|]. split; [vm_compute; reflexivity|].
  apply (X17_list_parse_returns (OrdNum 0) (str_of_string ("3. a" ++ nl ++ nl)) empty_state).
  - vm_compute. reflexivity.
  - intros o st' _ _. apply wp_ret. apply post_nil. exact I.
  - vm_compute. reflexivity.
Defined.

(** ** The two HTML outputs *)


